(** * Rigid-body topology of pele: [source/aatopology.cpp]

    A shallow embedding of [pele::RigidFragment], [pele::RBTopology] and
    [pele::TransformAACluster].  The C++ code works on [double]; the embedding
    is written once over a scalar interface and instantiated three times:

    - [float]  : IEEE binary64, the type the program really uses
                 (everything evaluates with [vm_compute]);
    - [R]      : exact real arithmetic, the reading under which the formulas
                 of the documentation hold exactly;
    - [Z]      : exact integers, for the purely linear code.

    Results that only depend on the control flow and on the indexing are
    proved for every scalar type; results that need algebraic laws state
    them. *)

From Stdlib Require Import PrimFloat.
From Stdlib Require Import String.
From Stdlib Require Import List Arith Lia ZArith Bool.
From Stdlib Require Import Reals Lra Psatz.
Import ListNotations.
Local Open Scope nat_scope.

(** ** Scalars *)

(** The operations of [double] used by the linear code. *)
Class Scalar (F : Type) : Type := {
  fzero : F;
  fadd : F -> F -> F;
  fmul : F -> F -> F
}.

(** The further operations used by [align_angle_axis_vectors]:
    subtraction, division, [sqrt], the comparisons [<] and [>], and the
    literals [2.], [M_PI] and [1e-6]. *)
Class ScalarOrd (F : Type) `{Scalar F} : Type := {
  fsub : F -> F -> F;
  fdiv : F -> F -> F;
  fsqrt : F -> F;
  fltb : F -> F -> bool;
  fgtb : F -> F -> bool;
  ftwo : F;
  M_PI : F;
  near_identity : F
}.

Declare Scope scalar_scope.
Delimit Scope scalar_scope with S.
Infix "+" := fadd : scalar_scope.
Infix "*" := fmul : scalar_scope.
Infix "-" := fsub : scalar_scope.
Infix "/" := fdiv : scalar_scope.

(** Laws of exact arithmetic that make the order of an accumulation
    irrelevant.  They hold in [Z] and [R], not in [float]. *)
Class ExactArith (F : Type) `{Scalar F} : Prop := {
  fadd_assoc : forall x y z : F, (x + (y + z))%S = ((x + y) + z)%S;
  fadd_zero_l : forall x : F, (fzero + x)%S = x
}.

#[export] Instance Scalar_Z : Scalar Z :=
  {| fzero := 0%Z; fadd := Z.add; fmul := Z.mul |}.

#[export] Instance ExactArith_Z : ExactArith Z.
Proof. split; simpl; intros; lia. Qed.

#[export] Instance Scalar_R : Scalar R :=
  {| fzero := 0%R; fadd := Rplus; fmul := Rmult |}.

#[export] Instance ExactArith_R : ExactArith R.
Proof. split; simpl; intros; lra. Qed.

Definition Rltb (x y : R) : bool := if Rlt_dec x y then true else false.
Definition Rgtb (x y : R) : bool := if Rgt_dec x y then true else false.

#[export] Instance ScalarOrd_R : ScalarOrd R :=
  {| fsub := Rminus; fdiv := Rdiv; fsqrt := R_sqrt.sqrt;
     fltb := Rltb; fgtb := Rgtb;
     ftwo := 2%R; M_PI := PI; near_identity := (1 / 1000000)%R |}.

(** [double]: binary64 with round-to-nearest-even.  [x > y] is [y < x];
    both are false when an operand is NaN.  [0x1.921fb54442d18p+1] is the
    value of [M_PI] and [0x1.0c6f7a0b5ed8dp-20] the binary64 number nearest
    to [1e-6]. *)
#[export] Instance Scalar_double : Scalar float :=
  {| fzero := 0%float; fadd := PrimFloat.add; fmul := PrimFloat.mul |}.

#[export] Instance ScalarOrd_double : ScalarOrd float :=
  {| fsub := PrimFloat.sub; fdiv := PrimFloat.div; fsqrt := PrimFloat.sqrt;
     fltb := PrimFloat.ltb; fgtb := fun x y => PrimFloat.ltb y x;
     ftwo := 2%float; M_PI := 0x1.921fb54442d18p+1%float;
     near_identity := 0x1.0c6f7a0b5ed8dp-20%float |}.

(** ** Errors *)

(** The two exceptions of the file, with their messages. *)
Inductive exception : Type :=
| invalid_argument (what : string)
| runtime_error (what : string).

(** The outcome of a call: it returns a value, throws, or stops the program
    at an [assert] whose condition is false.  The asserts are modelled as
    compiled in; with [NDEBUG] they are absent and the call goes on past
    them. *)
Inductive result (A : Type) : Type :=
| Ok (a : A)
| Throw (e : exception)
| Abort (assertion : string).
Arguments Ok {A} a.
Arguments Throw {A} e.
Arguments Abort {A} assertion.

Definition is_invalid_argument {A : Type} (r : result A) : bool :=
  match r with
  | Throw (invalid_argument _) => true
  | _ => false
  end.

Definition is_runtime_error {A : Type} (r : result A) : bool :=
  match r with
  | Throw (runtime_error _) => true
  | _ => false
  end.

(** ** Loops *)

(** [for (size_t i = 0; i < n; ++i) body]. *)
Definition for_loop {S : Type} (n : nat) (body : nat -> S -> S) (s : S) : S :=
  fold_left (fun s i => body i s) (seq 0 n) s.

(** ** Arrays and views *)

Section Arrays.
Context {F : Type} `{Scalar F}.

(** [pele::Array<double>]: a length and its elements.  A read outside the
    array is undefined in C++; here it yields [fzero]. *)
Definition get (a : list F) (i : nat) : F := nth i a fzero.

(** [a[i] = v]; outside the array the C++ is undefined, here nothing is
    written. *)
Fixpoint store (a : list F) (i : nat) (v : F) : list F :=
  match a, i with
  | [], _ => []
  | _ :: t, O => v :: t
  | h :: t, S i' => h :: store t i' v
  end.

(** [Array<double> a(n)]: [n] elements whose values C++ leaves
    unspecified; they are zeros here. *)
Definition Array_new (n : nat) : list F := repeat fzero n.

(** [a.view(ibegin, iend)] read as a value. *)
Definition view (a : list F) (ibegin iend : nat) : list F :=
  firstn (iend - ibegin) (skipn ibegin a).

(** [a.view(ibegin, ibegin + src.size()).assign(src)], and
    [std::copy(src.begin(), src.end(), a.view(ibegin, ...).begin())]: the
    view aliases [a], so the copy lands in [a] itself.  Elements of [src]
    that would fall behind the end of [a] are dropped. *)
Definition assign_view (a : list F) (ibegin : nat) (src : list F) : list F :=
  firstn (length a)
    (firstn ibegin a ++ src ++ skipn (ibegin + length src) a).

(** [HackyMatrix<double> m(a, ncol)]; [m(i,j)] is [a[i * ncol + j]]. *)
Definition hm_get (a : list F) (ncol i j : nat) : F := get a (i * ncol + j).

(** [pele::VecN<3>]. *)
Record VecN3 : Type := mkVecN3 { v0 : F; v1 : F; v2 : F }.

Definition vec_get (v : VecN3) (k : nat) : F :=
  match k with
  | 0 => v0 v
  | 1 => v1 v
  | 2 => v2 v
  | _ => fzero
  end.

Definition vec_set (v : VecN3) (k : nat) (x : F) : VecN3 :=
  match k with
  | 0 => mkVecN3 x (v1 v) (v2 v)
  | 1 => mkVecN3 (v0 v) x (v2 v)
  | 2 => mkVecN3 (v0 v) (v1 v) x
  | _ => v
  end.

(** Conversion of an [Array<double>] to a [VecN<3>] (a copy of three
    elements) and back. *)
Definition vec_of_array (a : list F) : VecN3 :=
  mkVecN3 (get a 0) (get a 1) (get a 2).

Definition vec_to_array (v : VecN3) : list F := [v0 v; v1 v; v2 v].

(** [v.assign(x)]. *)
Definition vec_assign (x : F) : VecN3 := mkVecN3 x x x.

(** [pele::MatrixNM<3,3>]: nine elements, row after row; [m(i,j)] is
    [data[i * 3 + j]]. *)
Definition MatrixNM33 : Type := list F.

Definition mat_get (m : MatrixNM33) (i j : nat) : F := get m (i * 3 + j).

(** Modelled from the spec: [pele::transpose], declared in [pele/vecn.h].
    The element [(k,i)] of the result is the element [(i,k)] of the
    argument. *)
Definition transpose (m : MatrixNM33) : MatrixNM33 :=
  for_loop 3 (fun i mat =>
    for_loop 3 (fun k mat => store mat (k * 3 + i) (mat_get m i k)) mat)
    (Array_new 9).

(** Modelled from the spec: [pele::hacky_mat_mul], declared with
    [HackyMatrix] outside this file.  [a] has [acol] columns and [b] has
    [bcol] columns; the result is the matrix product, with [bcol]
    columns, each element accumulated from [0.]. *)
Definition hacky_mat_mul (a : list F) (acol : nat) (b : list F) (bcol : nat)
  : list F :=
  let n := length a / acol in
  for_loop n (fun i c =>
    for_loop bcol (fun j c =>
      let val :=
        for_loop acol (fun k val =>
          (val + hm_get a acol i k * hm_get b bcol k j)%S) fzero in
      store c (i * bcol + j) val) c)
    (repeat fzero (n * bcol)).

End Arrays.

Arguments VecN3 F : clear implicits.
Arguments MatrixNM33 F : clear implicits.
Arguments mkVecN3 {F} _ _ _.
Arguments v0 {F} _.
Arguments v1 {F} _.
Arguments v2 {F} _.

(** ** Sums and vectors *)

Section Sums.
Context {F : Type} `{Scalar F}.

(** The sum of [f 0], ..., [f (n-1)], accumulated from [0.] upwards as a
    C++ loop [val = 0; for (...) val += f(i);] does. *)
Definition sum_n (n : nat) (f : nat -> F) : F :=
  for_loop n (fun i acc => (acc + f i)%S) fzero.

(** [a + b] and [a += b] on [VecN<3>]. *)
Definition vec_add (a b : VecN3 F) : VecN3 F :=
  mkVecN3 (v0 a + v0 b)%S (v1 a + v1 b)%S (v2 a + v2 b)%S.

(** [v *= c]. *)
Definition vec_scale (v : VecN3 F) (c : F) : VecN3 F :=
  mkVecN3 (v0 v * c)%S (v1 v * c)%S (v2 v * c)%S.

(** The product of a 3x3 matrix with a column vector: the second index of
    the matrix is contracted with the components of the vector. *)
Definition mat_vec (m : MatrixNM33 F) (q : VecN3 F) : VecN3 F :=
  mkVecN3 (sum_n 3 (fun k => mat_get m 0 k * vec_get q k)%S)
          (sum_n 3 (fun k => mat_get m 1 k * vec_get q k)%S)
          (sum_n 3 (fun k => mat_get m 2 k * vec_get q k)%S).

(** The product of a row vector with a 3x3 matrix: the components of the
    vector are contracted with the first index of the matrix. *)
Definition vec_mat (c : VecN3 F) (m : MatrixNM33 F) : VecN3 F :=
  mkVecN3 (sum_n 3 (fun k => vec_get c k * mat_get m k 0)%S)
          (sum_n 3 (fun k => vec_get c k * mat_get m k 1)%S)
          (sum_n 3 (fun k => vec_get c k * mat_get m k 2)%S).

Context `{!ScalarOrd F}.

(** [a - b] and [a -= b] on [VecN<3>]. *)
Definition vec_sub (a b : VecN3 F) : VecN3 F :=
  mkVecN3 (v0 a - v0 b)%S (v1 a - v1 b)%S (v2 a - v2 b)%S.

(** Modelled from the spec: [pele::dot<3>] and [pele::norm<3>], declared in
    [pele/vecn.h]: the Euclidean magnitude of a 3-vector, the square root
    of the sum of the squares of its components. *)
Definition dot (a b : VecN3 F) : F :=
  for_loop 3 (fun i d => (d + vec_get a i * vec_get b i)%S) fzero.

Definition norm (v : VecN3 F) : F := fsqrt (dot v v).

End Sums.

(** ** The rotation algebra, [pele/rotations.h]

    The four primitives are used as a black box: the conversion of an
    angle-axis vector to a rotation matrix, the same with the three
    derivative matrices ([rmat], [drm1], [drm2], [drm3]), the conversion
    back, and the composition of two angle-axis rotations. *)
Class RotationAlgebra (F : Type) : Type := {
  aa_to_rot_mat : VecN3 F -> MatrixNM33 F;
  rot_mat_derivatives :
    VecN3 F -> MatrixNM33 F * MatrixNM33 F * MatrixNM33 F * MatrixNM33 F;
  rot_mat_to_aa : MatrixNM33 F -> VecN3 F;
  rotate_aa : VecN3 F -> VecN3 F -> VecN3 F
}.

(** A small rotation algebra over [Z] to run the linear code on: the
    first-order rotation [1 + [p]x], its three constant derivative
    matrices, the vector read off the antisymmetric part of a matrix, and
    the composition [dp + p + dp x p].  It stands in for the real
    primitives in examples only. *)
Definition toy_rot_mat (p : VecN3 Z) : MatrixNM33 Z :=
  [1; - v2 p; v1 p;
   v2 p; 1; - v0 p;
   - v1 p; v0 p; 1]%Z.

#[export] Instance RotationAlgebra_Z : RotationAlgebra Z :=
  {| aa_to_rot_mat := toy_rot_mat;
     rot_mat_derivatives := fun p =>
       (toy_rot_mat p,
        [0; 0; 0; 0; 0; -1; 0; 1; 0]%Z,
        [0; 0; 1; 0; 0; 0; -1; 0; 0]%Z,
        [0; -1; 0; 1; 0; 0; 0; 0; 0]%Z);
     rot_mat_to_aa := fun m =>
       mkVecN3 (mat_get m 2 1 - mat_get m 1 2)%Z
               (mat_get m 0 2 - mat_get m 2 0)%Z
               (mat_get m 1 0 - mat_get m 0 1)%Z;
     rotate_aa := fun p dp =>
       mkVecN3 (v0 dp + v0 p + (v1 dp * v2 p - v2 dp * v1 p))%Z
               (v1 dp + v1 p + (v2 dp * v0 p - v0 dp * v2 p))%Z
               (v2 dp + v2 p + (v0 dp * v1 p - v1 dp * v0 p))%Z |}.

(** ** [pele::RigidFragment] *)

Module RigidFragment.
Section Fragment.
Context {F : Type} `{Scalar F} `{RotationAlgebra F}.

Definition _ndim : nat := 3.

(** The members the two transforms read: the flat array of body-frame
    coordinates and the number of atoms.  [_atom_positions_matrix] is a
    [HackyMatrix] view of [_atom_positions] with [_ndim] columns. *)
Record t : Type := mk {
  _atom_positions : list F;
  _natoms : nat
}.

Definition _atom_positions_matrix (f : t) (atom k : nat) : F :=
  hm_get (_atom_positions f) _ndim atom k.

Definition natoms (f : t) : nat := _natoms f.

(** Modelled from the spec: the constructor of [RigidFragment], declared
    in [pele/aatopology.h].  A fragment is an ordered sequence of N
    body-frame 3-D points, stored once, and [natoms = N]. *)
Definition make (points : list (VecN3 F)) : t :=
  {| _atom_positions := flat_map vec_to_array points;
     _natoms := length points |}.

(** What the constructor establishes. *)
Definition ok (f : t) : Prop :=
  length (_atom_positions f) = _natoms f * _ndim.

(** The body-frame position of one atom. *)
Definition atom_position (f : t) (atom : nat) : VecN3 F :=
  mkVecN3 (_atom_positions_matrix f atom 0)
          (_atom_positions_matrix f atom 1)
          (_atom_positions_matrix f atom 2).

(** [RigidFragment::to_atomistic(com, p)], lines 7-29.  The asserts of
    lines 11 and 12 ask for three entries in [com] and in [p]; [p] has
    them by its type, and the properties below are stated for a [com] of
    three entries, as every call of this file passes. *)
Definition to_atomistic (f : t) (com : list F) (p : VecN3 F) : list F :=
  let rmat := aa_to_rot_mat p in
  let pos := Array_new (length (_atom_positions f)) in
  for_loop (_natoms f) (fun atom pos =>
    for_loop _ndim (fun j pos =>
      let val :=
        for_loop _ndim (fun k val =>
          (val + mat_get rmat j k * _atom_positions_matrix f atom k)%S)
          (get com j) in
      store pos (atom * _ndim + j) val) pos) pos.

(** [RigidFragment::transform_grad(p, g, g_com, g_rot)], lines 31-76.
    [g_com] and [g_rot] are passed by reference; the function returns
    their final values.  The assert of line 39, that [g] has
    [3 * natoms] entries, is a hypothesis of the properties below; the
    call of line 139 passes a view of that size. *)
Definition transform_grad (f : t) (p : VecN3 F) (g : list F)
    (g_com g_rot : VecN3 F) : VecN3 F * VecN3 F :=
  let gmat := hm_get g 3 in
  let '(rmat, drm1, drm2, drm3) := rot_mat_derivatives p in
  let g_com :=
    for_loop 3 (fun k g_com =>
      let val :=
        for_loop (_natoms f) (fun atom val => (val + gmat atom k)%S) fzero in
      vec_set g_com k val) g_com in
  let g_rot := vec_assign fzero in
  let g_rot :=
    for_loop (_natoms f) (fun atom g_rot =>
      let '(val1, val2, val3) :=
        for_loop 3 (fun i vals =>
          for_loop 3 (fun j '(val1, val2, val3) =>
            ((val1 + gmat atom i * mat_get drm1 i j
                       * _atom_positions_matrix f atom j)%S,
             (val2 + gmat atom i * mat_get drm2 i j
                       * _atom_positions_matrix f atom j)%S,
             (val3 + gmat atom i * mat_get drm3 i j
                       * _atom_positions_matrix f atom j)%S)) vals)
          (fzero, fzero, fzero) in
      let g_rot := vec_set g_rot 0 (vec_get g_rot 0 + val1)%S in
      let g_rot := vec_set g_rot 1 (vec_get g_rot 1 + val2)%S in
      let g_rot := vec_set g_rot 2 (vec_get g_rot 2 + val3)%S in
      g_rot) g_rot in
  (g_com, g_rot).

End Fragment.
Arguments t F : clear implicits.
End RigidFragment.

(** ** [pele::CoordsAdaptor] *)

Module CoordsAdaptor.
Section Adaptor.
Context {F : Type}.

(** Modelled from the spec: the constructor of [CoordsAdaptor], declared in
    [pele/aatopology.h].  It binds [(nrigid, natoms, coords)] and refuses a
    backing array shorter than [6 * nrigid + 3 * natoms]. *)
Definition make (nrigid natoms : nat) (coords : list F) : result unit :=
  if length coords <? 6 * nrigid + 3 * natoms
  then Throw (invalid_argument "coords has the wrong size")
  else Ok tt.

(** Modelled from the spec: the sub-views.  All centers are
    [[0, 3 * nrigid)], all rotations are [[3 * nrigid, 6 * nrigid)]; both
    alias the backing array, so a view is the offset its first element has
    in the array. *)
Definition rb_positions_begin : nat := 0.
Definition rb_rotations_begin (nrigid : nat) : nat := 3 * nrigid.

End Adaptor.
End CoordsAdaptor.

(** ** [pele::RBTopology] *)

Module RBTopology.
Section Topology.
Context {F : Type} `{Scalar F} `{RotationAlgebra F}.

(** Modelled from the spec: the members of [RBTopology], declared in
    [pele/aatopology.h]: the sites in their storage order, the number of
    additional non-rigid atoms, and the total atom count that [finalize]
    caches. *)
Record t : Type := mk {
  _sites : list (RigidFragment.t F);
  _non_rigid_atoms : nat;
  _natoms_total : nat
}.

Definition nrigid (top : t) : nat := length (_sites top).
Definition natoms_total (top : t) : nat := _natoms_total top.
Definition number_of_non_rigid_atoms (top : t) : nat := _non_rigid_atoms top.

(** The atoms of all sites together. *)
Definition natoms_of_sites (sites : list (RigidFragment.t F)) : nat :=
  fold_left (fun n rf => n + RigidFragment.natoms rf) sites 0.

(** Modelled from the spec: [finalize],
    [natoms_total = sum(site.natoms) + non_rigid_atom_count]. *)
Definition finalize (top : t) : t :=
  {| _sites := _sites top;
     _non_rigid_atoms := _non_rigid_atoms top;
     _natoms_total := natoms_of_sites (_sites top) + _non_rigid_atoms top |}.

Definition finalized (top : t) : Prop :=
  _natoms_total top = natoms_of_sites (_sites top) + _non_rigid_atoms top.

(** [if (natoms_total() == 0) { finalize(); }] *)
Definition ensure_finalized (top : t) : t :=
  if natoms_total top =? 0 then finalize top else top.

(** [_sites[isite]]. *)
Definition site (top : t) (isite : nat) : RigidFragment.t F :=
  nth isite (_sites top) (RigidFragment.mk [] 0).

(** [RBTopology::to_atomistic(rbcoords)], lines 78-109.  The call may
    finalize the topology, so the topology is returned with the result.
    After the loop over the sites, line 107 asserts that the sites have
    filled the whole array: the call returns only then. *)
Definition to_atomistic (top : t) (rbcoords : list F)
  : t * result (list F) :=
  let top := ensure_finalized top in
  if negb (length rbcoords =? nrigid top * 6) then
    (top, Throw (invalid_argument "rbcoords has the wrong size"))
  else
    let nrigid := length (_sites top) in
    let rb_pos := view rbcoords CoordsAdaptor.rb_positions_begin
                    (3 * nrigid) in
    let rb_rot := view rbcoords (CoordsAdaptor.rb_rotations_begin nrigid)
                    (6 * nrigid) in
    let atomistic := Array_new (3 * natoms_total top) in
    let '(atomistic, istart) :=
      for_loop nrigid (fun isite '(atomistic, istart) =>
        let psite := vec_of_array (view rb_rot (isite * 3) (isite * 3 + 3)) in
        let site_atom_positions :=
          RigidFragment.to_atomistic (site top isite)
            (view rb_pos (isite * 3) (isite * 3 + 3)) psite in
        (assign_view atomistic istart site_atom_positions,
         istart + length site_atom_positions)) (atomistic, 0) in
    if negb (istart =? natoms_total top * 3) then
      (top, Abort "istart == natoms_total() * 3")
    else
      (top, Ok atomistic).

(** [RBTopology::transform_gradient(rbcoords, grad, rbgrad)],
    lines 111-146.  [rbgrad] is the output buffer, an [Array] that shares
    its memory with the caller's; its final contents are returned together
    with the outcome.  [rbcoords], [grad] and [rbgrad] are taken to be
    three different buffers. *)
Definition transform_gradient (top : t) (rbcoords grad rbgrad : list F)
  : t * result unit * list F :=
  let top := ensure_finalized top in
  if negb (length rbcoords =? nrigid top * 6) then
    (top, Throw (invalid_argument "rbcoords has the wrong size"), rbgrad)
  else if negb (length grad =? natoms_total top * 3) then
    (top, Throw (invalid_argument "grad has the wrong size"), rbgrad)
  else if negb (length rbgrad =? length rbcoords) then
    (top, Throw (invalid_argument "rbgrad has the wrong size"), rbgrad)
  else
    let coords_rot :=
      view rbcoords (CoordsAdaptor.rb_rotations_begin (nrigid top))
        (6 * nrigid top) in
    let g_com := CoordsAdaptor.rb_positions_begin in
    let g_rot := CoordsAdaptor.rb_rotations_begin (nrigid top) in
    let '(rbgrad, istart) :=
      for_loop (nrigid top) (fun isite '(rbgrad, istart) =>
        let site_ndof := RigidFragment.natoms (site top isite) * 3 in
        let g_site := view grad istart (istart + site_ndof) in
        let p := vec_of_array (view coords_rot (isite * 3) (isite * 3 + 3)) in
        let g_com_site :=
          vec_of_array
            (view rbgrad (g_com + isite * 3) (g_com + isite * 3 + 3)) in
        let g_rot_site :=
          vec_of_array
            (view rbgrad (g_rot + isite * 3) (g_rot + isite * 3 + 3)) in
        let '(g_com_site, g_rot_site) :=
          RigidFragment.transform_grad (site top isite) p g_site
            g_com_site g_rot_site in
        let rbgrad :=
          assign_view rbgrad (g_com + isite * 3) (vec_to_array g_com_site) in
        let rbgrad :=
          assign_view rbgrad (g_rot + isite * 3) (vec_to_array g_rot_site) in
        (rbgrad, istart + site_ndof)) (rbgrad, 0) in
    (top, Ok tt, rbgrad).

Context `{!ScalarOrd F}.

(** The periodicity step [n2] of lines 154-163, or [None] when the
    function returns at line 156. *)
Definition periodicity_step (p1 p2 : VecN3 F) : option (VecN3 F) :=
  if fltb (norm p2) near_identity then
    if fltb (norm p1) near_identity then None
    else Some (vec_scale p1 (ftwo * M_PI / norm p1)%S)
  else Some (vec_scale p2 (ftwo * M_PI / norm p2)%S).

(** The loop of lines 165-172; [None] when [fuel] iterations do not reach
    the [break]. *)
Fixpoint add_loop (fuel : nat) (p1 n2 p2 : VecN3 F) : option (VecN3 F) :=
  match fuel with
  | O => None
  | S fuel' =>
      let p2n := vec_add p2 n2 in
      if fgtb (norm (vec_sub p2n p1)) (norm (vec_sub p2 p1)) then Some p2
      else add_loop fuel' p1 n2 p2n
  end.

(** The loop of lines 174-181. *)
Fixpoint sub_loop (fuel : nat) (p1 n2 p2 : VecN3 F) : option (VecN3 F) :=
  match fuel with
  | O => None
  | S fuel' =>
      let p2n := vec_sub p2 n2 in
      if fgtb (norm (vec_sub p2n p1)) (norm (vec_sub p2 p1)) then Some p2
      else sub_loop fuel' p1 n2 p2n
  end.

(** [RBTopology::align_angle_axis_vectors(p1, p2in)], lines 148-183; each
    of the two loops may run [fuel] iterations. *)
Definition align_angle_axis_vectors (fuel : nat) (p1 p2in : VecN3 F)
  : option (VecN3 F) :=
  let p2 := p2in in
  match periodicity_step p1 p2 with
  | None => Some p2
  | Some n2 =>
      match add_loop fuel p1 n2 p2 with
      | None => None
      | Some p2 => sub_loop fuel p1 n2 p2
      end
  end.

(** Modelled from the spec: [get_coords_adaptor(x)] and
    [CoordsAdaptor::get_rb_rotation(isite)], declared in
    [pele/aatopology.h]: the adaptor is built for the topology's rigid
    bodies and non-rigid atoms, and the rotation of site [isite] is the
    3-element sub-view of slot [isite] of the rotation block. *)
Definition get_coords_adaptor (top : t) (x : list F) : result unit :=
  CoordsAdaptor.make (nrigid top) (number_of_non_rigid_atoms top) x.

Definition rb_rotation_begin (top : t) (isite : nat) : nat :=
  CoordsAdaptor.rb_rotations_begin (nrigid top) + isite * 3.

(** [RBTopology::align_all_angle_axis_vectors(x1, x2)], lines 185-197.
    [x2] shares its memory with the caller's array; its final contents are
    returned with the outcome.  [None] when an alignment does not end
    within [fuel] iterations.  [x1] and [x2] are taken to be two different
    buffers. *)
Definition align_all_angle_axis_vectors (fuel : nat) (top : t)
    (x1 x2 : list F) : option (result unit * list F) :=
  match get_coords_adaptor top x1 with
  | Throw e => Some (Throw e, x2)
  | Abort a => Some (Abort a, x2)
  | Ok _ =>
      match get_coords_adaptor top x2 with
      | Throw e => Some (Throw e, x2)
      | Abort a => Some (Abort a, x2)
      | Ok _ =>
          match
            for_loop (nrigid top) (fun isite state =>
              match state with
              | None => None
              | Some x2 =>
                  let p1 :=
                    vec_of_array
                      (view x1 (rb_rotation_begin top isite)
                         (rb_rotation_begin top isite + 3)) in
                  let p2 :=
                    view x2 (rb_rotation_begin top isite)
                      (rb_rotation_begin top isite + 3) in
                  match align_angle_axis_vectors fuel p1 (vec_of_array p2)
                  with
                  | None => None
                  | Some p2new =>
                      Some (assign_view x2 (rb_rotation_begin top isite)
                              (vec_to_array p2new))
                  end
              end) (Some x2)
          with
          | None => None
          | Some x2 => Some (Ok tt, x2)
          end
      end
  end.

(** The loop of lines 205-209: [x1] is [*iter1], [rest] the configurations
    from [*iter2] to the end.  The arrays of the list share their memory
    with the caller's; the final contents of [rest] are returned with the
    outcome. *)
Fixpoint align_path_from (fuel : nat) (top : t) (x1 : list F)
    (rest : list (list F)) : option (result unit * list (list F)) :=
  match rest with
  | [] => Some (Ok tt, [])
  | x2 :: rest' =>
      match align_all_angle_axis_vectors fuel top x1 x2 with
      | None => None
      | Some (Throw e, x2') => Some (Throw e, x2' :: rest')
      | Some (Abort a, x2') => Some (Abort a, x2' :: rest')
      | Some (Ok _, x2') =>
          match align_path_from fuel top x2' rest' with
          | None => None
          | Some (outcome, rest'') => Some (outcome, x2' :: rest'')
          end
      end
  end.

(** [RBTopology::align_path(path)], lines 199-210.  The configurations of
    the path are taken to be different buffers.  On an empty path the C++
    increments the end iterator, which is undefined; here the empty path
    is returned. *)
Definition align_path (fuel : nat) (top : t) (path : list (list F))
  : option (result unit * list (list F)) :=
  match path with
  | [] => Some (Ok tt, [])
  | x1 :: rest =>
      match align_path_from fuel top x1 rest with
      | None => None
      | Some (outcome, rest') => Some (outcome, x1 :: rest')
      end
  end.

End Topology.
Arguments t F : clear implicits.
End RBTopology.

(** ** [pele::TransformAACluster] *)

Module TransformAACluster.
Section Cluster.
Context {F : Type} `{Scalar F} `{RotationAlgebra F}.

(** The rotation of the rigid bodies, lines 218-238: [x] is the
    configuration, [n] the number of rigid bodies.  The assert of
    line 223 checks the transposition: the entry (0, 1) of [mxT] is the
    entry (1, 0) of [mx]. *)
Definition rotate_rigid (n : nat) (x : list F) (mx : MatrixNM33 F) : list F :=
  let rb_pos_begin := CoordsAdaptor.rb_positions_begin in
  let rb_pos := view x rb_pos_begin (3 * n) in
  let mxT := transpose mx in
  let result := hacky_mat_mul rb_pos 3 mxT 3 in
  let x := assign_view x rb_pos_begin result in
  let dp := rot_mat_to_aa mx in
  let rb_rot_begin := CoordsAdaptor.rb_rotations_begin n in
  for_loop n (fun isite x =>
    let pview :=
      view x (rb_rot_begin + isite * 3) (rb_rot_begin + isite * 3 + 3) in
    let p := rotate_aa (vec_of_array pview) dp in
    assign_view x (rb_rot_begin + isite * 3) (vec_to_array p)) x.

(** [TransformAACluster::rotate(x, mx)], lines 212-244, for the topology
    [m_topology].  [x] shares its memory with the caller's array; its
    final contents are returned together with the outcome. *)
Definition rotate (m_topology : RBTopology.t F) (x : list F)
    (mx : MatrixNM33 F) : result unit * list F :=
  match CoordsAdaptor.make (RBTopology.nrigid m_topology)
          (RBTopology.number_of_non_rigid_atoms m_topology) x with
  | Throw e => (Throw e, x)
  | Abort a => (Abort a, x)
  | Ok _ =>
      let x :=
        if 0 <? RBTopology.nrigid m_topology
        then rotate_rigid (RBTopology.nrigid m_topology) x mx
        else x in
      if 0 <? RBTopology.number_of_non_rigid_atoms m_topology
      then (Throw (runtime_error "non-rigid atoms is not yet supported"), x)
      else (Ok tt, x)
  end.

End Cluster.
End TransformAACluster.

(** * Vocabulary of the properties *)

Section Vocabulary.
Context {F : Type} `{Scalar F} `{RotationAlgebra F}.

(** The value the innermost loop of [to_atomistic] leaves in [val]. *)
Definition atom_coordinate (f : RigidFragment.t F) (com : list F)
    (rmat : MatrixNM33 F) (atom j : nat) : F :=
  for_loop 3 (fun k val =>
    (val + mat_get rmat j k * RigidFragment._atom_positions_matrix f atom k)%S)
    (get com j).

Definition atom_block (f : RigidFragment.t F) (com : list F)
    (rmat : MatrixNM33 F) (atom : nat) : list F :=
  [atom_coordinate f com rmat atom 0; atom_coordinate f com rmat atom 1;
   atom_coordinate f com rmat atom 2].

(** The position the documentation gives to an atom: [center + R q]. *)
Definition rotated_atom (center : VecN3 F) (rmat : MatrixNM33 F)
    (q : VecN3 F) : VecN3 F :=
  vec_add center (mat_vec rmat q).

(** The derivative of the rotation matrix with respect to component [m] of
    the angle-axis vector: [drm1], [drm2] or [drm3]. *)
Definition rot_mat_derivative (p : VecN3 F) (m : nat) : MatrixNM33 F :=
  let '(_, drm1, drm2, drm3) := rot_mat_derivatives p in
  match m with
  | 0 => drm1
  | 1 => drm2
  | _ => drm3
  end.

(** One term of the rotation gradient. *)
Definition grad_term (f : RigidFragment.t F) (g : list F)
    (drm : MatrixNM33 F) (atom i j : nat) : F :=
  (hm_get g 3 atom i * mat_get drm i j
   * RigidFragment._atom_positions_matrix f atom j)%S.

(** What the two inner loops leave in [val1], [val2] or [val3]. *)
Definition atom_torque (f : RigidFragment.t F) (g : list F)
    (drm : MatrixNM33 F) (atom : nat) : F :=
  for_loop 3 (fun i acc =>
    for_loop 3 (fun j acc => (acc + grad_term f g drm atom i j)%S) acc) fzero.

(** The center and the rotation of site [i] in a generalized coordinate
    vector for [n] rigid bodies: slot [i] of the first block and slot [i]
    of the second block. *)
Definition center_slot (rbcoords : list F) (i : nat) : list F :=
  view rbcoords (i * 3) (i * 3 + 3).

Definition rotation_slot (n : nat) (rbcoords : list F) (i : nat) : list F :=
  view rbcoords (3 * n + i * 3) (3 * n + i * 3 + 3).

(** The result of site [i]'s own [to_atomistic] on its two slots. *)
Definition site_to_atomistic (top : RBTopology.t F) (rbcoords : list F)
    (i : nat) : list F :=
  RigidFragment.to_atomistic (RBTopology.site top i)
    (center_slot rbcoords i)
    (vec_of_array (rotation_slot (RBTopology.nrigid top) rbcoords i)).

(** What the documentation says of [RBTopology::to_atomistic]: on a vector
    of length [6 * nrigid] it returns an array of length
    [3 * natoms_total], the results of the sites' own [to_atomistic] one
    after the other in storage order; on any other vector it throws
    [invalid_argument]. *)
Definition to_atomistic_contract (top : RBTopology.t F) (rbcoords : list F)
  : Prop :=
  (length rbcoords = 6 * RBTopology.nrigid top ->
   exists atomistic,
     snd (RBTopology.to_atomistic top rbcoords) = Ok atomistic /\
     length atomistic = 3 * RBTopology.natoms_total top /\
     atomistic = flat_map (site_to_atomistic top rbcoords)
                   (seq 0 (RBTopology.nrigid top))) /\
  (length rbcoords <> 6 * RBTopology.nrigid top ->
   is_invalid_argument (snd (RBTopology.to_atomistic top rbcoords)) = true).

(** The new center and the new rotation of site [i]. *)
Definition rotated_center (x : list F) (mx : MatrixNM33 F) (i : nat)
  : VecN3 F :=
  vec_mat (vec_of_array (center_slot x i)) (transpose mx).

Definition rotated_rotation (n : nat) (x : list F) (mx : MatrixNM33 F)
    (i : nat) : VecN3 F :=
  rotate_aa (vec_of_array (rotation_slot n x i)) (rot_mat_to_aa mx).

Context `{!ScalarOrd F}.

(** The Euclidean distance of [p] to [p1], as the loops compute it. *)
Definition distance (p1 p : VecN3 F) : F := norm (vec_sub p p1).

(** [k] additions, and [k] subtractions, of [n2]. *)
Definition steps_up (k : nat) (n2 p : VecN3 F) : VecN3 F :=
  Nat.iter k (fun p => vec_add p n2) p.

Definition steps_down (k : nat) (n2 p : VecN3 F) : VecN3 F :=
  Nat.iter k (fun p => vec_sub p n2) p.

(** Both loops are the same walk, along [step]. *)
Fixpoint walk (step : VecN3 F -> VecN3 F) (fuel : nat) (p1 p2 : VecN3 F)
  : option (VecN3 F) :=
  match fuel with
  | O => None
  | S fuel' =>
      if fgtb (distance p1 (step p2)) (distance p1 p2) then Some p2
      else walk step fuel' p1 (step p2)
  end.

(** A walk stops after [k] steps: none of the first [k] steps made the
    distance greater, and one more step would. *)
Definition stops_after (step : VecN3 F -> VecN3 F) (p1 p2 : VecN3 F)
    (k : nat) : Prop :=
  (forall i, i < k ->
     fgtb (distance p1 (Nat.iter (S i) step p2))
          (distance p1 (Nat.iter i step p2)) = false) /\
  fgtb (distance p1 (Nat.iter (S k) step p2))
       (distance p1 (Nat.iter k step p2)) = true.

(** A step is taken only while it strictly decreases the distance to
    [p1]; the walk stops at the first step that does not. *)
Fixpoint walk_strict (step : VecN3 F -> VecN3 F) (fuel : nat)
    (p1 p2 : VecN3 F) : option (VecN3 F) :=
  match fuel with
  | O => None
  | S fuel' =>
      if fltb (distance p1 (step p2)) (distance p1 p2)
      then walk_strict step fuel' p1 (step p2)
      else Some p2
  end.

Definition align_strict_descent (fuel : nat) (p1 p2 : VecN3 F)
  : option (VecN3 F) :=
  match RBTopology.periodicity_step p1 p2 with
  | None => Some p2
  | Some n2 =>
      match walk_strict (fun p => vec_add p n2) fuel p1 p2 with
      | None => None
      | Some p2 => walk_strict (fun p => vec_sub p n2) fuel p1 p2
      end
  end.

End Vocabulary.

(** ** Exact arithmetic *)

Section RealVocabulary.
Local Open Scope R_scope.

(** The square of the norm. *)
Definition norm2 (v : VecN3 R) : R := v0 v * v0 v + v1 v * v1 v + v2 v * v2 v.

Definition dot3 (a b : VecN3 R) : R := v0 a * v0 b + v1 a * v1 b + v2 a * v2 b.

(** How much one step along [d] adds to the squared distance of [p] to
    [p1]. *)
Definition slope (p1 d p : VecN3 R) : R :=
  2 * dot3 (vec_sub p p1) d + norm2 d.

End RealVocabulary.

(** ** Inputs of the examples *)

(** Two sites over [Z], of two atoms and of one atom. *)
Definition two_sites : RBTopology.t Z :=
  RBTopology.finalize
    (RBTopology.mk
       [RigidFragment.make [mkVecN3 1 0 0; mkVecN3 0 2 0]%Z;
        RigidFragment.make [mkVecN3 0 0 3]%Z] 0 0).

(** A topology with one site of one atom and one non-rigid atom. *)
Definition one_site_one_free_atom : RBTopology.t Z :=
  RBTopology.finalize
    (RBTopology.mk [RigidFragment.make [mkVecN3 1 0 0]%Z] 1 0).

(** [p1 = (2 - pi, 0, 0)] lies halfway between [p2 = (2, 0, 0)] and
    [p2 - n2 = (2 - 2 pi, 0, 0)]; all the numbers involved are binary64
    numbers and the operations on them are exact. *)
Definition tie_p1 : VecN3 float :=
  (mkVecN3 (-0x1.243f6a8885a3p+0) 0 0)%float.
Definition tie_p2 : VecN3 float := (mkVecN3 2 0 0)%float.
Definition tie_n2 : VecN3 float := (mkVecN3 0x1.921fb54442d18p+2 0 0)%float.
Definition tie_result : VecN3 float :=
  (mkVecN3 (-0x1.121fb54442d18p+2) 0 0)%float.

(** [p2 = (2 pi, 0, 0)] is a full turn about the first axis and
    [p1 = (0, 5, 0)] a rotation about the second. *)
Definition turn_p1 : VecN3 R := mkVecN3 0%R 5%R 0%R.
Definition turn_p2 : VecN3 R := mkVecN3 (2 * PI)%R 0%R 0%R.
Definition turn_zero : VecN3 R := mkVecN3 0%R 0%R 0%R.
Definition turn_again : VecN3 R := mkVecN3 0%R (2 * PI)%R 0%R.

(** A quarter turn about the third axis. *)
Definition quarter_turn : MatrixNM33 Z := [0; -1; 0; 1; 0; 0; 0; 0; 1]%Z.

(** ** Further laws of exact arithmetic *)

(** Commutativity of the addition and the two distributivity laws, with
    [0 * x = 0]; they hold in [Z] and [R], not in [float]. *)
Class ExactRing (F : Type) `{Scalar F} : Prop := {
  fadd_comm : forall x y : F, (x + y)%S = (y + x)%S;
  fmul_add_distr_l : forall x y z : F, (x * (y + z))%S = (x * y + x * z)%S;
  fmul_add_distr_r : forall x y z : F, ((x + y) * z)%S = (x * z + y * z)%S;
  fmul_zero_l : forall x : F, (fzero * x)%S = fzero
}.

#[export] Instance ExactRing_Z : ExactRing Z.
Proof. split; simpl; intros; lia. Qed.

#[export] Instance ExactRing_R : ExactRing R.
Proof. split; simpl; intros; lra. Qed.

(** ** Vocabulary of the further properties *)

Section GradientVocabulary.
Context {F : Type} `{Scalar F} `{RotationAlgebra F}.

(** Where the gradient block of site [i] starts in the atomistic gradient:
    the value of [istart] when the loop of lines 136-145 reaches the
    site. *)
Definition grad_start (top : RBTopology.t F) (i : nat) : nat :=
  for_loop i (fun j istart =>
    istart + RigidFragment.natoms (RBTopology.site top j) * 3) 0.

(** The two gradients of site [i]: its own [transform_grad] on its
    rotation slot and on its block of the atomistic gradient. *)
Definition site_gradient (top : RBTopology.t F) (rbcoords grad : list F)
    (i : nat) : VecN3 F * VecN3 F :=
  RigidFragment.transform_grad (RBTopology.site top i)
    (vec_of_array (rotation_slot (RBTopology.nrigid top) rbcoords i))
    (view grad (grad_start top i)
       (grad_start top i + RigidFragment.natoms (RBTopology.site top i) * 3))
    (vec_assign fzero) (vec_assign fzero).

(** The pairing of an atomistic gradient with atomistic coordinates, both
    for [n] atoms: the sum over the atoms and the three components of
    [g(atom,k) * w(atom,k)]. *)
Definition pairing (n : nat) (g w : list F) : F :=
  sum_n n (fun atom =>
    sum_n 3 (fun k => (hm_get g 3 atom k * hm_get w 3 atom k)%S)).

(** The pairing of two 3-vectors, the first on the left of each
    product. *)
Definition pairing3 (a b : VecN3 F) : F :=
  sum_n 3 (fun k => (vec_get a k * vec_get b k)%S).

End GradientVocabulary.

Section AlignAllVocabulary.
Context {F : Type} `{Scalar F} `{!ScalarOrd F}.

(** The rotation of site [i] in the configuration [x]. *)
Definition site_rotation (top : RBTopology.t F) (x : list F) (i : nat)
  : VecN3 F :=
  vec_of_array (rotation_slot (RBTopology.nrigid top) x i).

(** The rotation of site [i] of [x2] aligned against the rotation of site
    [i] of [x1]. *)
Definition aligned_rotation (fuel : nat) (top : RBTopology.t F)
    (x1 x2 : list F) (i : nat) : option (VecN3 F) :=
  RBTopology.align_angle_axis_vectors fuel
    (site_rotation top x1 i) (site_rotation top x2 i).

(** The aligned rotations of the sites [0], ..., [m-1] one after the
    other, if all these alignments return. *)
Definition aligned_block (al : nat -> option (VecN3 F)) (m : nat)
  : option (list F) :=
  for_loop m (fun i acc =>
    match acc with
    | None => None
    | Some l =>
        match al i with
        | None => None
        | Some v => Some (l ++ vec_to_array v)
        end
    end) (Some []).

End AlignAllVocabulary.

(** Two rigid bodies in binary64; only their number matters to the
    alignment. *)
Definition two_bodies : RBTopology.t float :=
  RBTopology.mk [RigidFragment.mk [] 0; RigidFragment.mk [] 0] 0 0.

(** A configuration and its neighbour on a path: the rotation of the
    first body is the tie of [tie_p1] and [tie_p2], the rotation of the
    second is a full turn next to a rotation about another axis. *)
Definition path_x1 : list float :=
  [1; 2; 3; 4; 5; 6; -0x1.243f6a8885a3p+0; 0; 0; 0; 5; 0]%float.
Definition path_x2 : list float :=
  [7; 8; 9; 10; 11; 12; 2; 0; 0; 0x1.921fb54442d18p+2; 0; 0]%float.
Definition path_x2_aligned : list float :=
  [7; 8; 9; 10; 11; 12; -0x1.121fb54442d18p+2; 0; 0; 0; 0; 0]%float.

Section PathVocabulary.
Local Open Scope R_scope.

(** A path after [align_path], seen from the configuration [x1] that
    precedes it: every configuration keeps its centers and its non-rigid
    coordinates, and none of its rotations is farther from the same site's
    rotation in the aligned predecessor than it was. *)
Inductive aligned_chain (top : RBTopology.t R)
  : list R -> list (list R) -> list (list R) -> Prop :=
| aligned_chain_nil (x1 : list R) : aligned_chain top x1 [] []
| aligned_chain_cons (x1 x2 x2' : list R) (rest rest' : list (list R)) :
    length x2' = length x2 ->
    firstn (3 * RBTopology.nrigid top) x2'
    = firstn (3 * RBTopology.nrigid top) x2 ->
    skipn (6 * RBTopology.nrigid top) x2'
    = skipn (6 * RBTopology.nrigid top) x2 ->
    (forall i, (i < RBTopology.nrigid top)%nat ->
       distance (site_rotation top x1 i) (site_rotation top x2' i)
       <= distance (site_rotation top x1 i) (site_rotation top x2 i)) ->
    aligned_chain top x2' rest rest' ->
    aligned_chain top x1 (x2 :: rest) (x2' :: rest').

End PathVocabulary.

(** One rigid body over [R], and a path of two configurations of it. *)
Definition one_body : RBTopology.t R :=
  RBTopology.mk [RigidFragment.mk [] 0] 0 0.
Definition turn_x1 : list R := [1; 2; 3; 0; 5; 0]%R.
Definition turn_x2 : list R := [4; 5; 6; 2 * PI; 0; 0]%R.

(** Two full turns about the second axis. *)
Definition turn_twice : VecN3 R := mkVecN3 0%R (4 * PI)%R 0%R.

(** Half a turn about the first axis, one way and the other. *)
Definition half_turn : VecN3 R := mkVecN3 PI 0%R 0%R.
Definition half_turn_back : VecN3 R := mkVecN3 (- PI)%R 0%R 0%R.

(** * Properties *)

(** ** Loops, arrays and sums *)

Lemma for_loop_S {S : Type} n (body : nat -> S -> S) s :
  for_loop (Datatypes.S n) body s = body n (for_loop n body s).
Proof.
  unfold for_loop. rewrite seq_S, fold_left_app. reflexivity.
Qed.

Lemma for_loop_ext {S : Type} n (body body' : nat -> S -> S) s :
  (forall i x, i < n -> body i x = body' i x) ->
  for_loop n body s = for_loop n body' s.
Proof.
  induction n as [|n IH]; intros E; [reflexivity|].
  rewrite !for_loop_S, IH by auto. apply E. lia.
Qed.

Lemma flat_map_length3 {A B : Type} (g : A -> list B) (l : list A) :
  (forall a, length (g a) = 3) -> length (flat_map g l) = length l * 3.
Proof.
  intros Hg. induction l as [|a l IH]; simpl; [reflexivity|].
  rewrite length_app, Hg, IH. reflexivity.
Qed.

Lemma flat_map_seq_S {B : Type} (g : nat -> list B) n :
  flat_map g (seq 0 (S n)) = flat_map g (seq 0 n) ++ g n.
Proof. rewrite seq_S, flat_map_app. simpl. now rewrite app_nil_r. Qed.

Lemma flat_map_seq_ext {B : Type} (g g' : nat -> list B) n :
  (forall i, i < n -> g i = g' i) ->
  flat_map g (seq 0 n) = flat_map g' (seq 0 n).
Proof.
  induction n as [|n IH]; intros E; [reflexivity|].
  rewrite !flat_map_seq_S, IH, E by auto. reflexivity.
Qed.

Section ArrayFacts.
Context {F : Type} `{Scalar F}.

Lemma store_length (a : list F) i v : length (store a i v) = length a.
Proof.
  revert i; induction a as [|h t IH]; intros [|i]; simpl; auto.
Qed.

Lemma store_app_r (pre rest : list F) i v :
  store (pre ++ rest) (length pre + i) v = pre ++ store rest i v.
Proof.
  induction pre as [|h t IH]; simpl; [reflexivity | now rewrite IH].
Qed.

Lemma view_length (a : list F) b e :
  e <= length a -> length (view a b e) = e - b.
Proof.
  intros He. unfold view. rewrite length_firstn, length_skipn. lia.
Qed.

Lemma view_app_r (pre rest : list F) b e :
  view (pre ++ rest) (length pre + b) (length pre + e) = view rest b e.
Proof.
  unfold view. rewrite skipn_app.
  rewrite skipn_all2 by lia. simpl.
  replace (length pre + b - length pre) with b by lia.
  replace (length pre + e - (length pre + b)) with (e - b) by lia.
  reflexivity.
Qed.

Lemma view_prefix (a rest : list F) : view (a ++ rest) 0 (length a) = a.
Proof.
  unfold view. rewrite Nat.sub_0_r. simpl.
  rewrite firstn_app, Nat.sub_diag, firstn_all. simpl. apply app_nil_r.
Qed.

Lemma view_mid (pre a rest : list F) :
  view (pre ++ a ++ rest) (length pre) (length pre + length a) = a.
Proof.
  rewrite <- (Nat.add_0_r (length pre)) at 1.
  rewrite view_app_r. apply view_prefix.
Qed.

Lemma assign_view_length (a : list F) b src :
  length (assign_view a b src) = length a.
Proof.
  unfold assign_view. rewrite length_firstn.
  rewrite !length_app, length_firstn, length_skipn. lia.
Qed.

Lemma assign_view_app (pre old rest src : list F) :
  length old = length src ->
  assign_view (pre ++ old ++ rest) (length pre) src = pre ++ src ++ rest.
Proof.
  intros Hlen. unfold assign_view.
  assert (E1 : firstn (length pre) (pre ++ old ++ rest) = pre).
  { rewrite firstn_app, Nat.sub_diag, firstn_all. simpl. apply app_nil_r. }
  assert (E2 : skipn (length pre + length src) (pre ++ old ++ rest) = rest).
  { rewrite <- Hlen, app_assoc, <- length_app.
    rewrite skipn_app, skipn_all, Nat.sub_diag. reflexivity. }
  rewrite E1, E2. apply firstn_all2.
  rewrite !length_app. lia.
Qed.

Lemma view_app_l (a rest : list F) b e :
  e <= length a -> view (a ++ rest) b e = view a b e.
Proof.
  intros He. unfold view. rewrite skipn_app, firstn_app.
  replace (e - b - length (skipn b a)) with 0
    by (rewrite length_skipn; lia).
  simpl. apply app_nil_r.
Qed.

Lemma view_at (pre a rest : list F) b e :
  length pre = b -> b + length a = e -> view (pre ++ a ++ rest) b e = a.
Proof. intros <- <-. apply view_mid. Qed.

Lemma assign_view_at (pre old rest src : list F) b :
  length pre = b -> length old = length src ->
  assign_view (pre ++ old ++ rest) b src = pre ++ src ++ rest.
Proof. intros <-. apply assign_view_app. Qed.

(** Three stores into one block of an array. *)
Lemma store3 (pre rest : list F) n a b c x y z :
  length pre = n * 3 ->
  store (store (store (pre ++ [a; b; c] ++ rest) (n * 3 + 0) x)
           (n * 3 + 1) y) (n * 3 + 2) z
  = pre ++ [x; y; z] ++ rest.
Proof.
  intros <-. now rewrite !store_app_r.
Qed.

Lemma get_view (a : list F) b e k :
  k < e - b -> get (view a b e) k = get a (b + k).
Proof.
  intros Hk. unfold get, view.
  rewrite nth_firstn. destruct (Nat.ltb_spec k (e - b)); [|lia].
  apply nth_skipn.
Qed.

(** Rows of three written one after the other, as in [to_atomistic]. *)
Lemma fill_rows (val : nat -> nat -> F) m tail :
  for_loop m (fun i c =>
    for_loop 3 (fun j c => store c (i * 3 + j) (val i j)) c)
    (repeat fzero (m * 3) ++ tail)
  = flat_map (fun i => [val i 0; val i 1; val i 2]) (seq 0 m) ++ tail.
Proof.
  revert tail. induction m as [|m IH]; intros tail; [reflexivity|].
  rewrite for_loop_S.
  replace (repeat fzero (S m * 3) ++ tail)
    with (repeat fzero (m * 3) ++ [fzero; fzero; fzero] ++ tail).
  2:{ replace (S m * 3) with (m * 3 + 3) by lia.
      rewrite repeat_app, <- app_assoc. reflexivity. }
  rewrite IH, flat_map_seq_S, <- app_assoc.
  unfold for_loop at 1. simpl fold_left.
  apply store3.
  rewrite flat_map_length3, length_seq; reflexivity.
Qed.

Lemma sum_n_S n (f : nat -> F) : sum_n (S n) f = (sum_n n f + f n)%S.
Proof. unfold sum_n. now rewrite for_loop_S. Qed.

Lemma sum_n_ext n (f g : nat -> F) :
  (forall i, i < n -> f i = g i) -> sum_n n f = sum_n n g.
Proof.
  induction n as [|n IH]; intros E; [reflexivity|].
  rewrite !sum_n_S, IH, E by auto. reflexivity.
Qed.

(** An accumulation of three terms that starts from [a] instead of
    [0.]. *)
Lemma acc3_sum `{!ExactArith F} (a : F) (f : nat -> F) :
  for_loop 3 (fun k acc => (acc + f k)%S) a = (a + sum_n 3 f)%S.
Proof.
  unfold sum_n, for_loop. simpl.
  rewrite fadd_zero_l, !fadd_assoc. reflexivity.
Qed.

(** Nine terms accumulated in one variable over two nested loops. *)
Lemma acc33_sum `{!ExactArith F} (f : nat -> nat -> F) :
  for_loop 3 (fun i acc => for_loop 3 (fun j acc => (acc + f i j)%S) acc)
    fzero
  = sum_n 3 (fun i => sum_n 3 (fun j => f i j)).
Proof.
  unfold sum_n, for_loop. simpl.
  rewrite !fadd_zero_l, !fadd_assoc. reflexivity.
Qed.

End ArrayFacts.

(** ** [RigidFragment::to_atomistic] *)

Section FragmentFacts.
Context {F : Type} `{Scalar F} `{RotationAlgebra F}.

Lemma to_atomistic_loop (f : RigidFragment.t F) com rmat m tail :
  for_loop m (fun atom pos =>
    for_loop RigidFragment._ndim (fun j pos =>
      store pos (atom * RigidFragment._ndim + j)
        (atom_coordinate f com rmat atom j)) pos)
    (Array_new (m * 3) ++ tail)
  = flat_map (atom_block f com rmat) (seq 0 m) ++ tail.
Proof. exact (fill_rows (atom_coordinate f com rmat) m tail). Qed.

(** The array [to_atomistic] returns, block by block, each coordinate
    being the accumulation the code performs. *)
Lemma to_atomistic_blocks (f : RigidFragment.t F) com p :
  RigidFragment.ok f ->
  RigidFragment.to_atomistic f com p
  = flat_map (atom_block f com (aa_to_rot_mat p))
      (seq 0 (RigidFragment.natoms f)).
Proof.
  intros Hok. unfold RigidFragment.to_atomistic, RigidFragment.natoms.
  rewrite Hok. unfold RigidFragment._ndim at 1.
  rewrite <- (app_nil_r (Array_new _)).
  rewrite <- (app_nil_r (flat_map _ _)).
  apply to_atomistic_loop.
Qed.

Lemma to_atomistic_length (f : RigidFragment.t F) com p :
  RigidFragment.ok f ->
  length (RigidFragment.to_atomistic f com p)
  = length (RigidFragment._atom_positions f).
Proof.
  intros Hok. rewrite to_atomistic_blocks, flat_map_length3, length_seq; auto.
Qed.

Lemma view_block (g : nat -> list F) n i :
  (forall a, length (g a) = 3) -> i < n ->
  view (flat_map g (seq 0 n)) (i * 3) (i * 3 + 3) = g i.
Proof.
  intros Hg Hi.
  replace n with (i + S (n - S i)) by lia.
  rewrite seq_app, flat_map_app. simpl seq at 2. simpl flat_map at 2.
  pose proof (flat_map_length3 g (seq 0 i) Hg) as L.
  rewrite length_seq in L.
  replace (i * 3 + 3) with (length (flat_map g (seq 0 i)) + length (g i))
    by (rewrite L, Hg; reflexivity).
  rewrite <- L. apply view_mid.
Qed.

Lemma atom_block_exact `{!ExactArith F} (f : RigidFragment.t F)
    (center : VecN3 F) rmat atom :
  atom_block f (vec_to_array center) rmat atom
  = vec_to_array
      (rotated_atom center rmat (RigidFragment.atom_position f atom)).
Proof.
  unfold atom_block, atom_coordinate, rotated_atom, vec_add, mat_vec.
  rewrite !acc3_sum. unfold vec_to_array. simpl v0. simpl v1. simpl v2.
  destruct center as [c0 c1 c2]. unfold get. simpl nth.
  repeat f_equal.
Qed.

(** C1.  For a fragment as its constructor builds it, a 3-vector [center]
    and a 3-vector [rotation], [to_atomistic(center, rotation)] is an
    array of the size of the fragment's position array whose atom block
    [i] is [center + R q_i], where [R = aa_to_rot_mat(rotation)] and
    [(R q)_j = sum_k R(j,k) q_k].  The function is a pure function of the
    fragment and its two arguments: it returns a new array and has no other
    effect.  The equality is exact in exact arithmetic. *)
Theorem fragment_to_atomistic_spec `{!ExactArith F} (f : RigidFragment.t F)
    (center rotation : VecN3 F) :
  RigidFragment.ok f ->
  let world := RigidFragment.to_atomistic f (vec_to_array center) rotation in
  length world = 3 * RigidFragment.natoms f /\
  world = flat_map (fun i =>
            vec_to_array (rotated_atom center (aa_to_rot_mat rotation)
                            (RigidFragment.atom_position f i)))
            (seq 0 (RigidFragment.natoms f)) /\
  forall i, i < RigidFragment.natoms f ->
    view world (i * 3) (i * 3 + 3)
    = vec_to_array (rotated_atom center (aa_to_rot_mat rotation)
                      (RigidFragment.atom_position f i)).
Proof.
  intros Hok world.
  assert (E : world = flat_map (fun i =>
            vec_to_array (rotated_atom center (aa_to_rot_mat rotation)
                            (RigidFragment.atom_position f i)))
            (seq 0 (RigidFragment.natoms f))).
  { unfold world. rewrite to_atomistic_blocks by assumption.
    apply flat_map_ext. intros a. apply atom_block_exact. }
  split; [|split].
  - rewrite E, flat_map_length3, length_seq by reflexivity. lia.
  - exact E.
  - intros i Hi. rewrite E. now apply view_block.
Qed.

End FragmentFacts.

(** [fragment_to_atomistic_spec] on a fragment of two atoms over [Z]. *)
Lemma fragment_to_atomistic_spec_witness :
  let f := RigidFragment.make [mkVecN3 1 0 0; mkVecN3 0 2 0]%Z in
  let world :=
    RigidFragment.to_atomistic f [10; 20; 30]%Z (mkVecN3 0 0 1)%Z in
  RigidFragment.ok f /\
  length world = 6 /\
  world = [11; 21; 30; 8; 22; 30]%Z /\
  view world 3 6 = [8; 22; 30]%Z.
Proof.
  intros f world.
  assert (Hok : RigidFragment.ok f) by reflexivity.
  destruct (fragment_to_atomistic_spec f (mkVecN3 10 20 30)%Z
              (mkVecN3 0 0 1)%Z Hok) as (Hlen & Hall & Hblock).
  split; [exact Hok|]. split; [exact Hlen|]. split; [exact Hall|].
  exact (Hblock 1 (le_n 2)).
Defined.

(** ** [RigidFragment::transform_grad] *)

Section GradFacts.
Context {F : Type} `{Scalar F} `{RotationAlgebra F}.

Lemma g_rot_loop (f : RigidFragment.t F) g d1 d2 d3 n :
  for_loop n (fun atom g_rot =>
    let '(val1, val2, val3) :=
      for_loop 3 (fun i vals =>
        for_loop 3 (fun j '(val1, val2, val3) =>
          ((val1 + hm_get g 3 atom i * mat_get d1 i j
                     * RigidFragment._atom_positions_matrix f atom j)%S,
           (val2 + hm_get g 3 atom i * mat_get d2 i j
                     * RigidFragment._atom_positions_matrix f atom j)%S,
           (val3 + hm_get g 3 atom i * mat_get d3 i j
                     * RigidFragment._atom_positions_matrix f atom j)%S)) vals)
        (fzero, fzero, fzero) in
    let g_rot := vec_set g_rot 0 (vec_get g_rot 0 + val1)%S in
    let g_rot := vec_set g_rot 1 (vec_get g_rot 1 + val2)%S in
    let g_rot := vec_set g_rot 2 (vec_get g_rot 2 + val3)%S in
    g_rot) (vec_assign fzero)
  = mkVecN3 (sum_n n (atom_torque f g d1)) (sum_n n (atom_torque f g d2))
            (sum_n n (atom_torque f g d3)).
Proof.
  induction n as [|n IH]; [reflexivity|].
  rewrite for_loop_S, IH, !sum_n_S. reflexivity.
Qed.

(** The two gradients as the code accumulates them; no law of arithmetic
    is used, and neither result depends on what [g_com] and [g_rot] held
    before the call. *)
Lemma transform_grad_loops (f : RigidFragment.t F) p g g_com0 g_rot0 :
  RigidFragment.transform_grad f p g g_com0 g_rot0
  = (mkVecN3 (sum_n (RigidFragment.natoms f) (fun atom => hm_get g 3 atom 0))
             (sum_n (RigidFragment.natoms f) (fun atom => hm_get g 3 atom 1))
             (sum_n (RigidFragment.natoms f) (fun atom => hm_get g 3 atom 2)),
     mkVecN3
       (sum_n (RigidFragment.natoms f)
          (atom_torque f g (rot_mat_derivative p 0)))
       (sum_n (RigidFragment.natoms f)
          (atom_torque f g (rot_mat_derivative p 1)))
       (sum_n (RigidFragment.natoms f)
          (atom_torque f g (rot_mat_derivative p 2)))).
Proof.
  unfold RigidFragment.transform_grad, rot_mat_derivative,
    RigidFragment.natoms.
  destruct (rot_mat_derivatives p) as [[[rmat d1] d2] d3].
  rewrite g_rot_loop. reflexivity.
Qed.

(** C2.  [transform_grad] sets [g_com[k]] to the sum over the atoms of
    [g(atom,k)] and [g_rot[m]] to the sum over the atoms, [i] and [j] of
    [g(atom,i) * drm_m(i,j) * atom_position(atom,j)], with the three
    derivative matrices of the rotation algebra.  [g_rot] is reset before
    the accumulation: the results do not depend on the values [g_com0] and
    [g_rot0] the two output vectors held before the call. *)
Theorem fragment_transform_grad_spec `{!ExactArith F}
    (f : RigidFragment.t F) (p : VecN3 F) (g : list F)
    (g_com0 g_rot0 : VecN3 F) :
  length g = RigidFragment.natoms f * 3 ->
  let out := RigidFragment.transform_grad f p g g_com0 g_rot0 in
  (forall k, k < 3 ->
     vec_get (fst out) k
     = sum_n (RigidFragment.natoms f) (fun atom => hm_get g 3 atom k)) /\
  (forall m, m < 3 ->
     vec_get (snd out) m
     = sum_n (RigidFragment.natoms f) (fun atom =>
         sum_n 3 (fun i =>
           sum_n 3 (fun j =>
             (hm_get g 3 atom i * mat_get (rot_mat_derivative p m) i j
              * RigidFragment._atom_positions_matrix f atom j)%S)))).
Proof.
  intros _ out. unfold out. rewrite transform_grad_loops. split.
  - intros k Hk.
    destruct k as [|[|[|k]]]; try lia; reflexivity.
  - intros m Hm.
    assert (E : forall d atom,
      atom_torque f g d atom
      = sum_n 3 (fun i => sum_n 3 (fun j =>
          (hm_get g 3 atom i * mat_get d i j
           * RigidFragment._atom_positions_matrix f atom j)%S))).
    { intros d atom. unfold atom_torque. apply acc33_sum. }
    destruct m as [|[|[|m]]]; try lia; simpl;
      apply sum_n_ext; intros; apply E.
Qed.

End GradFacts.

(** [fragment_transform_grad_spec] on a fragment of two atoms over [Z],
    with output vectors that hold other values before the call. *)
Lemma fragment_transform_grad_spec_witness :
  let f := RigidFragment.make [mkVecN3 1 0 0; mkVecN3 0 2 0]%Z in
  let g := [1; 2; 3; 4; 5; 6]%Z in
  let out :=
    RigidFragment.transform_grad f (mkVecN3 0 0 1)%Z g
      (mkVecN3 7 7 7)%Z (mkVecN3 9 9 9)%Z in
  length g = RigidFragment.natoms f * 3 /\
  vec_get (fst out) 1 = 7%Z /\
  vec_get (snd out) 2 = (-6)%Z.
Proof.
  intros f g out.
  assert (Hlen : length g = RigidFragment.natoms f * 3) by reflexivity.
  destruct (fragment_transform_grad_spec f (mkVecN3 0 0 1)%Z g
              (mkVecN3 7 7 7)%Z (mkVecN3 9 9 9)%Z Hlen) as (Hcom & Hrot).
  split; [exact Hlen|]. split.
  - exact (Hcom 1 (le_S 2 2 (le_n 2))).
  - exact (Hrot 2 (le_n 3)).
Defined.

(** ** [RBTopology::to_atomistic] *)

Section TopologyFacts.
Context {F : Type} `{Scalar F} `{RotationAlgebra F}.

Lemma view_view (a : list F) b e b' e' :
  e' <= e - b ->
  view (view a b e) b' e' = view a (b + b') (b + e').
Proof.
  intros He. unfold view.
  rewrite skipn_firstn_comm, firstn_firstn, skipn_skipn.
  replace (b' + b) with (b + b') by lia.
  f_equal. lia.
Qed.

(** The copy loop of lines 96-106 for arbitrary blocks. *)
Lemma concat_loop (blk : nat -> list F) (tail : list F) n m :
  m <= n ->
  for_loop m (fun isite '(atomistic, istart) =>
    (assign_view atomistic istart (blk isite), istart + length (blk isite)))
    (Array_new (length (flat_map blk (seq 0 n))) ++ tail, 0)
  = (flat_map blk (seq 0 m)
       ++ Array_new (length (flat_map blk (seq m (n - m)))) ++ tail,
     length (flat_map blk (seq 0 m))).
Proof.
  induction m as [|m IH]; intros Hm.
  - simpl. now rewrite Nat.sub_0_r.
  - rewrite for_loop_S, IH by lia.
    replace (n - m) with (S (n - S m)) by lia.
    change (seq m (S (n - S m))) with (m :: seq (S m) (n - S m)).
    change (flat_map blk (m :: seq (S m) (n - S m)))
      with (blk m ++ flat_map blk (seq (S m) (n - S m))).
    rewrite length_app.
    unfold Array_new at 1. rewrite repeat_app, <- app_assoc.
    rewrite assign_view_app by apply repeat_length.
    rewrite flat_map_seq_S, length_app, <- app_assoc. reflexivity.
Qed.

Lemma natoms_of_sites_app (l l' : list (RigidFragment.t F)) :
  RBTopology.natoms_of_sites (l ++ l')
  = RBTopology.natoms_of_sites l + RBTopology.natoms_of_sites l'.
Proof.
  unfold RBTopology.natoms_of_sites. rewrite fold_left_app.
  generalize (fold_left (fun n rf => n + RigidFragment.natoms rf) l 0).
  induction l' as [|a l' IH]; intros n; simpl; [lia|].
  rewrite IH, (IH (RigidFragment.natoms a)). lia.
Qed.

(** The blocks of well-formed sites fill [3 * natoms] entries. *)
Lemma blocks_length (sites : list (RigidFragment.t F)) (d : RigidFragment.t F)
    (blk : nat -> list F) :
  (forall i, i < length sites ->
     length (blk i) = 3 * RigidFragment.natoms (nth i sites d)) ->
  length (flat_map blk (seq 0 (length sites)))
  = 3 * RBTopology.natoms_of_sites sites.
Proof.
  induction sites as [|a sites IH] using rev_ind; intros Hb; [reflexivity|].
  rewrite length_app, Nat.add_1_r, flat_map_seq_S, length_app.
  rewrite natoms_of_sites_app, IH.
  - rewrite (Hb (length sites)) by (rewrite length_app; simpl; lia).
    rewrite app_nth2, Nat.sub_diag by lia. simpl.
    unfold RBTopology.natoms_of_sites. simpl. lia.
  - intros i Hi. rewrite Hb by (rewrite length_app; simpl; lia).
    now rewrite app_nth1.
Qed.

Lemma site_ok (top : RBTopology.t F) i :
  Forall RigidFragment.ok (RBTopology._sites top) ->
  RigidFragment.ok (RBTopology.site top i).
Proof.
  intros Hall. unfold RBTopology.site.
  destruct (Nat.lt_ge_cases i (length (RBTopology._sites top))) as [Hi|Hi].
  - rewrite Forall_forall in Hall. apply Hall, nth_In, Hi.
  - rewrite nth_overflow by assumption. reflexivity.
Qed.

Lemma ensure_finalized_id (top : RBTopology.t F) :
  RBTopology.finalized top -> RBTopology.ensure_finalized top = top.
Proof.
  intros Hf. unfold RBTopology.ensure_finalized.
  destruct (RBTopology.natoms_total top =? 0); [|reflexivity].
  unfold RBTopology.finalize. rewrite <- Hf. now destruct top.
Qed.

(** The call on a vector of the right size: the loop writes the site
    blocks one after the other and leaves [istart] at their total length,
    which is [3 * natoms_total] exactly when the topology has no non-rigid
    atoms; otherwise the assert of line 107 fails. *)
Lemma topology_to_atomistic_ok (top : RBTopology.t F) rbcoords :
  RBTopology.finalized top ->
  Forall RigidFragment.ok (RBTopology._sites top) ->
  length rbcoords = 6 * RBTopology.nrigid top ->
  RBTopology.to_atomistic top rbcoords
  = (top,
     if RBTopology.number_of_non_rigid_atoms top =? 0
     then Ok (flat_map (site_to_atomistic top rbcoords)
                (seq 0 (RBTopology.nrigid top)))
     else Abort "istart == natoms_total() * 3").
Proof.
  intros Hfin Hok Hlen.
  unfold RBTopology.to_atomistic. rewrite ensure_finalized_id by assumption.
  replace (length rbcoords =? RBTopology.nrigid top * 6) with true
    by (symmetry; apply Nat.eqb_eq; lia).
  simpl negb. cbv iota.
  fold (RBTopology.nrigid top).
  set (n := RBTopology.nrigid top) in *.
  set (blk := fun isite =>
    RigidFragment.to_atomistic (RBTopology.site top isite)
      (view (view rbcoords CoordsAdaptor.rb_positions_begin (3 * n))
         (isite * 3) (isite * 3 + 3))
      (vec_of_array
         (view (view rbcoords (CoordsAdaptor.rb_rotations_begin n) (6 * n))
            (isite * 3) (isite * 3 + 3)))).
  assert (Eblk : forall i, i < n -> blk i = site_to_atomistic top rbcoords i).
  { intros i Hi. unfold blk, site_to_atomistic, center_slot, rotation_slot,
      CoordsAdaptor.rb_positions_begin, CoordsAdaptor.rb_rotations_begin.
    fold n. rewrite !view_view by lia.
    rewrite !Nat.add_0_l, Nat.add_assoc. reflexivity. }
  assert (Etot : 3 * RBTopology.natoms_total top
                 = length (flat_map blk (seq 0 n))
                   + 3 * RBTopology.number_of_non_rigid_atoms top).
  { unfold n, RBTopology.nrigid.
    rewrite (blocks_length (RBTopology._sites top) (RigidFragment.mk [] 0)).
    - unfold RBTopology.natoms_total, RBTopology.number_of_non_rigid_atoms.
      rewrite Hfin. lia.
    - intros i Hi. unfold blk.
      rewrite to_atomistic_length by (apply site_ok; assumption).
      pose proof (site_ok top i Hok) as Hs. red in Hs.
      unfold RBTopology.site in *. rewrite Hs.
      unfold RigidFragment._ndim, RigidFragment.natoms. lia. }
  assert (Eflat : flat_map (site_to_atomistic top rbcoords) (seq 0 n)
                  = flat_map blk (seq 0 n)).
  { apply flat_map_seq_ext. intros i Hi. symmetry. now apply Eblk. }
  rewrite Eflat.
  change (for_loop n _ _) with
    (for_loop n (fun isite '(atomistic, istart) =>
       (assign_view atomistic istart (blk isite), istart + length (blk isite)))
       (Array_new (3 * RBTopology.natoms_total top), 0)).
  rewrite Etot at 1. unfold Array_new at 1. rewrite repeat_app.
  fold (Array_new (length (flat_map blk (seq 0 n)))).
  fold (Array_new (3 * RBTopology.number_of_non_rigid_atoms top)).
  rewrite concat_loop by lia.
  rewrite Nat.sub_diag. simpl seq. simpl flat_map. simpl length.
  change (Array_new 0 ++ ?t) with t.
  destruct (Nat.eqb_spec (RBTopology.number_of_non_rigid_atoms top) 0)
    as [Hnr|Hnr].
  - replace (length (flat_map blk (seq 0 n))
             =? RBTopology.natoms_total top * 3) with true
      by (symmetry; apply Nat.eqb_eq; lia).
    rewrite Hnr. simpl negb. cbv iota.
    change (Array_new (3 * 0)) with (@nil F). rewrite app_nil_r.
    reflexivity.
  - replace (length (flat_map blk (seq 0 n))
             =? RBTopology.natoms_total top * 3) with false
      by (symmetry; apply Nat.eqb_neq; lia).
    reflexivity.
Qed.

Lemma topology_to_atomistic_throw (top : RBTopology.t F) rbcoords :
  length rbcoords <> 6 * RBTopology.nrigid (RBTopology.ensure_finalized top) ->
  RBTopology.to_atomistic top rbcoords
  = (RBTopology.ensure_finalized top,
     Throw (invalid_argument "rbcoords has the wrong size")).
Proof.
  intros Hlen. unfold RBTopology.to_atomistic.
  destruct (Nat.eqb_spec (length rbcoords)
              (RBTopology.nrigid (RBTopology.ensure_finalized top) * 6))
    as [E|E]; [lia|reflexivity].
Qed.

(** C3, amended.  For a finalized topology of well-formed sites that has
    no non-rigid atoms, [to_atomistic] meets its contract: the
    concatenation of the sites' results on their own center and rotation
    slots, of length [3 * natoms_total], or [invalid_argument] when the
    length of [rbcoords] is not [6 * nrigid]. *)
Theorem topology_to_atomistic_spec (top : RBTopology.t F) (rbcoords : list F) :
  RBTopology.finalized top ->
  Forall RigidFragment.ok (RBTopology._sites top) ->
  RBTopology.number_of_non_rigid_atoms top = 0 ->
  to_atomistic_contract top rbcoords.
Proof.
  intros Hfin Hok Hnr. split.
  - intros Hlen. rewrite topology_to_atomistic_ok by assumption.
    rewrite (proj2 (Nat.eqb_eq _ 0) Hnr).
    assert (L : length (flat_map (site_to_atomistic top rbcoords)
                          (seq 0 (RBTopology.nrigid top)))
                = 3 * RBTopology.natoms_total top).
    { unfold RBTopology.nrigid.
      rewrite (blocks_length (RBTopology._sites top) (RigidFragment.mk [] 0)).
      - unfold RBTopology.natoms_total. rewrite Hfin.
        unfold RBTopology.number_of_non_rigid_atoms in Hnr. rewrite Hnr. lia.
      - intros i Hi. unfold site_to_atomistic.
        rewrite to_atomistic_length by (apply site_ok; assumption).
        pose proof (site_ok top i Hok) as Hs. red in Hs.
        unfold RBTopology.site in *. rewrite Hs.
        unfold RigidFragment._ndim, RigidFragment.natoms. lia. }
    eexists. split; [reflexivity|]. split; [exact L|reflexivity].
  - intros Hlen. rewrite topology_to_atomistic_throw.
    + reflexivity.
    + now rewrite ensure_finalized_id.
Qed.

End TopologyFacts.

(** [topology_to_atomistic_spec] on [two_sites]: the blocks of the two
    sites one after the other. *)
Lemma topology_to_atomistic_spec_witness :
  let rbcoords := [10; 20; 30; 40; 50; 60; 0; 0; 1; 1; 0; 0]%Z in
  RBTopology.finalized two_sites /\
  Forall RigidFragment.ok (RBTopology._sites two_sites) /\
  RBTopology.number_of_non_rigid_atoms two_sites = 0 /\
  to_atomistic_contract two_sites rbcoords /\
  snd (RBTopology.to_atomistic two_sites rbcoords)
  = Ok [11; 21; 30; 8; 22; 30; 40; 47; 63]%Z.
Proof.
  intros rbcoords.
  assert (Hfin : RBTopology.finalized two_sites) by reflexivity.
  assert (Hok : Forall RigidFragment.ok (RBTopology._sites two_sites))
    by (repeat constructor).
  assert (Hnr : RBTopology.number_of_non_rigid_atoms two_sites = 0)
    by reflexivity.
  pose proof (topology_to_atomistic_spec two_sites rbcoords Hfin Hok Hnr)
    as Hc.
  repeat split; try assumption; try apply Hc.
Defined.

(** C3 as stated fails when the topology has non-rigid atoms: the array
    has [3 * natoms_total = 6] entries and the only site fills three of
    them, so [istart] ends at 3 and the assert of line 107 stops the call:
    nothing is returned.  Whatever the call did past the assert, an array
    of 6 entries is not the concatenation of the site blocks, which has
    3. *)
Lemma topology_to_atomistic_non_rigid :
  let rbcoords := [10; 20; 30; 0; 0; 1]%Z in
  RBTopology.finalized one_site_one_free_atom /\
  Forall RigidFragment.ok (RBTopology._sites one_site_one_free_atom) /\
  length rbcoords = 6 * RBTopology.nrigid one_site_one_free_atom /\
  snd (RBTopology.to_atomistic one_site_one_free_atom rbcoords)
  = Abort "istart == natoms_total() * 3" /\
  3 * RBTopology.natoms_total one_site_one_free_atom = 6 /\
  flat_map (site_to_atomistic one_site_one_free_atom rbcoords)
    (seq 0 (RBTopology.nrigid one_site_one_free_atom)) = [11; 21; 30]%Z /\
  ~ to_atomistic_contract one_site_one_free_atom rbcoords.
Proof.
  intros rbcoords.
  split; [reflexivity|]. split; [repeat constructor|].
  split; [reflexivity|]. split; [reflexivity|]. split; [reflexivity|].
  split; [reflexivity|].
  intros [Hc _]. destruct (Hc eq_refl) as (a & Ea & La & Ca).
  rewrite Ca in La. vm_compute in La. discriminate La.
Qed.

(** ** [RBTopology::transform_gradient] *)

Section GradientFacts.
Context {F : Type} `{Scalar F} `{RotationAlgebra F}.

Lemma nrigid_ensure_finalized (top : RBTopology.t F) :
  RBTopology.nrigid (RBTopology.ensure_finalized top) = RBTopology.nrigid top.
Proof.
  unfold RBTopology.ensure_finalized.
  destruct (RBTopology.natoms_total top =? 0); reflexivity.
Qed.

(** C4.  [transform_gradient] throws exactly when one of its three size
    conditions is violated, the total atom count being the one in force
    after the lazy [finalize]; what it throws is [invalid_argument]; and
    when it throws, the output buffer [rbgrad] holds what it held before
    the call: the three tests come before the loop over the sites and
    before any write. *)
Theorem transform_gradient_size_errors (top : RBTopology.t F)
    (rbcoords grad rbgrad : list F) :
  let out := RBTopology.transform_gradient top rbcoords grad rbgrad in
  let outcome := snd (fst out) in
  let top' := RBTopology.ensure_finalized top in
  (is_invalid_argument outcome = true <->
     length rbcoords <> 6 * RBTopology.nrigid top \/
     length grad <> 3 * RBTopology.natoms_total top' \/
     length rbgrad <> length rbcoords) /\
  (outcome = Ok tt \/ is_invalid_argument outcome = true) /\
  (outcome <> Ok tt -> snd out = rbgrad) /\
  fst (fst out) = top'.
Proof.
  intros out outcome top'. unfold outcome, out, RBTopology.transform_gradient.
  fold top'. rewrite <- (nrigid_ensure_finalized top). fold top'.
  destruct (Nat.eqb_spec (length rbcoords) (RBTopology.nrigid top' * 6))
    as [E1|E1]; simpl negb; cbv iota.
  2:{ simpl. repeat split; auto. intros _. left. lia. }
  destruct (Nat.eqb_spec (length grad) (RBTopology.natoms_total top' * 3))
    as [E2|E2]; simpl negb; cbv iota.
  2:{ simpl. repeat split; auto. intros _. right. left. lia. }
  destruct (Nat.eqb_spec (length rbgrad) (length rbcoords))
    as [E3|E3]; simpl negb; cbv iota.
  2:{ simpl. repeat split; auto. }
  destruct (for_loop _ _ _) as [rbgrad' istart]. simpl.
  repeat split; auto.
  - discriminate.
  - intros [E|[E|E]]; exfalso; lia.
  - intros E. now elim E.
Qed.

End GradientFacts.

(** The call on [two_sites]: with arrays of the right sizes the gradient of
    each site lands in its two slots of [rbgrad]; with a gradient that is
    one number short the call throws and [rbgrad] keeps its sevens. *)
Example transform_gradient_two_sites :
  RBTopology.transform_gradient two_sites
    [10; 20; 30; 40; 50; 60; 0; 0; 1; 1; 0; 0]%Z
    [1; 2; 3; 4; 5; 6; 7; 8; 9]%Z (repeat 7%Z 12)
  = (two_sites, Ok tt, [5; 7; 9; 7; 8; 9; 12; -3; -6; -24; 21; 0]%Z).
Proof. vm_compute. reflexivity. Qed.

Example transform_gradient_short_grad :
  RBTopology.transform_gradient two_sites
    [10; 20; 30; 40; 50; 60; 0; 0; 1; 1; 0; 0]%Z
    [1; 2; 3; 4; 5; 6; 7; 8]%Z (repeat 7%Z 12)
  = (two_sites, Throw (invalid_argument "grad has the wrong size"),
     repeat 7%Z 12).
Proof. vm_compute. reflexivity. Qed.

(** ** [RBTopology::align_angle_axis_vectors]: control flow *)

Section AlignFacts.
Context {F : Type} `{Scalar F} `{RotationAlgebra F} `{!ScalarOrd F}.

Lemma add_loop_walk fuel p1 n2 p2 :
  RBTopology.add_loop fuel p1 n2 p2 = walk (fun p => vec_add p n2) fuel p1 p2.
Proof.
  revert p2. induction fuel as [|fuel IH]; intros p2; [reflexivity|].
  simpl. now rewrite IH.
Qed.

Lemma walk_S step fuel p1 p2 :
  walk step (S fuel) p1 p2
  = if fgtb (distance p1 (step p2)) (distance p1 p2) then Some p2
    else walk step fuel p1 (step p2).
Proof. reflexivity. Qed.

Lemma sub_loop_walk fuel p1 n2 p2 :
  RBTopology.sub_loop fuel p1 n2 p2 = walk (fun p => vec_sub p n2) fuel p1 p2.
Proof.
  revert p2. induction fuel as [|fuel IH]; intros p2; [reflexivity|].
  simpl. now rewrite IH.
Qed.

Lemma stops_after_shift step p1 p2 k :
  fgtb (distance p1 (step p2)) (distance p1 p2) = false ->
  stops_after step p1 (step p2) k <-> stops_after step p1 p2 (S k).
Proof.
  intros Hfirst. unfold stops_after.
  assert (E : forall i, Nat.iter i step (step p2) = Nat.iter (S i) step p2).
  { intros i. symmetry. apply Nat.iter_succ_r. }
  split; intros [Hle Hgt]; split.
  - intros [|i] Hi; [exact Hfirst|].
    rewrite <- !E. apply Hle. lia.
  - rewrite <- !E. exact Hgt.
  - intros i Hi. rewrite !E. apply Hle. lia.
  - rewrite !E. exact Hgt.
Qed.

Lemma walk_spec step fuel p1 p2 r :
  walk step fuel p1 p2 = Some r <->
  exists k, k < fuel /\ r = Nat.iter k step p2 /\ stops_after step p1 p2 k.
Proof.
  revert p2. induction fuel as [|fuel IH]; intros p2; simpl.
  - split; [discriminate|]. intros (k & Hk & _). lia.
  - destruct (fgtb (distance p1 (step p2)) (distance p1 p2)) eqn:Hg.
    + split.
      * intros [= <-]. exists 0. split; [lia|]. split; [reflexivity|].
        split; [intros i Hi; lia | exact Hg].
      * intros (k & Hk & -> & Hle & Hgt).
        destruct k as [|k]; [reflexivity|].
        specialize (Hle 0 (Nat.lt_0_succ k)). simpl in Hle. congruence.
    + rewrite IH. split.
      * intros (k & Hk & -> & Hs). exists (S k). split; [lia|].
        split; [apply eq_sym, Nat.iter_succ_r|].
        now apply stops_after_shift.
      * intros (k & Hk & -> & Hs).
        destruct k as [|k].
        { destruct Hs as [_ Hgt]. simpl in Hgt. congruence. }
        exists k. split; [lia|]. split; [apply Nat.iter_succ_r|].
        now apply stops_after_shift.
Qed.

(** More fuel does not change a result. *)
Lemma walk_fuel_mono step fuel fuel' p1 p2 r :
  fuel <= fuel' -> walk step fuel p1 p2 = Some r ->
  walk step fuel' p1 p2 = Some r.
Proof.
  intros Hle. rewrite !walk_spec. intros (k & Hk & Hr & Hs).
  exists k. split; [lia|]. now split.
Qed.

(** The three ways through lines 154-163, for every scalar type. *)
Lemma periodicity_step_cases (p1 p2 : VecN3 F) :
  (fltb (norm p2) near_identity = true ->
   fltb (norm p1) near_identity = true ->
   RBTopology.periodicity_step p1 p2 = None) /\
  (fltb (norm p2) near_identity = true ->
   fltb (norm p1) near_identity = false ->
   RBTopology.periodicity_step p1 p2
   = Some (vec_scale p1 (ftwo * M_PI / norm p1)%S)) /\
  (fltb (norm p2) near_identity = false ->
   RBTopology.periodicity_step p1 p2
   = Some (vec_scale p2 (ftwo * M_PI / norm p2)%S)).
Proof.
  unfold RBTopology.periodicity_step.
  repeat split; intros; repeat match goal with
                               | E : fltb _ _ = _ |- _ => rewrite E; clear E
                               end; reflexivity.
Qed.

(** Enough for the function to return a given vector. *)
Lemma align_reaches (fuel a b : nat) (p1 p2 n2 : VecN3 F) :
  RBTopology.periodicity_step p1 p2 = Some n2 ->
  a < fuel -> b < fuel ->
  stops_after (fun p => vec_add p n2) p1 p2 a ->
  stops_after (fun p => vec_sub p n2) p1 (steps_up a n2 p2) b ->
  RBTopology.align_angle_axis_vectors fuel p1 p2
  = Some (steps_down b n2 (steps_up a n2 p2)).
Proof.
  intros Hstep Ha Hb Hsa Hsb.
  unfold RBTopology.align_angle_axis_vectors. rewrite Hstep.
  rewrite add_loop_walk.
  assert (Hq : walk (fun p => vec_add p n2) fuel p1 p2
               = Some (steps_up a n2 p2)).
  { apply walk_spec. exists a.
    split; [assumption|]. split; [reflexivity|assumption]. }
  rewrite Hq, sub_loop_walk. apply walk_spec. exists b.
  split; [assumption|]. split; [reflexivity|assumption].
Qed.

(** More fuel does not change a result. *)
Lemma align_fuel_mono fuel fuel' (p1 p2 r : VecN3 F) :
  fuel <= fuel' ->
  RBTopology.align_angle_axis_vectors fuel p1 p2 = Some r ->
  RBTopology.align_angle_axis_vectors fuel' p1 p2 = Some r.
Proof.
  intros Hle. unfold RBTopology.align_angle_axis_vectors.
  destruct (RBTopology.periodicity_step p1 p2) as [n2|]; [|auto].
  rewrite !add_loop_walk.
  destruct (walk _ fuel p1 p2) as [q|] eqn:Hq; [|discriminate].
  rewrite (walk_fuel_mono _ fuel fuel' p1 p2 q Hle Hq).
  rewrite !sub_loop_walk. now apply walk_fuel_mono.
Qed.

(** C6, amended.  With the periodicity step [n2], the function returns [r]
    exactly when [r] is reached from [p2] by [a] additions of [n2] followed
    by [b] subtractions of [n2], where: none of the [a] additions made the
    distance to [p1] greater (a tie is taken) and one more addition would
    make it strictly greater; none of the [b] subtractions made it greater
    and one more subtraction would make it strictly greater. *)
Theorem align_walks_while_not_farther (fuel : nat) (p1 p2 n2 r : VecN3 F) :
  RBTopology.periodicity_step p1 p2 = Some n2 ->
  (RBTopology.align_angle_axis_vectors fuel p1 p2 = Some r <->
   exists a b,
     a < fuel /\ b < fuel /\
     r = steps_down b n2 (steps_up a n2 p2) /\
     stops_after (fun p => vec_add p n2) p1 p2 a /\
     stops_after (fun p => vec_sub p n2) p1 (steps_up a n2 p2) b).
Proof.
  intros Hstep. unfold RBTopology.align_angle_axis_vectors. rewrite Hstep.
  rewrite add_loop_walk. split.
  - destruct (walk _ fuel p1 p2) as [q|] eqn:Hq; [|discriminate].
    rewrite sub_loop_walk. intros Hr.
    apply walk_spec in Hq. destruct Hq as (a & Ha & -> & Hsa).
    apply walk_spec in Hr. destruct Hr as (b & Hb & -> & Hsb).
    exists a, b.
    split; [assumption|]. split; [assumption|]. split; [reflexivity|].
    split; assumption.
  - intros (a & b & Ha & Hb & -> & Hsa & Hsb).
    rewrite <- add_loop_walk.
    pose proof (align_reaches fuel a b p1 p2 n2 Hstep Ha Hb Hsa Hsb) as E.
    unfold RBTopology.align_angle_axis_vectors in E.
    rewrite Hstep in E. exact E.
Qed.

End AlignFacts.

(** ** The alignment in binary64 *)

(** C6 as stated fails on a tie.  The subtraction of [n2] leaves the
    distance to [p1] what it was, so it does not strictly decrease it; the
    code takes the step and returns [p2 - n2], where the loops of the
    documentation return [p2]. *)
Lemma align_takes_a_tie :
  RBTopology.periodicity_step tie_p1 tie_p2 = Some tie_n2 /\
  vec_sub tie_p2 tie_n2 = tie_result /\
  distance tie_p1 tie_result = distance tie_p1 tie_p2 /\
  fltb (distance tie_p1 tie_result) (distance tie_p1 tie_p2) = false /\
  RBTopology.align_angle_axis_vectors 3 tie_p1 tie_p2 = Some tie_result /\
  align_strict_descent 3 tie_p1 tie_p2 = Some tie_p2 /\
  RBTopology.align_angle_axis_vectors 3 tie_p1 tie_p2
  <> align_strict_descent 3 tie_p1 tie_p2.
Proof.
  repeat split; try (vm_compute; reflexivity).
  intros E.
  apply (f_equal (fun o => match o with
                           | Some v => PrimFloat.ltb (v0 v) 0
                           | None => false
                           end)) in E.
  vm_compute in E. discriminate E.
Qed.

(** [align_walks_while_not_farther] on the same input: no addition, one
    subtraction. *)
Lemma align_walks_while_not_farther_witness :
  RBTopology.periodicity_step tie_p1 tie_p2 = Some tie_n2 /\
  exists a b,
    a < 3 /\ b < 3 /\
    tie_result = steps_down b tie_n2 (steps_up a tie_n2 tie_p2) /\
    stops_after (fun p => vec_add p tie_n2) tie_p1 tie_p2 a /\
    stops_after (fun p => vec_sub p tie_n2) tie_p1
      (steps_up a tie_n2 tie_p2) b.
Proof.
  assert (Hstep : RBTopology.periodicity_step tie_p1 tie_p2 = Some tie_n2)
    by (vm_compute; reflexivity).
  split; [exact Hstep|].
  apply (proj1 (align_walks_while_not_farther 3 tie_p1 tie_p2 tie_n2
                  tie_result Hstep)).
  vm_compute. reflexivity.
Defined.

(** A walk that never ends: next to [1e17] the addition of [n2] changes
    nothing, the distance stays the same and the loop goes on. *)
Example align_runs_out_of_fuel :
  RBTopology.align_angle_axis_vectors 1000 (mkVecN3 0 0 0)%float
    (mkVecN3 1e17 0 0)%float = None.
Proof. vm_compute. reflexivity. Qed.

(** ** The alignment in exact arithmetic *)

Section AlignReal.
Local Open Scope R_scope.

Lemma Rltb_true x y : Rltb x y = true <-> x < y.
Proof. unfold Rltb. destruct (Rlt_dec x y); split; auto; discriminate. Qed.

Lemma Rltb_false x y : Rltb x y = false <-> y <= x.
Proof.
  unfold Rltb. destruct (Rlt_dec x y); split; auto; try discriminate; lra.
Qed.

Lemma Rgtb_true x y : Rgtb x y = true <-> x > y.
Proof. unfold Rgtb. destruct (Rgt_dec x y); split; auto; discriminate. Qed.

Lemma Rgtb_false x y : Rgtb x y = false <-> x <= y.
Proof.
  unfold Rgtb. destruct (Rgt_dec x y); split; auto; try discriminate; lra.
Qed.

Lemma dot_self (v : VecN3 R) : dot v v = norm2 v.
Proof. unfold dot, for_loop, norm2. simpl. ring. Qed.

Lemma norm2_nonneg (v : VecN3 R) : 0 <= norm2 v.
Proof. unfold norm2. nra. Qed.

Lemma norm_sqrt (v : VecN3 R) : norm v = sqrt (norm2 v).
Proof. unfold norm. now rewrite dot_self. Qed.

Lemma norm_square (v : VecN3 R) : norm v * norm v = norm2 v.
Proof. rewrite norm_sqrt. apply sqrt_sqrt, norm2_nonneg. Qed.

Lemma norm_gt (a b : VecN3 R) : norm a > norm b <-> norm2 a > norm2 b.
Proof.
  rewrite !norm_sqrt. split; intros Hgt.
  - apply sqrt_lt_0_alt. exact Hgt.
  - apply sqrt_lt_1_alt. split; [apply norm2_nonneg | exact Hgt].
Qed.

Lemma norm_le (a b : VecN3 R) : norm a <= norm b <-> norm2 a <= norm2 b.
Proof.
  pose proof (norm_gt a b) as Hgt.
  split; intros Hle.
  - destruct (Rle_or_lt (norm2 a) (norm2 b)) as [|Hlt]; [assumption|].
    apply Hgt in Hlt. lra.
  - destruct (Rle_or_lt (norm a) (norm b)) as [|Hlt]; [assumption|].
    apply Hgt in Hlt. lra.
Qed.

Lemma norm2_scale (v : VecN3 R) c :
  norm2 (vec_scale v c) = c * c * norm2 v.
Proof. unfold norm2, vec_scale. simpl. ring. Qed.

(** A vector that is not near the identity, scaled by [2 pi / |v|]. *)
Lemma scaled_to_two_pi (v : VecN3 R) :
  fltb (norm v) near_identity = false ->
  0 < norm v /\
  0 < 2 * PI / norm v /\
  norm (vec_scale v (2 * PI / norm v)) = 2 * PI.
Proof.
  intros Hfar. change (Rltb (norm v) (1 / 1000000) = false) in Hfar.
  apply Rltb_false in Hfar.
  assert (Hpos : 0 < norm v) by lra.
  pose proof PI_RGT_0 as Hpi.
  assert (Hc : 0 < 2 * PI / norm v).
  { apply Rdiv_lt_0_compat; lra. }
  repeat split; try assumption.
  rewrite norm_sqrt, norm2_scale, <- norm_square.
  replace (2 * PI / norm v * (2 * PI / norm v) * (norm v * norm v))
    with ((2 * PI) * (2 * PI)) by (field; lra).
  apply sqrt_square. lra.
Qed.

(** C5.  In exact arithmetic: when both [|p2|] and [|p1|] are below
    [1e-6] the function returns [p2] unchanged, whatever the fuel; when
    only [|p2|] is below it, [n2] is [p1] multiplied by the positive factor
    [2 pi / |p1|], of magnitude [2 pi]; otherwise [n2] is [p2] multiplied
    by the positive factor [2 pi / |p2|], of magnitude [2 pi]. *)
Theorem align_periodicity_step (p1 p2 : VecN3 R) :
  (norm p2 < 1 / 1000000 -> norm p1 < 1 / 1000000 ->
   RBTopology.periodicity_step p1 p2 = None /\
   forall fuel, RBTopology.align_angle_axis_vectors fuel p1 p2 = Some p2) /\
  (norm p2 < 1 / 1000000 -> ~ norm p1 < 1 / 1000000 ->
   RBTopology.periodicity_step p1 p2
   = Some (vec_scale p1 (2 * PI / norm p1)) /\
   0 < 2 * PI / norm p1 /\
   norm (vec_scale p1 (2 * PI / norm p1)) = 2 * PI) /\
  (~ norm p2 < 1 / 1000000 ->
   RBTopology.periodicity_step p1 p2
   = Some (vec_scale p2 (2 * PI / norm p2)) /\
   0 < 2 * PI / norm p2 /\
   norm (vec_scale p2 (2 * PI / norm p2)) = 2 * PI).
Proof.
  destruct (periodicity_step_cases p1 p2) as (Hnone & Hp1 & Hp2).
  repeat apply conj.
  - intros H2 H1.
    assert (E : RBTopology.periodicity_step p1 p2 = None).
    { apply Hnone; apply (proj2 (Rltb_true _ _)); assumption. }
    split; [exact E|]. intros fuel.
    unfold RBTopology.align_angle_axis_vectors. now rewrite E.
  - intros H2 H1.
    assert (Hfar : fltb (norm p1) near_identity = false).
    { apply (proj2 (Rltb_false _ _)).
      change (1 / 1000000 <= norm p1). lra. }
    split.
    + apply Hp1; [apply (proj2 (Rltb_true _ _)); assumption | exact Hfar].
    + apply scaled_to_two_pi. exact Hfar.
  - intros H2.
    assert (Hfar : fltb (norm p2) near_identity = false).
    { apply (proj2 (Rltb_false _ _)).
      change (1 / 1000000 <= norm p2). lra. }
    split.
    + apply Hp2. exact Hfar.
    + apply scaled_to_two_pi. exact Hfar.
Qed.

(** *** Termination *)

Lemma norm2_step (p1 d p : VecN3 R) :
  norm2 (vec_sub (vec_add p d) p1) = norm2 (vec_sub p p1) + slope p1 d p.
Proof. unfold slope, dot3, norm2, vec_sub, vec_add. simpl. ring. Qed.

Lemma slope_step (p1 d p : VecN3 R) :
  slope p1 d (vec_add p d) = slope p1 d p + 2 * norm2 d.
Proof. unfold slope, dot3, norm2, vec_sub, vec_add. simpl. ring. Qed.

Lemma step_farther (p1 d p : VecN3 R) :
  fgtb (distance p1 (vec_add p d)) (distance p1 p) = true <-> 0 < slope p1 d p.
Proof.
  change (fgtb (distance p1 (vec_add p d)) (distance p1 p))
    with (Rgtb (norm (vec_sub (vec_add p d) p1)) (norm (vec_sub p p1))).
  rewrite Rgtb_true, norm_gt, norm2_step. split; lra.
Qed.

Lemma walk_ends (step : VecN3 R -> VecN3 R) (p1 d : VecN3 R) :
  (forall p, step p = vec_add p d) ->
  forall m p, 0 < slope p1 d p + 2 * INR m * norm2 d ->
  exists r, walk step (S m) p1 p = Some r.
Proof.
  intros Hstep. induction m as [|m IH]; intros p Hm.
  - simpl in Hm. rewrite walk_S, Hstep.
    rewrite (proj2 (step_farther p1 d p)) by lra. now exists p.
  - rewrite walk_S, Hstep.
    destruct (fgtb (distance p1 (vec_add p d)) (distance p1 p)).
    + now exists p.
    + apply IH. rewrite slope_step. rewrite S_INR in Hm. lra.
Qed.

Lemma walk_terminates (step : VecN3 R -> VecN3 R) (p1 d p : VecN3 R) :
  (forall p, step p = vec_add p d) -> 0 < norm2 d ->
  exists fuel r, walk step fuel p1 p = Some r.
Proof.
  intros Hstep Hd.
  destruct (INR_unbounded (- slope p1 d p / (2 * norm2 d))) as [m Hm].
  destruct (walk_ends step p1 d Hstep m p) as [r Hr].
  - assert (E : - slope p1 d p / (2 * norm2 d) * (2 * norm2 d)
                = - slope p1 d p) by (field; lra).
    assert (L : - slope p1 d p / (2 * norm2 d) * (2 * norm2 d)
                < INR m * (2 * norm2 d)).
    { apply Rmult_lt_compat_r; lra. }
    lra.
  - now exists (S m), r.
Qed.

(** *** The distance does not grow *)

Lemma walk_not_farther (step : VecN3 R -> VecN3 R) (p1 p2 : VecN3 R) k :
  stops_after step p1 p2 k ->
  distance p1 (Nat.iter k step p2) <= distance p1 p2.
Proof.
  intros [Hle _]. induction k as [|k IH]; [simpl; lra|].
  apply Rle_trans with (distance p1 (Nat.iter k step p2)).
  - apply Rgtb_false. apply (Hle k). lia.
  - apply IH. intros i Hi. apply Hle. lia.
Qed.

(** *** Whole multiples of the step *)

Lemma steps_up_multiple a (n2 p : VecN3 R) :
  steps_up a n2 p = vec_add p (vec_scale n2 (INR a)).
Proof.
  induction a as [|a IH].
  - destruct p. unfold steps_up, vec_add, vec_scale. simpl. f_equal; ring.
  - unfold steps_up in *. rewrite Nat.iter_succ, IH, S_INR.
    unfold vec_add, vec_scale. simpl. f_equal; ring.
Qed.

Lemma steps_down_multiple b (n2 p : VecN3 R) :
  steps_down b n2 p = vec_add p (vec_scale n2 (- INR b)).
Proof.
  induction b as [|b IH].
  - destruct p. unfold steps_down, vec_add, vec_scale. simpl. f_equal; ring.
  - unfold steps_down in *. rewrite Nat.iter_succ, IH, S_INR.
    unfold vec_add, vec_sub, vec_scale. simpl. f_equal; ring.
Qed.

Lemma steps_multiple a b (n2 p : VecN3 R) :
  steps_down b n2 (steps_up a n2 p)
  = vec_add p (vec_scale n2 (IZR (Z.of_nat a - Z.of_nat b))).
Proof.
  rewrite steps_down_multiple, steps_up_multiple.
  rewrite minus_IZR, <- !INR_IZR_INZ.
  unfold vec_add, vec_scale. simpl. f_equal; ring.
Qed.

(** The periodicity step is never the null vector. *)
Lemma periodicity_step_nonzero (p1 p2 n2 : VecN3 R) :
  RBTopology.periodicity_step p1 p2 = Some n2 -> 0 < norm2 n2.
Proof.
  unfold RBTopology.periodicity_step. intros Hn2.
  pose proof PI_RGT_0 as Hpi.
  assert (Hscaled : exists p, fltb (norm p) near_identity = false /\
                              n2 = vec_scale p (2 * PI / norm p)).
  { destruct (fltb (norm p2) near_identity) eqn:E2.
    - destruct (fltb (norm p1) near_identity) eqn:E1; [discriminate|].
      injection Hn2 as <-. now exists p1.
    - injection Hn2 as <-. now exists p2. }
  destruct Hscaled as (p & Hfar & ->).
  destruct (scaled_to_two_pi p Hfar) as (_ & _ & Hnorm).
  rewrite <- norm_square, Hnorm. nra.
Qed.

End AlignReal.

(** ** A result that is not a fixed point *)

Section NotIdempotent.
Local Open Scope R_scope.

Lemma farther_iff (p1 a b : VecN3 R) :
  fgtb (distance p1 a) (distance p1 b) = true
  <-> norm2 (vec_sub a p1) > norm2 (vec_sub b p1).
Proof.
  change (fgtb (distance p1 a) (distance p1 b))
    with (Rgtb (norm (vec_sub a p1)) (norm (vec_sub b p1))).
  now rewrite Rgtb_true, norm_gt.
Qed.

Lemma not_farther_iff (p1 a b : VecN3 R) :
  fgtb (distance p1 a) (distance p1 b) = false
  <-> norm2 (vec_sub a p1) <= norm2 (vec_sub b p1).
Proof.
  change (fgtb (distance p1 a) (distance p1 b))
    with (Rgtb (norm (vec_sub a p1)) (norm (vec_sub b p1))).
  now rewrite Rgtb_false, norm_le.
Qed.

Lemma PI_bounds : 2 < PI <= 4.
Proof. pose proof PI2_1. pose proof PI_4. lra. Qed.

Lemma turn_p2_norm : norm turn_p2 = 2 * PI.
Proof.
  rewrite norm_sqrt. unfold norm2, turn_p2. simpl.
  replace (2 * PI * (2 * PI) + 0 * 0 + 0 * 0) with ((2 * PI) * (2 * PI))
    by ring.
  apply sqrt_square. pose proof PI_bounds. lra.
Qed.

Lemma turn_p1_norm : norm turn_p1 = 5.
Proof.
  rewrite norm_sqrt. unfold norm2, turn_p1. simpl.
  replace (0 * 0 + 5 * 5 + 0 * 0) with (5 * 5) by ring.
  apply sqrt_square. lra.
Qed.

Lemma turn_zero_norm : norm turn_zero = 0.
Proof.
  rewrite norm_sqrt. unfold norm2, turn_zero. simpl.
  replace (0 * 0 + 0 * 0 + 0 * 0) with 0 by ring.
  apply sqrt_0.
Qed.

(** First call: the step is [p2] itself. *)
Lemma turn_first_step :
  RBTopology.periodicity_step turn_p1 turn_p2 = Some turn_p2.
Proof.
  destruct (periodicity_step_cases turn_p1 turn_p2) as (_ & _ & Hfar).
  rewrite Hfar.
  - rewrite turn_p2_norm. unfold vec_scale, turn_p2. simpl.
    pose proof PI_bounds. do 2 f_equal; field; lra.
  - apply (proj2 (Rltb_false _ _)). rewrite turn_p2_norm.
    change (1 / 1000000 <= 2 * PI). pose proof PI_bounds. lra.
Qed.

(** Second call, on the result of the first: [p2] is now the null vector
    and the step is taken from [p1]. *)
Lemma turn_second_step :
  RBTopology.periodicity_step turn_p1 turn_zero = Some turn_again.
Proof.
  destruct (periodicity_step_cases turn_p1 turn_zero) as (_ & Hp1 & _).
  rewrite Hp1.
  - rewrite turn_p1_norm. unfold vec_scale, turn_p1, turn_again. simpl.
    do 2 f_equal; field.
  - apply (proj2 (Rltb_true _ _)). rewrite turn_zero_norm.
    change (0 < 1 / 1000000). lra.
  - apply (proj2 (Rltb_false _ _)). rewrite turn_p1_norm.
    change (1 / 1000000 <= 5). lra.
Qed.

Ltac norm2_compare :=
  unfold steps_up, steps_down, norm2, vec_sub, vec_add, turn_p1, turn_p2,
    turn_zero, turn_again;
  simpl; nra.

Lemma turn_first_call fuel :
  (2 <= fuel)%nat ->
  RBTopology.align_angle_axis_vectors fuel turn_p1 turn_p2 = Some turn_zero.
Proof.
  intros Hfuel. pose proof PI_bounds as Hpi.
  rewrite (align_reaches fuel 0 1 turn_p1 turn_p2 turn_p2 turn_first_step).
  - f_equal. unfold steps_down, steps_up, vec_sub, turn_p2, turn_zero. simpl.
    f_equal; ring.
  - lia.
  - lia.
  - split; [intros i Hi; exfalso; lia|].
    apply farther_iff. norm2_compare.
  - split.
    + intros i Hi. assert (i = 0)%nat as -> by lia.
      apply not_farther_iff. norm2_compare.
    + apply farther_iff. norm2_compare.
Qed.

Lemma turn_second_call fuel :
  (2 <= fuel)%nat ->
  RBTopology.align_angle_axis_vectors fuel turn_p1 turn_zero
  = Some turn_again.
Proof.
  intros Hfuel. pose proof PI_bounds as Hpi.
  rewrite (align_reaches fuel 1 0 turn_p1 turn_zero turn_again
             turn_second_step).
  - f_equal. unfold steps_down, steps_up, vec_add, turn_zero, turn_again.
    simpl. f_equal; ring.
  - lia.
  - lia.
  - split.
    + intros i Hi. assert (i = 0)%nat as -> by lia.
      apply not_farther_iff. norm2_compare.
    + apply farther_iff. norm2_compare.
  - split; [intros i Hi; exfalso; lia|].
    apply farther_iff. norm2_compare.
Qed.

(** C7 as stated fails in its last part.  In exact arithmetic the
    function maps [p2 = (2 pi, 0, 0)] to the null vector, which is nearer
    to [p1 = (0, 5, 0)]; called again on the null vector it takes the
    period from [p1] and returns [(0, 2 pi, 0)], nearer still.  No amount
    of fuel makes the null vector its own image. *)
Lemma align_not_idempotent :
  (forall fuel, (2 <= fuel)%nat ->
     RBTopology.align_angle_axis_vectors fuel turn_p1 turn_p2
     = Some turn_zero) /\
  (forall fuel, (2 <= fuel)%nat ->
     RBTopology.align_angle_axis_vectors fuel turn_p1 turn_zero
     = Some turn_again) /\
  turn_again <> turn_zero /\
  (forall fuel,
     RBTopology.align_angle_axis_vectors fuel turn_p1 turn_zero
     <> Some turn_zero).
Proof.
  assert (Hne : turn_again <> turn_zero).
  { intros E. apply (f_equal v1) in E. simpl in E.
    pose proof PI_bounds. lra. }
  split; [exact turn_first_call|]. split; [exact turn_second_call|].
  split; [exact Hne|].
  intros fuel E.
  apply (align_fuel_mono fuel (Nat.max fuel 2)) in E; [|lia].
  rewrite turn_second_call in E by lia.
  injection E as E. pose proof PI_bounds. lra.
Qed.

End NotIdempotent.

(** The same two calls in binary64. *)
Example align_not_idempotent_double :
  let p1 := (mkVecN3 0 5 0)%float in
  let p2 := (mkVecN3 0x1.921fb54442d18p+2 0 0)%float in
  RBTopology.align_angle_axis_vectors 2 p1 p2 = Some (mkVecN3 0 0 0)%float /\
  RBTopology.align_angle_axis_vectors 2 p1 (mkVecN3 0 0 0)%float
  = Some (mkVecN3 0 0x1.921fb54442d18p+2 0)%float.
Proof. split; vm_compute; reflexivity. Qed.

(** ** [TransformAACluster::rotate] *)

Section ClusterFacts.
Context {F : Type} `{Scalar F} `{RotationAlgebra F}.

(** [transpose] swaps the two indices. *)
Lemma transpose_get (m : MatrixNM33 F) i j :
  i < 3 -> j < 3 -> mat_get (transpose m) i j = mat_get m j i.
Proof.
  intros Hi Hj.
  destruct i as [|[|[|i]]]; try lia;
    destruct j as [|[|[|j]]]; try lia; reflexivity.
Qed.

(** The product of a matrix of [n] rows of three with a 3x3 matrix. *)
Lemma hacky_mat_mul_rows (a b : list F) n :
  length a = n * 3 ->
  hacky_mat_mul a 3 b 3
  = flat_map (fun i =>
      vec_to_array (vec_mat (vec_of_array (view a (i * 3) (i * 3 + 3))) b))
      (seq 0 n).
Proof.
  intros Hlen. unfold hacky_mat_mul.
  rewrite Hlen, Nat.div_mul by discriminate.
  rewrite <- (app_nil_r (repeat fzero (n * 3))).
  rewrite <- (app_nil_r (flat_map _ _)).
  rewrite (fill_rows (fun i j =>
             for_loop 3 (fun k val =>
               (val + hm_get a 3 i k * hm_get b 3 k j)%S) fzero)).
  f_equal. apply flat_map_seq_ext. intros i Hi.
  unfold vec_to_array, vec_mat, vec_of_array. simpl v0. simpl v1. simpl v2.
  assert (E : forall j,
    for_loop 3 (fun k val => (val + hm_get a 3 i k * hm_get b 3 k j)%S) fzero
    = sum_n 3 (fun k =>
        (vec_get (mkVecN3 (get (view a (i * 3) (i * 3 + 3)) 0)
                          (get (view a (i * 3) (i * 3 + 3)) 1)
                          (get (view a (i * 3) (i * 3 + 3)) 2)) k
         * mat_get b k j)%S)).
  { intros j. apply for_loop_ext. intros k acc Hk.
    do 2 f_equal. unfold hm_get.
    destruct k as [|[|[|k]]]; try lia; simpl vec_get;
      rewrite get_view by lia; reflexivity. }
  rewrite !E. reflexivity.
Qed.

(** The loop of lines 233-238 on the rotation block [rots], which follows
    [pre] in the array. *)
Lemma rotation_loop (pre rots tail : list F) (dp : VecN3 F) n m :
  length rots = n * 3 -> m <= n ->
  for_loop m (fun isite x =>
    let pview :=
      view x (length pre + isite * 3) (length pre + isite * 3 + 3) in
    let p := rotate_aa (vec_of_array pview) dp in
    assign_view x (length pre + isite * 3) (vec_to_array p))
    (pre ++ rots ++ tail)
  = pre
    ++ flat_map (fun i =>
         vec_to_array
           (rotate_aa (vec_of_array (view rots (i * 3) (i * 3 + 3))) dp))
         (seq 0 m)
    ++ skipn (m * 3) rots ++ tail.
Proof.
  intros Hlen. induction m as [|m IH]; intros Hm; [reflexivity|].
  rewrite for_loop_S, IH by lia. clear IH.
  set (done := flat_map _ (seq 0 m)).
  assert (Ldone : length done = m * 3).
  { unfold done. rewrite flat_map_length3, length_seq; reflexivity. }
  assert (Esplit : skipn (m * 3) rots
                   = view rots (m * 3) (m * 3 + 3) ++ skipn (S m * 3) rots).
  { unfold view. replace (m * 3 + 3 - m * 3) with 3 by lia.
    replace (S m * 3) with (3 + m * 3) by lia.
    rewrite <- skipn_skipn. symmetry. apply firstn_skipn. }
  assert (Lview : length (view rots (m * 3) (m * 3 + 3)) = 3).
  { rewrite view_length by lia. lia. }
  cbv zeta.
  assert (Lpre : length (pre ++ done) = length pre + m * 3).
  { rewrite length_app. lia. }
  assert (Eview :
    view (pre ++ done ++ skipn (m * 3) rots ++ tail)
      (length pre + m * 3) (length pre + m * 3 + 3)
    = view rots (m * 3) (m * 3 + 3)).
  { rewrite Esplit, <- app_assoc, (app_assoc pre done).
    apply view_at; [exact Lpre | rewrite Lview; reflexivity]. }
  rewrite Eview.
  rewrite Esplit at 1.
  rewrite <- (app_assoc (view rots _ _)), (app_assoc pre done).
  rewrite (assign_view_at _ _ _ _ (length pre + m * 3) Lpre)
    by (rewrite Lview; reflexivity).
  rewrite flat_map_seq_S. fold done.
  rewrite <- !app_assoc. reflexivity.
Qed.

(** The rotation of the rigid bodies: new centers, new rotations, and the
    rest of the configuration as it was. *)
Lemma rotate_rigid_spec (n : nat) (x : list F) (mx : MatrixNM33 F) :
  6 * n <= length x ->
  TransformAACluster.rotate_rigid n x mx
  = flat_map (fun i => vec_to_array (rotated_center x mx i)) (seq 0 n)
    ++ flat_map (fun i => vec_to_array (rotated_rotation n x mx i)) (seq 0 n)
    ++ skipn (6 * n) x.
Proof.
  intros Hlen.
  set (centers := firstn (n * 3) x).
  set (rots := firstn (n * 3) (skipn (n * 3) x)).
  set (tail := skipn (6 * n) x).
  assert (Ex : x = centers ++ rots ++ tail).
  { unfold centers, rots, tail.
    replace (6 * n) with (n * 3 + n * 3) by lia.
    rewrite <- skipn_skipn, firstn_skipn, firstn_skipn. reflexivity. }
  assert (Lc : length centers = n * 3).
  { unfold centers. rewrite length_firstn. lia. }
  assert (Lr : length rots = n * 3).
  { unfold rots. rewrite length_firstn, length_skipn. lia. }
  assert (Ecenter : forall i, i < n ->
            center_slot x i = view centers (i * 3) (i * 3 + 3)).
  { intros i Hi. unfold center_slot. rewrite Ex at 1.
    apply view_app_l. lia. }
  assert (Erot : forall i, i < n ->
            rotation_slot n x i = view rots (i * 3) (i * 3 + 3)).
  { intros i Hi. unfold rotation_slot. rewrite Ex at 1.
    replace (3 * n) with (length centers) by lia.
    rewrite <- Nat.add_assoc, view_app_r. apply view_app_l. lia. }
  unfold TransformAACluster.rotate_rigid,
    CoordsAdaptor.rb_positions_begin, CoordsAdaptor.rb_rotations_begin.
  assert (Epos : view x 0 (3 * n) = centers).
  { unfold view, centers. rewrite Nat.sub_0_r. simpl skipn.
    f_equal. lia. }
  rewrite Epos, (hacky_mat_mul_rows centers (transpose mx) n Lc).
  set (result := flat_map _ (seq 0 n)).
  assert (Lres : length result = n * 3).
  { unfold result. rewrite flat_map_length3, length_seq; reflexivity. }
  assert (E1 : assign_view x 0 result = result ++ rots ++ tail).
  { rewrite Ex at 1.
    apply (assign_view_app [] centers (rots ++ tail) result). lia. }
  rewrite E1. replace (3 * n) with (length result) by lia.
  rewrite (rotation_loop result rots tail (rot_mat_to_aa mx) n n Lr (le_n n)).
  rewrite skipn_all2 by lia. simpl app.
  f_equal; [|f_equal].
  - unfold result. apply flat_map_seq_ext. intros i Hi.
    unfold rotated_center. now rewrite Ecenter.
  - apply flat_map_seq_ext. intros i Hi.
    unfold rotated_rotation. now rewrite Erot.
Qed.

Lemma adaptor_accepts (n natoms : nat) (x : list F) :
  length x = 6 * n + 3 * natoms -> CoordsAdaptor.make n natoms x = Ok tt.
Proof.
  intros Hlen. unfold CoordsAdaptor.make.
  destruct (Nat.ltb_spec (length x) (6 * n + 3 * natoms)); [lia|reflexivity].
Qed.

(** A row vector times the transpose of [mx]: component [j] contracts the
    vector with row [j] of [mx]. *)
Lemma vec_mat_transpose (c : VecN3 F) (mx : MatrixNM33 F) :
  vec_mat c (transpose mx)
  = mkVecN3 (sum_n 3 (fun k => vec_get c k * mat_get mx 0 k)%S)
            (sum_n 3 (fun k => vec_get c k * mat_get mx 1 k)%S)
            (sum_n 3 (fun k => vec_get c k * mat_get mx 2 k)%S).
Proof.
  unfold vec_mat. f_equal; apply sum_n_ext; intros k Hk;
    rewrite transpose_get by lia; reflexivity.
Qed.

(** C8.  With rigid bodies, no non-rigid atoms and a configuration [x] of
    [6 * nrigid] numbers, [rotate] returns normally and leaves in [x]:
    the center block with each center row multiplied on the right by the
    transpose of [mx], that is, new center [j] component
    [sum_k c_k * mx(j,k)]; and the rotation block with each site's vector
    [p] replaced by [rotate_aa(p, dp)], [dp = rot_mat_to_aa(mx)]. *)
Theorem rotate_rigid_bodies (top : RBTopology.t F) (x : list F)
    (mx : MatrixNM33 F) :
  0 < RBTopology.nrigid top ->
  RBTopology.number_of_non_rigid_atoms top = 0 ->
  length x = 6 * RBTopology.nrigid top ->
  TransformAACluster.rotate top x mx
  = (Ok tt,
     flat_map (fun i =>
       vec_to_array
         (vec_mat (vec_of_array (center_slot x i)) (transpose mx)))
       (seq 0 (RBTopology.nrigid top))
     ++ flat_map (fun i =>
          vec_to_array
            (rotate_aa
               (vec_of_array (rotation_slot (RBTopology.nrigid top) x i))
               (rot_mat_to_aa mx)))
          (seq 0 (RBTopology.nrigid top))) /\
  forall c : VecN3 F,
    vec_mat c (transpose mx)
    = mkVecN3 (sum_n 3 (fun k => vec_get c k * mat_get mx 0 k)%S)
              (sum_n 3 (fun k => vec_get c k * mat_get mx 1 k)%S)
              (sum_n 3 (fun k => vec_get c k * mat_get mx 2 k)%S).
Proof.
  intros Hn Hnr Hlen. split; [|intros c; apply vec_mat_transpose].
  unfold TransformAACluster.rotate.
  rewrite adaptor_accepts by (rewrite Hnr; lia).
  rewrite Hnr. simpl (0 <? 0).
  destruct (Nat.ltb_spec 0 (RBTopology.nrigid top)) as [_|Hz]; [|lia].
  rewrite rotate_rigid_spec by lia.
  rewrite skipn_all2 by lia. rewrite app_nil_r. reflexivity.
Qed.

(** C9.  With non-rigid atoms, [rotate] throws the [runtime_error] of
    line 241, on every configuration of the topology and every matrix. *)
Theorem rotate_non_rigid_unsupported (top : RBTopology.t F) (x : list F)
    (mx : MatrixNM33 F) :
  0 < RBTopology.number_of_non_rigid_atoms top ->
  length x = 6 * RBTopology.nrigid top
             + 3 * RBTopology.number_of_non_rigid_atoms top ->
  fst (TransformAACluster.rotate top x mx)
  = Throw (runtime_error "non-rigid atoms is not yet supported").
Proof.
  intros Hnr Hlen. unfold TransformAACluster.rotate.
  rewrite adaptor_accepts by assumption.
  destruct (Nat.ltb_spec 0 (RBTopology.number_of_non_rigid_atoms top))
    as [_|Hz]; [reflexivity|lia].
Qed.

(** C10.  With rigid bodies and non-rigid atoms, the [runtime_error] comes
    after the rotation of the rigid bodies: when [rotate] throws, [x]
    holds the new centers and the new rotations, followed by the non-rigid
    coordinates as they were. *)
Theorem rotate_throws_after_rotating (top : RBTopology.t F) (x : list F)
    (mx : MatrixNM33 F) :
  0 < RBTopology.nrigid top ->
  0 < RBTopology.number_of_non_rigid_atoms top ->
  length x = 6 * RBTopology.nrigid top
             + 3 * RBTopology.number_of_non_rigid_atoms top ->
  TransformAACluster.rotate top x mx
  = (Throw (runtime_error "non-rigid atoms is not yet supported"),
     flat_map (fun i => vec_to_array (rotated_center x mx i))
       (seq 0 (RBTopology.nrigid top))
     ++ flat_map (fun i =>
          vec_to_array (rotated_rotation (RBTopology.nrigid top) x mx i))
          (seq 0 (RBTopology.nrigid top))
     ++ skipn (6 * RBTopology.nrigid top) x).
Proof.
  intros Hn Hnr Hlen. unfold TransformAACluster.rotate.
  rewrite adaptor_accepts by assumption.
  destruct (Nat.ltb_spec 0 (RBTopology.nrigid top)) as [_|Hz]; [|lia].
  destruct (Nat.ltb_spec 0 (RBTopology.number_of_non_rigid_atoms top))
    as [_|Hz]; [|lia].
  rewrite rotate_rigid_spec by lia. reflexivity.
Qed.

End ClusterFacts.

(** [rotate_rigid_bodies] on [two_sites]. *)
Lemma rotate_rigid_bodies_witness :
  let x := [1; 2; 3; 4; 5; 6; 0; 0; 1; 1; 0; 0]%Z in
  0 < RBTopology.nrigid two_sites /\
  RBTopology.number_of_non_rigid_atoms two_sites = 0 /\
  length x = 6 * RBTopology.nrigid two_sites /\
  TransformAACluster.rotate two_sites x quarter_turn
  = (Ok tt, [-2; 1; 3; -5; 4; 6; 0; 0; 3; 1; 2; 2]%Z).
Proof.
  intros x.
  assert (Hn : 0 < RBTopology.nrigid two_sites) by (vm_compute; lia).
  assert (Hnr : RBTopology.number_of_non_rigid_atoms two_sites = 0)
    by reflexivity.
  assert (Hlen : length x = 6 * RBTopology.nrigid two_sites) by reflexivity.
  split; [exact Hn|]. split; [exact Hnr|]. split; [exact Hlen|].
  exact (proj1 (rotate_rigid_bodies two_sites x quarter_turn Hn Hnr Hlen)).
Defined.

(** [rotate_non_rigid_unsupported] on a topology with one non-rigid
    atom. *)
Lemma rotate_non_rigid_unsupported_witness :
  let x := [1; 2; 3; 0; 0; 1; 7; 8; 9]%Z in
  0 < RBTopology.number_of_non_rigid_atoms one_site_one_free_atom /\
  length x = 6 * RBTopology.nrigid one_site_one_free_atom
             + 3 * RBTopology.number_of_non_rigid_atoms
                     one_site_one_free_atom /\
  is_runtime_error
    (fst (TransformAACluster.rotate one_site_one_free_atom x quarter_turn))
  = true.
Proof.
  intros x.
  assert (Hnr : 0 < RBTopology.number_of_non_rigid_atoms
                      one_site_one_free_atom) by (vm_compute; lia).
  assert (Hlen : length x
                 = 6 * RBTopology.nrigid one_site_one_free_atom
                   + 3 * RBTopology.number_of_non_rigid_atoms
                           one_site_one_free_atom) by reflexivity.
  split; [exact Hnr|]. split; [exact Hlen|].
  rewrite (rotate_non_rigid_unsupported one_site_one_free_atom x
             quarter_turn Hnr Hlen).
  reflexivity.
Defined.

(** [rotate_throws_after_rotating] on the same topology: the call throws
    and the center and the rotation of the site have changed. *)
Lemma rotate_throws_after_rotating_witness :
  let x := [1; 2; 3; 0; 0; 1; 7; 8; 9]%Z in
  0 < RBTopology.nrigid one_site_one_free_atom /\
  0 < RBTopology.number_of_non_rigid_atoms one_site_one_free_atom /\
  length x = 6 * RBTopology.nrigid one_site_one_free_atom
             + 3 * RBTopology.number_of_non_rigid_atoms
                     one_site_one_free_atom /\
  TransformAACluster.rotate one_site_one_free_atom x quarter_turn
  = (Throw (runtime_error "non-rigid atoms is not yet supported"),
     [-2; 1; 3; 0; 0; 3; 7; 8; 9]%Z).
Proof.
  intros x.
  assert (Hn : 0 < RBTopology.nrigid one_site_one_free_atom)
    by (vm_compute; lia).
  assert (Hnr : 0 < RBTopology.number_of_non_rigid_atoms
                      one_site_one_free_atom) by (vm_compute; lia).
  assert (Hlen : length x
                 = 6 * RBTopology.nrigid one_site_one_free_atom
                   + 3 * RBTopology.number_of_non_rigid_atoms
                           one_site_one_free_atom) by reflexivity.
  split; [exact Hn|]. split; [exact Hnr|]. split; [exact Hlen|].
  exact (rotate_throws_after_rotating one_site_one_free_atom x quarter_turn
           Hn Hnr Hlen).
Defined.

(** * Further properties *)

(** ** [RBTopology::transform_gradient]: the gradients it writes *)

Section GradientWrites.
Context {F : Type} `{Scalar F} `{RotationAlgebra F}.

(** A loop whose state after [m] iterations is known. *)
Lemma for_loop_invariant {S : Type} (body : nat -> S -> S) (inv : nat -> S)
    n s :
  s = inv 0 -> (forall m, m < n -> body m (inv m) = inv (Datatypes.S m)) ->
  for_loop n body s = inv n.
Proof.
  intros -> Hstep. induction n as [|n IH]; [reflexivity|].
  rewrite for_loop_S, IH by auto. apply Hstep. lia.
Qed.

(** Writing three numbers into the next free slot of a block [B] that is
    being filled from the left. *)
Lemma assign_next_slot (pre B post src : list F) b m :
  length src = 3 -> Datatypes.S m * 3 <= length B -> length pre = b ->
  assign_view (pre ++ skipn (m * 3) B ++ post) b src
  = pre ++ src ++ skipn (Datatypes.S m * 3) B ++ post.
Proof.
  intros Hsrc HB Hpre.
  assert (Esplit : skipn (m * 3) B
                   = view B (m * 3) (m * 3 + 3)
                     ++ skipn (Datatypes.S m * 3) B).
  { unfold view. replace (m * 3 + 3 - m * 3) with 3 by lia.
    replace (Datatypes.S m * 3) with (3 + m * 3) by lia.
    rewrite <- skipn_skipn. symmetry. apply firstn_skipn. }
  rewrite Esplit at 1. rewrite <- app_assoc.
  apply assign_view_at; [exact Hpre|].
  rewrite view_length by lia. lia.
Qed.

(** The outputs of [transform_grad] do not depend on what the two output
    vectors held. *)
Lemma transform_grad_fresh (f : RigidFragment.t F) p g a b a' b' :
  RigidFragment.transform_grad f p g a b
  = RigidFragment.transform_grad f p g a' b'.
Proof. now rewrite !transform_grad_loops. Qed.

Lemma site_ensure_finalized (top : RBTopology.t F) i :
  RBTopology.site (RBTopology.ensure_finalized top) i = RBTopology.site top i.
Proof.
  unfold RBTopology.ensure_finalized.
  destruct (RBTopology.natoms_total top =? 0); reflexivity.
Qed.

(** X1.  On arrays of the right sizes [transform_gradient] returns
    normally and leaves in [rbgrad]: in slot [i] of the first block the
    center gradient of site [i], in slot [i] of the second block its
    rotation gradient, both computed by the site's own [transform_grad] on
    the site's rotation slot of [rbcoords] and on the site's block of
    [grad].  Nothing of what [rbgrad] held before the call remains. *)
Theorem transform_gradient_writes (top : RBTopology.t F)
    (rbcoords grad rbgrad : list F) :
  let top' := RBTopology.ensure_finalized top in
  length rbcoords = 6 * RBTopology.nrigid top' ->
  length grad = 3 * RBTopology.natoms_total top' ->
  length rbgrad = length rbcoords ->
  RBTopology.transform_gradient top rbcoords grad rbgrad
  = (top', Ok tt,
     flat_map (fun i => vec_to_array (fst (site_gradient top' rbcoords grad i)))
       (seq 0 (RBTopology.nrigid top'))
     ++ flat_map
          (fun i => vec_to_array (snd (site_gradient top' rbcoords grad i)))
          (seq 0 (RBTopology.nrigid top'))).
Proof.
  intros top' Hrb Hg Hout. unfold RBTopology.transform_gradient. fold top'.
  replace (length rbcoords =? RBTopology.nrigid top' * 6) with true
    by (symmetry; apply Nat.eqb_eq; lia).
  replace (length grad =? RBTopology.natoms_total top' * 3) with true
    by (symmetry; apply Nat.eqb_eq; lia).
  replace (length rbgrad =? length rbcoords) with true
    by (symmetry; apply Nat.eqb_eq; lia).
  simpl negb. cbv iota.
  set (n := RBTopology.nrigid top') in *.
  set (C := firstn (n * 3) rbgrad).
  set (R := skipn (n * 3) rbgrad).
  assert (Ex : rbgrad = C ++ R) by (symmetry; apply firstn_skipn).
  assert (LC : length C = n * 3).
  { unfold C. rewrite length_firstn. lia. }
  assert (LR : length R = n * 3).
  { unfold R. rewrite length_skipn. lia. }
  set (gc := fun i => vec_to_array (fst (site_gradient top' rbcoords grad i))).
  set (gr := fun i => vec_to_array (snd (site_gradient top' rbcoords grad i))).
  rewrite (for_loop_invariant _ (fun m =>
             (flat_map gc (seq 0 m) ++ skipn (m * 3) C
              ++ flat_map gr (seq 0 m) ++ skipn (m * 3) R,
              grad_start top' m)) n).
  - rewrite !skipn_all2 by lia. now rewrite !app_nil_r.
  - simpl. now rewrite Ex.
  - intros m Hm.
    unfold CoordsAdaptor.rb_positions_begin, CoordsAdaptor.rb_rotations_begin.
    fold n.
    rewrite (view_view rbcoords (3 * n) (6 * n)) by lia.
    replace (3 * n + (m * 3 + 3)) with (3 * n + m * 3 + 3) by lia.
    fold (rotation_slot n rbcoords m).
    match goal with
    | |- context [RigidFragment.transform_grad ?f ?p ?g ?a ?b] =>
        rewrite (transform_grad_fresh f p g a b
                   (vec_assign fzero) (vec_assign fzero))
    end.
    match goal with
    | |- context [RigidFragment.transform_grad ?f ?p ?g ?a ?b] =>
        set (sg := RigidFragment.transform_grad f p g a b)
    end.
    assert (Egc : gc m = vec_to_array (fst sg)) by reflexivity.
    assert (Egr : gr m = vec_to_array (snd sg)) by reflexivity.
    clearbody sg. destruct sg as [gcm grm].
    simpl fst in Egc. simpl snd in Egr. rewrite <- Egc, <- Egr.
    assert (Lgc : length (flat_map gc (seq 0 m)) = m * 3).
    { rewrite flat_map_length3, length_seq; reflexivity. }
    assert (Lgr : length (flat_map gr (seq 0 m)) = m * 3).
    { rewrite flat_map_length3, length_seq; reflexivity. }
    f_equal.
    + rewrite (assign_next_slot (flat_map gc (seq 0 m)) C _ (gc m) (0 + m * 3) m)
        by (reflexivity || lia).
      rewrite !flat_map_seq_S, <- !app_assoc.
      rewrite (app_assoc (flat_map gc (seq 0 m))), (app_assoc _ (skipn _ C)),
        (app_assoc _ (flat_map gr (seq 0 m))).
      rewrite <- (app_nil_r (skipn (m * 3) R)).
      rewrite (assign_next_slot _ R [] (gr m) (3 * n + m * 3) m);
        [ | reflexivity | lia | ].
      * rewrite app_nil_r, <- !app_assoc. reflexivity.
      * rewrite !length_app, Lgc, Lgr, length_skipn. rewrite Egc. simpl length.
        lia.
    + unfold grad_start. rewrite for_loop_S. reflexivity.
Qed.

End GradientWrites.

(** [transform_gradient_writes] on [two_sites]. *)
Lemma transform_gradient_writes_witness :
  let rbcoords := [10; 20; 30; 40; 50; 60; 0; 0; 1; 1; 0; 0]%Z in
  let grad := [1; 2; 3; 4; 5; 6; 7; 8; 9]%Z in
  let rbgrad := repeat 7%Z 12 in
  length rbcoords
  = 6 * RBTopology.nrigid (RBTopology.ensure_finalized two_sites) /\
  length grad
  = 3 * RBTopology.natoms_total (RBTopology.ensure_finalized two_sites) /\
  length rbgrad = length rbcoords /\
  RBTopology.transform_gradient two_sites rbcoords grad rbgrad
  = (two_sites, Ok tt, [5; 7; 9; 7; 8; 9; 12; -3; -6; -24; 21; 0]%Z).
Proof.
  intros rbcoords grad rbgrad.
  assert (H1 : length rbcoords
               = 6 * RBTopology.nrigid (RBTopology.ensure_finalized two_sites))
    by reflexivity.
  assert (H2 : length grad
               = 3 * RBTopology.natoms_total
                       (RBTopology.ensure_finalized two_sites))
    by reflexivity.
  assert (H3 : length rbgrad = length rbcoords) by reflexivity.
  split; [exact H1|]. split; [exact H2|]. split; [exact H3|].
  exact (transform_gradient_writes two_sites rbcoords grad rbgrad H1 H2 H3).
Defined.

(** ** [RBTopology::to_atomistic]: the lazy [finalize] *)

Section LazyFinalize.
Context {F : Type} `{Scalar F} `{RotationAlgebra F}.

Lemma finalize_finalized (top : RBTopology.t F) :
  RBTopology.finalized (RBTopology.finalize top).
Proof. reflexivity. Qed.

(** X2.  A topology on which [finalize] was never called (its cached atom
    count is still 0) can be used as it is: [to_atomistic] finalizes it
    and returns what it returns on the finalized topology, the
    concatenation of the site blocks, [3] numbers for each atom of each
    site. *)
Theorem to_atomistic_finalizes (top : RBTopology.t F) (rbcoords : list F) :
  RBTopology.natoms_total top = 0 ->
  Forall RigidFragment.ok (RBTopology._sites top) ->
  RBTopology.number_of_non_rigid_atoms top = 0 ->
  length rbcoords = 6 * RBTopology.nrigid top ->
  RBTopology.to_atomistic top rbcoords
  = RBTopology.to_atomistic (RBTopology.finalize top) rbcoords /\
  RBTopology.to_atomistic top rbcoords
  = (RBTopology.finalize top,
     Ok (flat_map (site_to_atomistic top rbcoords)
           (seq 0 (RBTopology.nrigid top)))) /\
  length (flat_map (site_to_atomistic top rbcoords)
            (seq 0 (RBTopology.nrigid top)))
  = 3 * RBTopology.natoms_of_sites (RBTopology._sites top).
Proof.
  intros Hzero Hok Hnr Hlen.
  assert (E : RBTopology.to_atomistic top rbcoords
              = RBTopology.to_atomistic (RBTopology.finalize top) rbcoords).
  { unfold RBTopology.to_atomistic.
    rewrite (ensure_finalized_id (RBTopology.finalize top))
      by apply finalize_finalized.
    unfold RBTopology.ensure_finalized. now rewrite Hzero. }
  assert (L : length (flat_map (site_to_atomistic top rbcoords)
                        (seq 0 (RBTopology.nrigid top)))
              = 3 * RBTopology.natoms_of_sites (RBTopology._sites top)).
  { unfold RBTopology.nrigid.
    apply (blocks_length (RBTopology._sites top) (RigidFragment.mk [] 0)).
    intros i Hi. unfold site_to_atomistic.
    rewrite to_atomistic_length by (apply site_ok; assumption).
    pose proof (site_ok top i Hok) as Hs. red in Hs.
    unfold RBTopology.site in *. rewrite Hs.
    unfold RigidFragment._ndim, RigidFragment.natoms. lia. }
  split; [exact E|]. split; [|exact L].
  rewrite E.
  rewrite (topology_to_atomistic_ok (RBTopology.finalize top) rbcoords)
    by (assumption || apply finalize_finalized).
  change (RBTopology.number_of_non_rigid_atoms (RBTopology.finalize top))
    with (RBTopology.number_of_non_rigid_atoms top).
  rewrite (proj2 (Nat.eqb_eq _ 0) Hnr). reflexivity.
Qed.

End LazyFinalize.

(** [to_atomistic_finalizes] on the two sites of [two_sites] before
    [finalize]. *)
Lemma to_atomistic_finalizes_witness :
  let top :=
    RBTopology.mk
      [RigidFragment.make [mkVecN3 1 0 0; mkVecN3 0 2 0]%Z;
       RigidFragment.make [mkVecN3 0 0 3]%Z] 0 0 in
  let rbcoords := [10; 20; 30; 40; 50; 60; 0; 0; 1; 1; 0; 0]%Z in
  RBTopology.natoms_total top = 0 /\
  RBTopology.to_atomistic top rbcoords
  = (two_sites, Ok [11; 21; 30; 8; 22; 30; 40; 47; 63]%Z).
Proof.
  intros top rbcoords.
  assert (Hz : RBTopology.natoms_total top = 0) by reflexivity.
  assert (Hok : Forall RigidFragment.ok (RBTopology._sites top))
    by (repeat constructor).
  assert (Hnr : RBTopology.number_of_non_rigid_atoms top = 0) by reflexivity.
  assert (Hlen : length rbcoords = 6 * RBTopology.nrigid top) by reflexivity.
  split; [exact Hz|].
  exact (proj1 (proj2 (to_atomistic_finalizes top rbcoords Hz Hok Hnr Hlen))).
Defined.

(** ** [RigidFragment]: translations and the center gradient *)

Section FragmentTranslation.
Context {F : Type} `{Scalar F} `{RotationAlgebra F}.
Context `{!ExactArith F} `{!ExactRing F}.

Lemma fadd_swap4 (a b c d : F) :
  ((a + b) + (c + d))%S = ((a + c) + (b + d))%S.
Proof.
  rewrite <- (fadd_assoc a b (c + d)%S), (fadd_assoc b c d).
  rewrite (fadd_comm b c), <- (fadd_assoc c b d).
  now rewrite (fadd_assoc a c (b + d)%S).
Qed.

Lemma fadd_move (c d s : F) : ((c + d) + s)%S = ((c + s) + d)%S.
Proof. now rewrite <- fadd_assoc, (fadd_comm d s), fadd_assoc. Qed.

Lemma sum_n_zero n : sum_n n (fun _ => fzero : F) = fzero.
Proof.
  induction n as [|n IH]; [reflexivity|].
  now rewrite sum_n_S, IH, fadd_zero_l.
Qed.

Lemma sum_n_add n (f g : nat -> F) :
  sum_n n (fun i => (f i + g i)%S) = (sum_n n f + sum_n n g)%S.
Proof.
  induction n as [|n IH].
  - unfold sum_n, for_loop. simpl. now rewrite fadd_zero_l.
  - rewrite !sum_n_S, IH. apply fadd_swap4.
Qed.

Lemma sum_n_mul_r n (f : nat -> F) (c : F) :
  sum_n n (fun i => (f i * c)%S) = (sum_n n f * c)%S.
Proof.
  induction n as [|n IH].
  - unfold sum_n, for_loop. simpl. now rewrite fmul_zero_l.
  - now rewrite !sum_n_S, IH, fmul_add_distr_r.
Qed.

Lemma sum_n_swap n m (h : nat -> nat -> F) :
  sum_n n (fun a => sum_n m (fun k => h a k))
  = sum_n m (fun k => sum_n n (fun a => h a k)).
Proof.
  induction n as [|n IH].
  - symmetry. apply sum_n_zero.
  - rewrite sum_n_S, IH, <- sum_n_add.
    apply sum_n_ext. intros k _. now rewrite sum_n_S.
Qed.

Lemma rotated_atom_translate (c d : VecN3 F) rmat q :
  rotated_atom (vec_add c d) rmat q = vec_add (rotated_atom c rmat q) d.
Proof.
  unfold rotated_atom, vec_add. simpl. f_equal; apply fadd_move.
Qed.

Lemma vec_get_add (a d : VecN3 F) k :
  k < 3 -> vec_get (vec_add a d) k = (vec_get a k + vec_get d k)%S.
Proof. intros Hk. destruct k as [|[|[|k]]]; try lia; reflexivity. Qed.

(** One coordinate of the array [to_atomistic] returns. *)
Lemma to_atomistic_coordinate (f : RigidFragment.t F) (c : VecN3 F) p
    atom k :
  RigidFragment.ok f -> atom < RigidFragment.natoms f -> k < 3 ->
  hm_get (RigidFragment.to_atomistic f (vec_to_array c) p) 3 atom k
  = vec_get (rotated_atom c (aa_to_rot_mat p)
               (RigidFragment.atom_position f atom)) k.
Proof.
  intros Hok Ha Hk. unfold hm_get.
  rewrite <- (get_view _ (atom * 3) (atom * 3 + 3)) by lia.
  rewrite to_atomistic_blocks, view_block, atom_block_exact
    by (assumption || reflexivity).
  destruct k as [|[|[|k]]]; try lia; reflexivity.
Qed.

(** X3.  In exact arithmetic, moving the center by [d] moves every atom
    by [d]: coordinate [k] of every atom of
    [to_atomistic(center + d, rotation)] is the same coordinate of
    [to_atomistic(center, rotation)] plus [d[k]]. *)
Theorem to_atomistic_translates (f : RigidFragment.t F)
    (center d rotation : VecN3 F) atom k :
  RigidFragment.ok f -> atom < RigidFragment.natoms f -> k < 3 ->
  hm_get (RigidFragment.to_atomistic f (vec_to_array (vec_add center d))
            rotation) 3 atom k
  = (hm_get (RigidFragment.to_atomistic f (vec_to_array center) rotation)
       3 atom k
     + vec_get d k)%S.
Proof.
  intros Hok Ha Hk.
  rewrite !to_atomistic_coordinate by assumption.
  rewrite rotated_atom_translate. now apply vec_get_add.
Qed.

(** X4.  In exact arithmetic the center gradient of [transform_grad] is
    the adjoint of the translation part of [to_atomistic]: for an
    atomistic gradient [g], the pairing of [g] with the atoms placed at
    [center + d] exceeds its pairing with the atoms placed at [center] by
    the pairing of the center gradient with [d]. *)
Theorem center_gradient_is_adjoint (f : RigidFragment.t F)
    (center d rotation : VecN3 F) (g : list F) (g_com0 g_rot0 : VecN3 F) :
  RigidFragment.ok f ->
  let n := RigidFragment.natoms f in
  let g_com :=
    fst (RigidFragment.transform_grad f rotation g g_com0 g_rot0) in
  pairing n g
    (RigidFragment.to_atomistic f (vec_to_array (vec_add center d)) rotation)
  = (pairing n g
       (RigidFragment.to_atomistic f (vec_to_array center) rotation)
     + pairing3 g_com d)%S.
Proof.
  intros Hok n g_com. unfold pairing.
  set (w := RigidFragment.to_atomistic f (vec_to_array center) rotation).
  assert (E1 :
    sum_n n (fun atom => sum_n 3 (fun k =>
      (hm_get g 3 atom k
       * hm_get (RigidFragment.to_atomistic f
                   (vec_to_array (vec_add center d)) rotation) 3 atom k)%S))
    = sum_n n (fun atom =>
        (sum_n 3 (fun k => (hm_get g 3 atom k * hm_get w 3 atom k)%S)
         + sum_n 3 (fun k => (hm_get g 3 atom k * vec_get d k)%S))%S)).
  { apply sum_n_ext. intros atom Ha. rewrite <- sum_n_add.
    apply sum_n_ext. intros k Hk.
    unfold w. rewrite !to_atomistic_coordinate by assumption.
    rewrite rotated_atom_translate, vec_get_add by assumption.
    apply fmul_add_distr_l. }
  rewrite E1, sum_n_add. f_equal.
  rewrite sum_n_swap. unfold pairing3.
  apply sum_n_ext. intros k Hk. rewrite sum_n_mul_r. f_equal.
  unfold g_com. rewrite transform_grad_loops. simpl fst.
  destruct k as [|[|[|k]]]; try lia; reflexivity.
Qed.

End FragmentTranslation.

(** [to_atomistic_translates] on a fragment of two atoms over [Z]: the
    second coordinate of the second atom, for a center moved by
    [(100, 200, 300)]. *)
Lemma to_atomistic_translates_witness :
  let f := RigidFragment.make [mkVecN3 1 0 0; mkVecN3 0 2 0]%Z in
  RigidFragment.ok f /\ 1 < RigidFragment.natoms f /\
  hm_get (RigidFragment.to_atomistic f [110; 220; 330]%Z (mkVecN3 0 0 1)%Z)
    3 1 1
  = (22 + 200)%Z.
Proof.
  intros f.
  assert (Hok : RigidFragment.ok f) by reflexivity.
  assert (Ha : 1 < RigidFragment.natoms f) by (vm_compute; lia).
  split; [exact Hok|]. split; [exact Ha|].
  exact (to_atomistic_translates f (mkVecN3 10 20 30)%Z
           (mkVecN3 100 200 300)%Z (mkVecN3 0 0 1)%Z 1 1 Hok Ha
           (le_S 2 2 (le_n 2))).
Defined.

(** [center_gradient_is_adjoint] on the same fragment. *)
Lemma center_gradient_is_adjoint_witness :
  let f := RigidFragment.make [mkVecN3 1 0 0; mkVecN3 0 2 0]%Z in
  let g := [1; 2; 3; 4; 5; 6]%Z in
  RigidFragment.ok f /\
  pairing 2 g
    (RigidFragment.to_atomistic f [110; 220; 330]%Z (mkVecN3 0 0 1)%Z)
  = (pairing 2 g
       (RigidFragment.to_atomistic f [10; 20; 30]%Z (mkVecN3 0 0 1)%Z)
     + (5 * 100 + 7 * 200 + 9 * 300))%Z.
Proof.
  intros f g.
  assert (Hok : RigidFragment.ok f) by reflexivity.
  split; [exact Hok|].
  exact (center_gradient_is_adjoint f (mkVecN3 10 20 30)%Z
           (mkVecN3 100 200 300)%Z (mkVecN3 0 0 1)%Z g
           (mkVecN3 7 7 7)%Z (mkVecN3 9 9 9)%Z Hok).
Defined.

(** ** [RBTopology::align_angle_axis_vectors]: the nearest of all periods *)

Section AlignStops.
Context {F : Type} `{Scalar F} `{!ScalarOrd F}.

(** Where the two loops stopped when the function returns. *)
Lemma align_stops (fuel : nat) (p1 p2 n2 r : VecN3 F) :
  RBTopology.periodicity_step p1 p2 = Some n2 ->
  RBTopology.align_angle_axis_vectors fuel p1 p2 = Some r ->
  exists a b,
    r = steps_down b n2 (steps_up a n2 p2) /\
    stops_after (fun p => vec_add p n2) p1 p2 a /\
    stops_after (fun p => vec_sub p n2) p1 (steps_up a n2 p2) b.
Proof.
  intros Hstep. unfold RBTopology.align_angle_axis_vectors. rewrite Hstep.
  rewrite add_loop_walk.
  destruct (walk _ fuel p1 p2) as [q|] eqn:Hq; [|discriminate].
  rewrite sub_loop_walk. intros Hr.
  apply walk_spec in Hq. destruct Hq as (a & _ & -> & Hsa).
  apply walk_spec in Hr. destruct Hr as (b & _ & -> & Hsb).
  exists a, b. split; [reflexivity|]. split; assumption.
Qed.

End AlignStops.

Section AlignNearest.
Local Open Scope R_scope.

(** In exact arithmetic the function returns, for enough fuel. *)
Lemma align_returns (p1 p2 : VecN3 R) :
  exists fuel r, forall fuel', (fuel <= fuel')%nat ->
    RBTopology.align_angle_axis_vectors fuel' p1 p2 = Some r.
Proof.
  destruct (RBTopology.periodicity_step p1 p2) as [n2|] eqn:Hstep.
  2:{ exists 0%nat, p2. intros fuel' _.
      unfold RBTopology.align_angle_axis_vectors. now rewrite Hstep. }
  pose proof (periodicity_step_nonzero p1 p2 n2 Hstep) as Hn2.
  destruct (walk_terminates (fun p => vec_add p n2) p1 n2 p2
              (fun p => eq_refl) Hn2) as (fa & q & Hq).
  assert (Hd : 0 < norm2 (vec_scale n2 (-1))).
  { rewrite norm2_scale. lra. }
  destruct (walk_terminates (fun p => vec_sub p n2) p1 (vec_scale n2 (-1)) q)
    as (fb & r & Hr); [|exact Hd|].
  { intros p. unfold vec_sub, vec_add, vec_scale. simpl. f_equal; ring. }
  exists (Nat.max fa fb), r. intros fuel' Hfuel.
  unfold RBTopology.align_angle_axis_vectors. rewrite Hstep.
  rewrite add_loop_walk.
  rewrite (walk_fuel_mono _ fa fuel' p1 p2 q) by (assumption || lia).
  rewrite sub_loop_walk.
  apply (walk_fuel_mono _ fb fuel'); [lia | exact Hr].
Qed.

(** The result of an alignment is not farther from [p1] than [p2] is. *)
Lemma align_not_farther (fuel : nat) (p1 p2 r : VecN3 R) :
  RBTopology.align_angle_axis_vectors fuel p1 p2 = Some r ->
  distance p1 r <= distance p1 p2.
Proof.
  intros Hr.
  destruct (RBTopology.periodicity_step p1 p2) as [n2|] eqn:Hstep.
  - destruct (align_stops fuel p1 p2 n2 r Hstep Hr) as (a & b & -> & Hsa & Hsb).
    apply Rle_trans with (distance p1 (steps_up a n2 p2)).
    + now apply walk_not_farther.
    + now apply walk_not_farther.
  - unfold RBTopology.align_angle_axis_vectors in Hr. rewrite Hstep in Hr.
    injection Hr as <-. lra.
Qed.

(** The squared distance to [p1] along the line through [r] in the
    direction [n]: a polynomial of degree two in the number of steps. *)
Lemma norm2_along (p1 r n : VecN3 R) (j : R) :
  norm2 (vec_sub (vec_add r (vec_scale n j)) p1)
  = norm2 (vec_sub r p1) + 2 * j * dot3 (vec_sub r p1) n + j * j * norm2 n.
Proof. unfold norm2, dot3, vec_sub, vec_add, vec_scale. simpl. ring. Qed.

Lemma vec_add_one (r n : VecN3 R) : vec_add r n = vec_add r (vec_scale n 1).
Proof. unfold vec_add, vec_scale. simpl. f_equal; ring. Qed.

Lemma vec_sub_one (r n : VecN3 R) :
  vec_sub r n = vec_add r (vec_scale n (-1)).
Proof. unfold vec_sub, vec_add, vec_scale. simpl. f_equal; ring. Qed.

(** When the function returns [r], one more subtraction leads strictly
    farther from [p1] and one more addition leads no nearer. *)
Lemma align_local_minimum (fuel : nat) (p1 p2 n2 r : VecN3 R) :
  RBTopology.periodicity_step p1 p2 = Some n2 ->
  RBTopology.align_angle_axis_vectors fuel p1 p2 = Some r ->
  norm2 (vec_sub r p1) < norm2 (vec_sub (vec_sub r n2) p1) /\
  norm2 (vec_sub r p1) <= norm2 (vec_sub (vec_add r n2) p1) /\
  exists k : Z, r = vec_add p2 (vec_scale n2 (IZR k)).
Proof.
  intros Hstep Hr.
  destruct (align_stops fuel p1 p2 n2 r Hstep Hr) as (a & b & -> & Hsa & Hsb).
  split; [|split].
  - destruct Hsb as [_ Hgt]. apply farther_iff in Hgt. exact Hgt.
  - destruct b as [|b].
    + destruct Hsa as [_ Hgt]. apply farther_iff in Hgt.
      apply Rlt_le. exact Hgt.
    + destruct Hsb as [Hle _].
      specialize (Hle b (Nat.lt_succ_diag_r b)).
      apply not_farther_iff in Hle.
      unfold steps_down.
      set (q := steps_up a n2 p2) in *.
      set (r' := Nat.iter b (fun p => vec_sub p n2) q) in *.
      change (Nat.iter (S b) (fun p => vec_sub p n2) q)
        with (vec_sub r' n2) in *.
      replace (vec_add (vec_sub r' n2) n2) with r'; [exact Hle|].
      destruct r', n2. unfold vec_add, vec_sub. simpl. f_equal; ring.
  - exists (Z.of_nat a - Z.of_nat b)%Z. apply steps_multiple.
Qed.

(** A polynomial of degree two that does not decrease from [0] to [1] nor
    from [0] to [-1] is least at [0] among the integers. *)
Lemma least_at_zero (s N : R) (j : Z) :
  0 <= N -> 0 <= 2 * s + N -> 0 <= - 2 * s + N ->
  0 <= 2 * IZR j * s + IZR j * IZR j * N.
Proof.
  intros HN Hup Hdown.
  destruct (Z_lt_le_dec j 1) as [Hlt|Hge].
  - destruct (Z_lt_le_dec j 0) as [Hneg|Hzero].
    + assert (Hj : IZR j <= -1) by (apply IZR_le; lia).
      assert (H1 : 0 <= (- IZR j) * (- 2 * s + N)) by
        (apply Rmult_le_pos; lra).
      assert (H2 : 0 <= ((- IZR j) * (- IZR j - 1)) * N).
      { apply Rmult_le_pos; [apply Rmult_le_pos; lra | exact HN]. }
      lra.
    + assert (j = 0%Z) as -> by lia. simpl. lra.
  - assert (Hj : 1 <= IZR j) by (apply IZR_le; lia).
    assert (H1 : 0 <= IZR j * (2 * s + N)) by (apply Rmult_le_pos; lra).
    assert (H2 : 0 <= (IZR j * (IZR j - 1)) * N).
    { apply Rmult_le_pos; [apply Rmult_le_pos; lra | exact HN]. }
    lra.
Qed.

(** X5.  In exact arithmetic, when the function goes through its loops
    (the periodicity step [n2] exists) it returns, given enough fuel; its
    result is one of the vectors [p2 + k n2], [k] a whole number, and none
    of these vectors is nearer to [p1] than the result: the local search
    of the two loops finds the nearest of all the periods of [p2] along
    [n2]. *)
Theorem align_finds_nearest_period (p1 p2 n2 : VecN3 R) :
  RBTopology.periodicity_step p1 p2 = Some n2 ->
  exists fuel r,
    (forall fuel', (fuel <= fuel')%nat ->
       RBTopology.align_angle_axis_vectors fuel' p1 p2 = Some r) /\
    (exists k0 : Z, r = vec_add p2 (vec_scale n2 (IZR k0))) /\
    forall k : Z,
      distance p1 r <= distance p1 (vec_add p2 (vec_scale n2 (IZR k))).
Proof.
  intros Hstep.
  destruct (align_returns p1 p2) as (fuel & r & Hr).
  exists fuel, r. split; [exact Hr|].
  destruct (align_local_minimum fuel p1 p2 n2 r Hstep (Hr fuel (le_n fuel)))
    as (Hdown & Hup & k0 & Ek0).
  split; [exists k0; exact Ek0|]. intros k.
  apply norm_le.
  replace (vec_add p2 (vec_scale n2 (IZR k)))
    with (vec_add r (vec_scale n2 (IZR (k - k0)))).
  2:{ rewrite Ek0, minus_IZR. unfold vec_add, vec_scale. simpl.
      f_equal; ring. }
  rewrite norm2_along.
  rewrite (vec_sub_one r n2), norm2_along in Hdown.
  rewrite (vec_add_one r n2), norm2_along in Hup.
  pose proof (least_at_zero (dot3 (vec_sub r p1) n2) (norm2 n2) (k - k0)
                (norm2_nonneg n2)) as Hleast.
  lra.
Qed.

End AlignNearest.

(** [align_finds_nearest_period] at [p1 = (0, 5, 0)], [p2 = (2 pi, 0, 0)],
    whose periodicity step is [p2] itself. *)
Lemma align_finds_nearest_period_witness :
  RBTopology.periodicity_step turn_p1 turn_p2 = Some turn_p2 /\
  exists fuel r,
    (forall fuel', fuel <= fuel' ->
       RBTopology.align_angle_axis_vectors fuel' turn_p1 turn_p2 = Some r) /\
    (exists k0 : Z, r = vec_add turn_p2 (vec_scale turn_p2 (IZR k0))) /\
    forall k : Z,
      (distance turn_p1 r
       <= distance turn_p1 (vec_add turn_p2 (vec_scale turn_p2 (IZR k))))%R.
Proof.
  split; [exact turn_first_step|].
  exact (align_finds_nearest_period turn_p1 turn_p2 turn_p2 turn_first_step).
Defined.

(** ** [RBTopology::align_angle_axis_vectors]: when a second call changes
    nothing *)

Section AlignTwice.
Local Open Scope R_scope.

Lemma norm_scale (v : VecN3 R) (s : R) :
  norm (vec_scale v s) = Rabs s * norm v.
Proof.
  rewrite !norm_sqrt, norm2_scale.
  rewrite sqrt_mult by (nra || apply norm2_nonneg).
  f_equal. apply sqrt_Rsqr_abs.
Qed.

Lemma scale_scale (v : VecN3 R) (s c : R) :
  vec_scale (vec_scale v s) c = vec_scale v (s * c).
Proof. unfold vec_scale. simpl. f_equal; ring. Qed.

(** The periodicity step of a vector parallel to [p2] is the periodicity
    step of [p2] or its opposite. *)
Lemma step_of_multiple (p2 : VecN3 R) (s : R) :
  0 < norm p2 -> s <> 0 ->
  vec_scale (vec_scale p2 s) (2 * PI / norm (vec_scale p2 s))
  = vec_scale (vec_scale p2 (2 * PI / norm p2)) (if Rlt_dec 0 s then 1 else -1).
Proof.
  intros Hp Hs. rewrite norm_scale, !scale_scale. f_equal.
  destruct (Rlt_dec 0 s) as [Hpos|Hneg].
  - rewrite Rabs_right by lra. field. lra.
  - rewrite Rabs_left by lra. field. lra.
Qed.

(** X6.  In exact arithmetic, when [p2] is not near the identity, the
    result [r] of the function is not near the identity either, and the
    addition of the step to [r] does not leave the distance to [p1] what
    it is (no tie), then [r] is a fixed point: a second call with [r] in
    the place of [p2] returns [r]. *)
Theorem align_twice (fuel : nat) (p1 p2 r : VecN3 R) :
  ~ norm p2 < 1 / 1000000 ->
  RBTopology.align_angle_axis_vectors fuel p1 p2 = Some r ->
  ~ norm r < 1 / 1000000 ->
  distance p1 (vec_add r (vec_scale p2 (2 * PI / norm p2))) <> distance p1 r ->
  RBTopology.align_angle_axis_vectors fuel p1 r = Some r.
Proof.
  intros Hp2 Hr Hfar Htie.
  set (n2 := vec_scale p2 (2 * PI / norm p2)) in *.
  assert (Hp2' : fltb (norm p2) near_identity = false).
  { apply (proj2 (Rltb_false _ _)). change (1 / 1000000 <= norm p2). lra. }
  assert (Hr' : fltb (norm r) near_identity = false).
  { apply (proj2 (Rltb_false _ _)). change (1 / 1000000 <= norm r). lra. }
  destruct (periodicity_step_cases p1 p2) as (_ & _ & Hstep).
  specialize (Hstep Hp2'). fold n2 in Hstep.
  destruct (periodicity_step_cases p1 r) as (_ & _ & Hstep').
  specialize (Hstep' Hr').
  destruct (scaled_to_two_pi p2 Hp2') as (Hnp & Hc & _).
  destruct (align_local_minimum fuel p1 p2 n2 r Hstep Hr)
    as (Hdown & Hup & k & Ek).
  assert (Hfuel : (0 < fuel)%nat).
  { destruct fuel as [|fuel]; [|lia]. exfalso.
    unfold RBTopology.align_angle_axis_vectors in Hr. rewrite Hstep in Hr.
    discriminate Hr. }
  assert (Hstrict : norm2 (vec_sub r p1) < norm2 (vec_sub (vec_add r n2) p1)).
  { destruct Hup as [Hlt|Heq]; [exact Hlt|]. exfalso. apply Htie.
    unfold distance. rewrite !norm_sqrt. now rewrite Heq. }
  set (s := 1 + 2 * PI / norm p2 * IZR k).
  assert (Es : r = vec_scale p2 s).
  { rewrite Ek. unfold n2, s, vec_add, vec_scale. simpl. f_equal; ring. }
  assert (Hs : s <> 0).
  { intros E0. rewrite Es, E0, norm_scale, Rabs_R0 in Hfar. lra. }
  assert (En2' : vec_scale r (2 * PI / norm r)
                 = vec_scale n2 (if Rlt_dec 0 s then 1 else -1)).
  { rewrite Es. apply step_of_multiple; assumption. }
  change (ftwo * M_PI / norm r)%S with (2 * PI / norm r) in Hstep'.
  rewrite En2' in Hstep'.
  rewrite (align_reaches fuel 0 0 p1 r _ Hstep' Hfuel Hfuel).
  - reflexivity.
  - split; [intros i Hi; exfalso; lia|]. apply farther_iff.
    change (Nat.iter 0 _ r) with r.
    change (Nat.iter 1 ?f r) with (f r).
    destruct (Rlt_dec 0 s).
    + rewrite <- vec_add_one. exact Hstrict.
    + rewrite <- vec_sub_one. exact Hdown.
  - split; [intros i Hi; exfalso; lia|]. apply farther_iff.
    change (steps_up 0 _ r) with r.
    change (Nat.iter 0 _ r) with r.
    change (Nat.iter 1 ?f r) with (f r).
    destruct (Rlt_dec 0 s).
    + replace (vec_sub r (vec_scale n2 1)) with (vec_sub r n2);
        [exact Hdown|].
      unfold vec_sub, vec_scale. simpl. f_equal; ring.
    + replace (vec_sub r (vec_scale n2 (-1))) with (vec_add r n2);
        [exact Hstrict|].
      unfold vec_sub, vec_add, vec_scale. simpl. f_equal; ring.
Qed.

Lemma turn_again_norm : norm turn_again = 2 * PI.
Proof.
  rewrite norm_sqrt. unfold norm2, turn_again. simpl.
  replace (0 * 0 + 2 * PI * (2 * PI) + 0 * 0) with ((2 * PI) * (2 * PI))
    by ring.
  apply sqrt_square. pose proof PI_bounds. lra.
Qed.

Lemma turn_third_step :
  RBTopology.periodicity_step turn_p1 turn_again = Some turn_again.
Proof.
  destruct (periodicity_step_cases turn_p1 turn_again) as (_ & _ & Hfar).
  rewrite Hfar.
  - rewrite turn_again_norm. unfold vec_scale, turn_again. simpl.
    pose proof PI_bounds. do 2 f_equal; field; lra.
  - apply (proj2 (Rltb_false _ _)). rewrite turn_again_norm.
    change (1 / 1000000 <= 2 * PI). pose proof PI_bounds. lra.
Qed.

Lemma turn_third_call fuel :
  (1 <= fuel)%nat ->
  RBTopology.align_angle_axis_vectors fuel turn_p1 turn_again
  = Some turn_again.
Proof.
  intros Hfuel. pose proof PI_bounds as Hpi.
  rewrite (align_reaches fuel 0 0 turn_p1 turn_again turn_again
             turn_third_step).
  - reflexivity.
  - lia.
  - lia.
  - split; [intros i Hi; exfalso; lia|].
    apply farther_iff.
    unfold norm2, vec_sub, vec_add, turn_p1, turn_again; simpl; nra.
  - split; [intros i Hi; exfalso; lia|].
    apply farther_iff.
    unfold steps_up, norm2, vec_sub, vec_add, turn_p1, turn_again; simpl; nra.
Qed.

End AlignTwice.

Section AlignTwiceExample.
Local Open Scope R_scope.

Lemma turn_twice_norm : norm turn_twice = 4 * PI.
Proof.
  rewrite norm_sqrt. unfold norm2, turn_twice. simpl.
  replace (0 * 0 + 4 * PI * (4 * PI) + 0 * 0) with ((4 * PI) * (4 * PI))
    by ring.
  apply sqrt_square. pose proof PI_bounds. lra.
Qed.

Lemma turn_twice_step :
  RBTopology.periodicity_step turn_p1 turn_twice = Some turn_again.
Proof.
  destruct (periodicity_step_cases turn_p1 turn_twice) as (_ & _ & Hfar).
  rewrite Hfar.
  - rewrite turn_twice_norm. unfold vec_scale, turn_twice, turn_again. simpl.
    pose proof PI_bounds. do 2 f_equal; field; lra.
  - apply (proj2 (Rltb_false _ _)). rewrite turn_twice_norm.
    change (1 / 1000000 <= 4 * PI). pose proof PI_bounds. lra.
Qed.

Lemma turn_twice_call fuel :
  (2 <= fuel)%nat ->
  RBTopology.align_angle_axis_vectors fuel turn_p1 turn_twice
  = Some turn_again.
Proof.
  intros Hfuel. pose proof PI_bounds as Hpi.
  rewrite (align_reaches fuel 0 1 turn_p1 turn_twice turn_again
             turn_twice_step).
  - f_equal. unfold steps_down, steps_up, vec_sub, turn_twice, turn_again.
    simpl. f_equal; ring.
  - lia.
  - lia.
  - split; [intros i Hi; exfalso; lia|].
    apply farther_iff.
    unfold norm2, vec_sub, vec_add, turn_p1, turn_twice, turn_again;
      simpl; nra.
  - split.
    + intros i Hi. assert (i = 0)%nat as -> by lia.
      apply not_farther_iff.
      unfold steps_up, norm2, vec_sub, vec_add, turn_p1, turn_twice,
        turn_again; simpl; nra.
    + apply farther_iff.
      unfold steps_up, norm2, vec_sub, vec_add, turn_p1, turn_twice,
        turn_again; simpl; nra.
Qed.

Lemma turn_twice_no_tie :
  distance turn_p1
    (vec_add turn_again (vec_scale turn_twice (2 * PI / norm turn_twice)))
  <> distance turn_p1 turn_again.
Proof.
  pose proof PI_bounds as Hpi.
  assert (Hgt : norm (vec_sub (vec_add turn_again
                         (vec_scale turn_twice (2 * PI / norm turn_twice)))
                        turn_p1)
                > norm (vec_sub turn_again turn_p1)).
  { apply norm_gt. rewrite turn_twice_norm.
    replace (2 * PI / (4 * PI)) with (1 / 2) by (field; lra).
    unfold norm2, vec_sub, vec_add, vec_scale, turn_p1, turn_twice,
      turn_again; simpl; nra. }
  unfold distance. lra.
Qed.

End AlignTwiceExample.

(** [align_twice] at [p1 = (0, 5, 0)], [p2 = (0, 4 pi, 0)]: the first call
    returns [(0, 2 pi, 0)], and so does a second call on that result. *)
Lemma align_twice_witness :
  RBTopology.align_angle_axis_vectors 2 turn_p1 turn_twice = Some turn_again /\
  RBTopology.align_angle_axis_vectors 2 turn_p1 turn_again = Some turn_again.
Proof.
  assert (H1 : ~ (norm turn_twice < 1 / 1000000)%R).
  { rewrite turn_twice_norm. pose proof PI_bounds. lra. }
  assert (H2 : RBTopology.align_angle_axis_vectors 2 turn_p1 turn_twice
               = Some turn_again) by (apply turn_twice_call; lia).
  assert (H3 : ~ (norm turn_again < 1 / 1000000)%R).
  { rewrite turn_again_norm. pose proof PI_bounds. lra. }
  split; [exact H2|].
  exact (align_twice 2 turn_p1 turn_twice turn_again H1 H2 H3
           turn_twice_no_tie).
Defined.

(** ** [RBTopology::align_angle_axis_vectors]: a second call on the result *)

Section AlignAgain.
Local Open Scope R_scope.

Lemma distance_eq_iff (p1 a b : VecN3 R) :
  distance p1 a = distance p1 b
  <-> norm2 (vec_sub a p1) = norm2 (vec_sub b p1).
Proof.
  unfold distance. split; intros E.
  - apply Rle_antisym; apply norm_le; lra.
  - apply Rle_antisym; apply norm_le; lra.
Qed.

(** A result that lies on the line of [p2] and is not near the identity:
    the step of a second call is the step of the first or its opposite,
    as the result points the way of [p2] or the other way. *)
Lemma step_of_result (p1 p2 r : VecN3 R) (k : Z) :
  ~ norm p2 < 1 / 1000000 ->
  ~ norm r < 1 / 1000000 ->
  r = vec_add p2 (vec_scale (vec_scale p2 (2 * PI / norm p2)) (IZR k)) ->
  exists s : R,
    s <> 0 /\
    dot3 r p2 = s * norm2 p2 /\
    RBTopology.periodicity_step p1 r
    = Some (vec_scale (vec_scale p2 (2 * PI / norm p2))
              (if Rlt_dec 0 s then 1 else -1)).
Proof.
  intros Hp2 Hfar Ek.
  assert (Hp2' : fltb (norm p2) near_identity = false).
  { apply (proj2 (Rltb_false _ _)). change (1 / 1000000 <= norm p2). lra. }
  assert (Hr' : fltb (norm r) near_identity = false).
  { apply (proj2 (Rltb_false _ _)). change (1 / 1000000 <= norm r). lra. }
  destruct (scaled_to_two_pi p2 Hp2') as (Hnp & _ & _).
  set (s := 1 + 2 * PI / norm p2 * IZR k).
  assert (Es : r = vec_scale p2 s).
  { rewrite Ek. unfold s, vec_add, vec_scale. simpl. f_equal; ring. }
  assert (Hs : s <> 0).
  { intros E0. rewrite Es, E0, norm_scale, Rabs_R0 in Hfar. lra. }
  exists s. split; [exact Hs|]. split.
  - rewrite Es. unfold dot3, norm2, vec_scale. simpl. ring.
  - destruct (periodicity_step_cases p1 r) as (_ & _ & Hstep).
    rewrite (Hstep Hr').
    change (ftwo * M_PI / norm r)%S with (2 * PI / norm r).
    rewrite Es. f_equal. apply step_of_multiple; assumption.
Qed.

(** One step back from [r] and one step on both lead strictly farther from
    [p1]: a call on [r] whose step is [n] or [- n] returns [r]. *)
Lemma align_stays (fuel : nat) (p1 r n : VecN3 R) (c : R) :
  (0 < fuel)%nat ->
  c = 1 \/ c = -1 ->
  RBTopology.periodicity_step p1 r = Some (vec_scale n c) ->
  norm2 (vec_sub r p1) < norm2 (vec_sub (vec_sub r n) p1) ->
  norm2 (vec_sub r p1) < norm2 (vec_sub (vec_add r n) p1) ->
  RBTopology.align_angle_axis_vectors fuel p1 r = Some r.
Proof.
  intros Hfuel Hc Hstep Hdown Hup.
  rewrite (vec_sub_one r n), norm2_along in Hdown.
  rewrite (vec_add_one r n), norm2_along in Hup.
  rewrite (align_reaches fuel 0 0 p1 r _ Hstep Hfuel Hfuel).
  - reflexivity.
  - split; [intros i Hi; exfalso; lia|]. apply farther_iff.
    change (Nat.iter 0 _ r) with r.
    change (Nat.iter 1 ?f r) with (f r). cbv beta.
    rewrite (vec_add_one r (vec_scale n c)), scale_scale, norm2_along.
    destruct Hc as [-> | ->]; lra.
  - split; [intros i Hi; exfalso; lia|]. apply farther_iff.
    change (steps_up 0 _ r) with r.
    change (Nat.iter 0 _ r) with r.
    change (Nat.iter 1 ?f r) with (f r). cbv beta.
    rewrite (vec_sub_one r (vec_scale n c)), scale_scale, norm2_along.
    destruct Hc as [-> | ->]; lra.
Qed.

(** A tie at [r + n], and the step of the call on [r] is [n]: the first
    loop takes the tie and stops at [r + n], the second loop takes it back
    and stops at [r]. *)
Lemma align_tie_returns (fuel : nat) (p1 r n : VecN3 R) :
  (2 <= fuel)%nat ->
  RBTopology.periodicity_step p1 r = Some (vec_scale n 1) ->
  0 < norm2 n ->
  norm2 (vec_sub r p1) < norm2 (vec_sub (vec_sub r n) p1) ->
  norm2 (vec_sub (vec_add r n) p1) = norm2 (vec_sub r p1) ->
  RBTopology.align_angle_axis_vectors fuel p1 r = Some r.
Proof.
  intros Hfuel Hstep Hn Hdown Htie.
  rewrite (vec_sub_one r n), norm2_along in Hdown.
  rewrite (vec_add_one r n), norm2_along in Htie.
  set (m := vec_scale n 1) in *.
  assert (E1 : vec_add r m = vec_add r (vec_scale n 1)) by reflexivity.
  assert (E2 : vec_add (vec_add r m) m = vec_add r (vec_scale n 2)).
  { unfold m, vec_add, vec_scale. simpl. f_equal; ring. }
  assert (E0 : vec_sub (vec_add r m) m = vec_add r (vec_scale n 0)).
  { unfold m, vec_sub, vec_add, vec_scale. simpl. f_equal; ring. }
  assert (Em : vec_sub (vec_sub (vec_add r m) m) m
               = vec_add r (vec_scale n (-1))).
  { unfold m, vec_sub, vec_add, vec_scale. simpl. f_equal; ring. }
  assert (Er : vec_add r (vec_scale n 0) = r).
  { unfold vec_add, vec_scale. destruct r. simpl. f_equal; ring. }
  assert (H1 : (1 < fuel)%nat) by lia.
  rewrite (align_reaches fuel 1 1 p1 r m Hstep H1 H1).
  - unfold steps_down, steps_up. simpl. now rewrite E0, Er.
  - split.
    + intros i Hi. assert (i = 0)%nat as -> by lia.
      apply not_farther_iff. simpl. rewrite E1, norm2_along. lra.
    + apply farther_iff. simpl. rewrite E2, E1, !norm2_along. lra.
  - unfold steps_up. simpl. split.
    + intros i Hi. assert (i = 0)%nat as -> by lia.
      apply not_farther_iff. simpl. rewrite E0, E1, !norm2_along. lra.
    + apply farther_iff. simpl. rewrite Em, E0, !norm2_along. lra.
Qed.

(** A tie at [r + n], and the step of the call on [r] is [- n]: the first
    loop stays at [r], the second loop takes the tie and stops at
    [r + n]. *)
Lemma align_tie_flips (fuel : nat) (p1 r n : VecN3 R) :
  (2 <= fuel)%nat ->
  RBTopology.periodicity_step p1 r = Some (vec_scale n (-1)) ->
  0 < norm2 n ->
  norm2 (vec_sub r p1) < norm2 (vec_sub (vec_sub r n) p1) ->
  norm2 (vec_sub (vec_add r n) p1) = norm2 (vec_sub r p1) ->
  RBTopology.align_angle_axis_vectors fuel p1 r = Some (vec_add r n).
Proof.
  intros Hfuel Hstep Hn Hdown Htie.
  rewrite (vec_sub_one r n), norm2_along in Hdown.
  rewrite (vec_add_one r n), norm2_along in Htie.
  set (m := vec_scale n (-1)) in *.
  assert (Em : vec_add r m = vec_add r (vec_scale n (-1))) by reflexivity.
  assert (E1 : vec_sub r m = vec_add r (vec_scale n 1)).
  { unfold m, vec_sub, vec_add, vec_scale. simpl. f_equal; ring. }
  assert (E2 : vec_sub (vec_sub r m) m = vec_add r (vec_scale n 2)).
  { unfold m, vec_sub, vec_add, vec_scale. simpl. f_equal; ring. }
  assert (H0 : (0 < fuel)%nat) by lia.
  assert (H1 : (1 < fuel)%nat) by lia.
  rewrite (align_reaches fuel 0 1 p1 r m Hstep H0 H1).
  - unfold steps_down, steps_up. simpl. rewrite E1. f_equal.
    symmetry. apply vec_add_one.
  - split; [intros i Hi; exfalso; lia|].
    apply farther_iff. simpl. rewrite Em, norm2_along. lra.
  - unfold steps_up. simpl. split.
    + intros i Hi. assert (i = 0)%nat as -> by lia.
      apply not_farther_iff. simpl. rewrite E1, norm2_along. lra.
    + apply farther_iff. simpl. rewrite E2, E1, !norm2_along. lra.
Qed.

(** C7, amended.  In exact arithmetic the function returns for every
    [p1] and [p2], given enough fuel; its result [r] is [p2] itself when
    the function returns at line 156, and otherwise [p2] plus a whole
    multiple of the periodicity step [n2]; it is not farther from [p1]
    than [p2] is.  A second call on the result returns the result when the
    first call returned [p2] itself.  When neither [p2] nor [r] is near
    the identity, a second call on the result returns the result exactly
    when [r] points the way of [p2] or [r + n2] is not as far from [p1] as
    [r] is. *)
Theorem align_exact_arithmetic (p1 p2 : VecN3 R) :
  exists fuel r,
    (forall fuel', (fuel <= fuel')%nat ->
       RBTopology.align_angle_axis_vectors fuel' p1 p2 = Some r) /\
    match RBTopology.periodicity_step p1 p2 with
    | None => r = p2
    | Some n2 => exists k : Z, r = vec_add p2 (vec_scale n2 (IZR k))
    end /\
    distance p1 r <= distance p1 p2 /\
    (r = p2 ->
     forall fuel', (fuel <= fuel')%nat ->
       RBTopology.align_angle_axis_vectors fuel' p1 r = Some r) /\
    (~ norm p2 < 1 / 1000000 -> ~ norm r < 1 / 1000000 ->
     ((forall fuel', (fuel <= fuel')%nat ->
         RBTopology.align_angle_axis_vectors fuel' p1 r = Some r)
      <-> (0 < dot3 r p2 \/
           distance p1 (vec_add r (vec_scale p2 (2 * PI / norm p2)))
           <> distance p1 r))).
Proof.
  destruct (align_returns p1 p2) as (fuel0 & r & Hr0).
  exists (Nat.max fuel0 2), r.
  assert (Hr : forall fuel', (Nat.max fuel0 2 <= fuel')%nat ->
                 RBTopology.align_angle_axis_vectors fuel' p1 p2 = Some r).
  { intros fuel' Hfuel. apply Hr0. lia. }
  pose proof (Hr _ (le_n _)) as Hcall.
  split; [exact Hr|]. split; [|split; [|split]].
  - destruct (RBTopology.periodicity_step p1 p2) as [n2|] eqn:Hstep.
    + now destruct (align_local_minimum _ p1 p2 n2 r Hstep Hcall)
        as (_ & _ & Hk).
    + unfold RBTopology.align_angle_axis_vectors in Hcall.
      rewrite Hstep in Hcall. now injection Hcall.
  - exact (align_not_farther _ p1 p2 r Hcall).
  - intros ->. exact Hr.
  - intros Hp2 Hfar.
    set (n2 := vec_scale p2 (2 * PI / norm p2)).
    assert (Hstep : RBTopology.periodicity_step p1 p2 = Some n2).
    { destruct (periodicity_step_cases p1 p2) as (_ & _ & Hcase).
      apply Hcase. apply (proj2 (Rltb_false _ _)).
      change (1 / 1000000 <= norm p2). lra. }
    pose proof (periodicity_step_nonzero p1 p2 n2 Hstep) as Hn2.
    destruct (align_local_minimum _ p1 p2 n2 r Hstep Hcall)
      as (Hdown & Hup & k & Ek).
    destruct (step_of_result p1 p2 r k Hp2 Hfar Ek)
      as (s & Hs & Hdot & Hstep').
    fold n2 in Hstep'.
    assert (Hnp : 0 < norm2 p2).
    { rewrite <- norm_square. nra. }
    assert (Hdir : 0 < dot3 r p2 <-> 0 < s).
    { rewrite Hdot. split; intros Hpos; nra. }
    rewrite Hdir, distance_eq_iff. split.
    + intros Hfix.
      destruct (Rlt_dec 0 s) as [Hpos|Hneg]; [now left|]. right.
      intros Htie.
      pose proof (align_tie_flips _ p1 r n2 (Nat.le_max_r fuel0 2)
                    Hstep' Hn2 Hdown Htie) as Hflip.
      rewrite (Hfix _ (le_n _)) in Hflip. injection Hflip as Eflip.
      assert (E0 : norm2 n2 = 0).
      { transitivity (norm2 (vec_sub (vec_add r n2) r)).
        - unfold norm2, vec_sub, vec_add. simpl. ring.
        - rewrite <- Eflip. unfold norm2, vec_sub. simpl. ring. }
      lra.
    + intros Hcond fuel' Hfuel.
      destruct (Req_dec (norm2 (vec_sub (vec_add r n2) p1))
                  (norm2 (vec_sub r p1))) as [Htie|Hne].
      * destruct Hcond as [Hpos|Hno]; [|contradiction].
        destruct (Rlt_dec 0 s) as [_|Hneg]; [|contradiction].
        apply (align_tie_returns fuel' p1 r n2); try assumption. lia.
      * apply (align_stays fuel' p1 r n2 (if Rlt_dec 0 s then 1 else -1));
          try assumption; try lra; try lia.
        destruct (Rlt_dec 0 s); auto.
Qed.

End AlignAgain.

(** [align_exact_arithmetic] at [p1 = (0, 5, 0)], [p2 = (0, 4 pi, 0)]: the
    result is [(0, 2 pi, 0)], which is not near the identity and points
    the way of [p2], so that a second call returns it. *)
Lemma align_exact_arithmetic_witness :
  exists fuel, forall fuel', fuel <= fuel' ->
    RBTopology.align_angle_axis_vectors fuel' turn_p1 turn_again
    = Some turn_again.
Proof.
  destruct (align_exact_arithmetic turn_p1 turn_twice)
    as (fuel & r & Hret & _ & _ & _ & Hfix).
  assert (Er : r = turn_again).
  { pose proof (Hret (Nat.max fuel 2) (Nat.le_max_l fuel 2)) as E.
    rewrite (turn_twice_call (Nat.max fuel 2) (Nat.le_max_r fuel 2)) in E.
    now injection E. }
  rewrite Er in Hfix. exists fuel. apply Hfix.
  - rewrite turn_twice_norm. pose proof PI_bounds. lra.
  - rewrite turn_again_norm. pose proof PI_bounds. lra.
  - right. exact turn_twice_no_tie.
Defined.

(** ** A tie that a second call takes the other way *)

Section HalfTurn.
Local Open Scope R_scope.

Lemma half_turn_step :
  RBTopology.periodicity_step turn_zero half_turn = Some turn_p2.
Proof.
  pose proof PI_bounds as Hpi.
  assert (Hnorm : norm half_turn = PI).
  { rewrite norm_sqrt. unfold norm2, half_turn. simpl.
    replace (PI * PI + 0 * 0 + 0 * 0) with (PI * PI) by ring.
    apply sqrt_square. lra. }
  destruct (periodicity_step_cases turn_zero half_turn) as (_ & _ & Hfar).
  rewrite Hfar.
  - change (ftwo * M_PI / norm half_turn)%S with (2 * PI / norm half_turn).
    rewrite Hnorm. unfold vec_scale, half_turn, turn_p2. simpl.
    do 2 f_equal; field; lra.
  - apply (proj2 (Rltb_false _ _)). rewrite Hnorm.
    change (1 / 1000000 <= PI). lra.
Qed.

Lemma half_turn_back_step :
  RBTopology.periodicity_step turn_zero half_turn_back
  = Some (vec_scale turn_p2 (-1)).
Proof.
  pose proof PI_bounds as Hpi.
  assert (Hnorm : norm half_turn_back = PI).
  { rewrite norm_sqrt. unfold norm2, half_turn_back. simpl.
    replace (- PI * - PI + 0 * 0 + 0 * 0) with (PI * PI) by ring.
    apply sqrt_square. lra. }
  destruct (periodicity_step_cases turn_zero half_turn_back)
    as (_ & _ & Hfar).
  rewrite Hfar.
  - change (ftwo * M_PI / norm half_turn_back)%S
      with (2 * PI / norm half_turn_back).
    rewrite Hnorm. unfold vec_scale, half_turn_back, turn_p2. simpl.
    do 2 f_equal; field; lra.
  - apply (proj2 (Rltb_false _ _)). rewrite Hnorm.
    change (1 / 1000000 <= PI). lra.
Qed.

(** The tie cannot be left out of [align_exact_arithmetic].  With
    [p1 = 0], half a turn [(pi, 0, 0)] and its opposite [(- pi, 0, 0)] are
    equally far from [p1]: the function maps each of them to the other,
    and neither is near the identity. *)
Lemma align_half_turn_flips (fuel : nat) :
  (2 <= fuel)%nat ->
  RBTopology.align_angle_axis_vectors fuel turn_zero half_turn
  = Some half_turn_back /\
  RBTopology.align_angle_axis_vectors fuel turn_zero half_turn_back
  = Some half_turn /\
  half_turn <> half_turn_back /\
  ~ norm half_turn < 1 / 1000000 /\
  ~ norm half_turn_back < 1 / 1000000.
Proof.
  intros Hfuel. pose proof PI_bounds as Hpi.
  assert (H0 : (0 < fuel)%nat) by lia.
  assert (H1 : (1 < fuel)%nat) by lia.
  split; [|split; [|split; [|split]]].
  - rewrite (align_reaches fuel 0 1 turn_zero half_turn turn_p2
               half_turn_step H0 H1).
    + f_equal. unfold steps_down, steps_up, vec_sub, half_turn, turn_p2,
        half_turn_back. simpl. f_equal; ring.
    + split; [intros i Hi; exfalso; lia|]. apply farther_iff.
      unfold norm2, vec_sub, vec_add, turn_zero, half_turn, turn_p2;
        simpl; nra.
    + split.
      * intros i Hi. assert (i = 0)%nat as -> by lia.
        apply not_farther_iff.
        unfold steps_up, norm2, vec_sub, vec_add, turn_zero, half_turn,
          turn_p2; simpl; nra.
      * apply farther_iff.
        unfold steps_up, norm2, vec_sub, vec_add, turn_zero, half_turn,
          turn_p2; simpl; nra.
  - rewrite (align_tie_flips fuel turn_zero half_turn_back turn_p2 Hfuel
               half_turn_back_step).
    + f_equal. unfold vec_add, half_turn, turn_p2, half_turn_back. simpl.
      f_equal; ring.
    + unfold norm2, turn_p2; simpl; nra.
    + unfold norm2, vec_sub, turn_zero, half_turn_back, turn_p2; simpl; nra.
    + unfold norm2, vec_sub, vec_add, turn_zero, half_turn_back, turn_p2;
        simpl; nra.
  - intros E. apply (f_equal v0) in E. simpl in E. lra.
  - rewrite norm_sqrt. unfold norm2, half_turn. simpl.
    replace (PI * PI + 0 * 0 + 0 * 0) with (PI * PI) by ring.
    rewrite sqrt_square; lra.
  - rewrite norm_sqrt. unfold norm2, half_turn_back. simpl.
    replace (- PI * - PI + 0 * 0 + 0 * 0) with (PI * PI) by ring.
    rewrite sqrt_square; lra.
Qed.

End HalfTurn.

(** The same two calls in binary64. *)
Example align_half_turn_flips_double :
  let p1 := (mkVecN3 0 0 0)%float in
  let p2 := (mkVecN3 0x1.921fb54442d18p+1 0 0)%float in
  let r := (mkVecN3 (-0x1.921fb54442d18p+1) 0 0)%float in
  RBTopology.align_angle_axis_vectors 2 p1 p2 = Some r /\
  RBTopology.align_angle_axis_vectors 2 p1 r = Some p2.
Proof. split; vm_compute; reflexivity. Qed.

(** ** [RBTopology::align_all_angle_axis_vectors] *)

Section AlignAll.
Context {F : Type} `{Scalar F} `{!ScalarOrd F}.

Lemma aligned_block_S (al : nat -> option (VecN3 F)) m :
  aligned_block al (S m)
  = match aligned_block al m with
    | None => None
    | Some l =>
        match al m with
        | None => None
        | Some v => Some (l ++ vec_to_array v)
        end
    end.
Proof. unfold aligned_block. now rewrite for_loop_S. Qed.

Lemma aligned_block_length (al : nat -> option (VecN3 F)) m l :
  aligned_block al m = Some l -> length l = m * 3.
Proof.
  revert l. induction m as [|m IH]; intros l.
  - intros [= <-]. reflexivity.
  - rewrite aligned_block_S.
    destruct (aligned_block al m) as [l'|]; [|discriminate].
    destruct (al m) as [v|]; [|discriminate].
    intros [= <-]. rewrite length_app, (IH l' eq_refl). simpl. lia.
Qed.

Lemma aligned_block_all (al : nat -> option (VecN3 F))
    (r : nat -> VecN3 F) m :
  (forall i, i < m -> al i = Some (r i)) ->
  aligned_block al m = Some (flat_map (fun i => vec_to_array (r i)) (seq 0 m)).
Proof.
  induction m as [|m IH]; intros Hall; [reflexivity|].
  rewrite aligned_block_S, IH, Hall, flat_map_seq_S by auto. reflexivity.
Qed.

Lemma aligned_block_none (al : nat -> option (VecN3 F)) m :
  (exists i, i < m /\ al i = None) -> aligned_block al m = None.
Proof.
  induction m as [|m IH]; intros (i & Hi & Hnone); [lia|].
  rewrite aligned_block_S.
  destruct (Nat.eq_dec i m) as [->|Hne].
  - rewrite Hnone. now destruct (aligned_block al m).
  - rewrite IH; [reflexivity|]. exists i. split; [lia|assumption].
Qed.

(** The call on two configurations of the topology's size, in closed
    form. *)
Lemma align_all_closed (fuel : nat) (top : RBTopology.t F) (x1 x2 : list F) :
  length x1 = 6 * RBTopology.nrigid top
              + 3 * RBTopology.number_of_non_rigid_atoms top ->
  length x2 = 6 * RBTopology.nrigid top
              + 3 * RBTopology.number_of_non_rigid_atoms top ->
  RBTopology.align_all_angle_axis_vectors fuel top x1 x2
  = match aligned_block (aligned_rotation fuel top x1 x2)
            (RBTopology.nrigid top) with
    | None => None
    | Some rotations =>
        Some (Ok tt,
              firstn (3 * RBTopology.nrigid top) x2 ++ rotations
              ++ skipn (6 * RBTopology.nrigid top) x2)
    end.
Proof.
  intros Hx1 Hx2. unfold RBTopology.align_all_angle_axis_vectors,
    RBTopology.get_coords_adaptor.
  rewrite !adaptor_accepts by assumption.
  set (n := RBTopology.nrigid top) in *.
  set (pre := firstn (3 * n) x2).
  set (rots := firstn (n * 3) (skipn (3 * n) x2)).
  set (tail := skipn (6 * n) x2).
  assert (Ex : x2 = pre ++ rots ++ tail).
  { unfold pre, rots, tail.
    replace (6 * n) with (n * 3 + 3 * n) by lia.
    rewrite <- skipn_skipn, firstn_skipn, firstn_skipn. reflexivity. }
  assert (Lpre : length pre = 3 * n).
  { unfold pre. rewrite length_firstn. lia. }
  assert (Lr : length rots = n * 3).
  { unfold rots. rewrite length_firstn, length_skipn. lia. }
  set (al := aligned_rotation fuel top x1 x2).
  rewrite (for_loop_invariant _ (fun m =>
             match aligned_block al m with
             | None => None
             | Some done => Some (pre ++ done ++ skipn (m * 3) rots ++ tail)
             end) n).
  - destruct (aligned_block al n) as [done|]; [|reflexivity].
    rewrite skipn_all2 by lia. reflexivity.
  - simpl. now rewrite Ex.
  - intros m Hm. rewrite aligned_block_S.
    destruct (aligned_block al m) as [done|] eqn:Hdone; [|reflexivity].
    pose proof (aligned_block_length al m done Hdone) as Ldone.
    unfold RBTopology.rb_rotation_begin, CoordsAdaptor.rb_rotations_begin.
    fold n.
    assert (Eview :
      view (pre ++ done ++ skipn (m * 3) rots ++ tail)
        (3 * n + m * 3) (3 * n + m * 3 + 3)
      = rotation_slot n x2 m).
    { unfold rotation_slot. rewrite Ex at 1.
      rewrite <- Lpre, <- !Nat.add_assoc, !view_app_r.
      rewrite (view_app_l rots) by lia.
      assert (Esplit : skipn (m * 3) rots
                       = view rots (m * 3) (m * 3 + 3)
                         ++ skipn (S m * 3) rots).
      { unfold view. replace (m * 3 + 3 - m * 3) with 3 by lia.
        replace (S m * 3) with (3 + m * 3) by lia.
        rewrite <- skipn_skipn. symmetry. apply firstn_skipn. }
      rewrite Esplit, <- app_assoc.
      apply view_at; [exact Ldone|].
      rewrite view_length by lia. lia. }
    rewrite Eview.
    change (RBTopology.align_angle_axis_vectors fuel
              (vec_of_array (view x1 (3 * n + m * 3) (3 * n + m * 3 + 3)))
              (vec_of_array (rotation_slot n x2 m)))
      with (al m).
    destruct (al m) as [v|]; [|reflexivity].
    f_equal. rewrite (app_assoc pre done).
    rewrite (assign_next_slot (pre ++ done) rots tail (vec_to_array v)
               (3 * n + m * 3) m);
      [ | reflexivity | lia | rewrite length_app; lia ].
    rewrite <- !app_assoc. reflexivity.
Qed.

(** X7.  On two configurations of the topology's size the call aligns
    site by site.  If every site's rotation of [x2] is aligned against the
    same site's rotation of [x1] to [r i], the call returns normally and
    [x2] holds its centers as they were, the rotations [r 0], [r 1], ...,
    and its non-rigid coordinates as they were; the new rotation of a site
    depends on no other site.  If the alignment of some site does not
    end, neither does the call. *)
Theorem align_all_site_by_site (fuel : nat) (top : RBTopology.t F)
    (x1 x2 : list F) :
  length x1 = 6 * RBTopology.nrigid top
              + 3 * RBTopology.number_of_non_rigid_atoms top ->
  length x2 = 6 * RBTopology.nrigid top
              + 3 * RBTopology.number_of_non_rigid_atoms top ->
  (forall r : nat -> VecN3 F,
     (forall i, i < RBTopology.nrigid top ->
        aligned_rotation fuel top x1 x2 i = Some (r i)) ->
     RBTopology.align_all_angle_axis_vectors fuel top x1 x2
     = Some (Ok tt,
             firstn (3 * RBTopology.nrigid top) x2
             ++ flat_map (fun i => vec_to_array (r i))
                  (seq 0 (RBTopology.nrigid top))
             ++ skipn (6 * RBTopology.nrigid top) x2)) /\
  ((exists i, i < RBTopology.nrigid top /\
              aligned_rotation fuel top x1 x2 i = None) ->
   RBTopology.align_all_angle_axis_vectors fuel top x1 x2 = None).
Proof.
  intros Hx1 Hx2. rewrite (align_all_closed fuel top x1 x2 Hx1 Hx2). split.
  - intros r Hall. now rewrite (aligned_block_all _ r).
  - intros Hnone. now rewrite aligned_block_none.
Qed.

End AlignAll.

(** [align_all_site_by_site] on two bodies in binary64. *)
Lemma align_all_site_by_site_witness :
  length path_x1 = 6 * RBTopology.nrigid two_bodies
                   + 3 * RBTopology.number_of_non_rigid_atoms two_bodies /\
  length path_x2 = 6 * RBTopology.nrigid two_bodies
                   + 3 * RBTopology.number_of_non_rigid_atoms two_bodies /\
  RBTopology.align_all_angle_axis_vectors 3 two_bodies path_x1 path_x2
  = Some (Ok tt, path_x2_aligned).
Proof.
  assert (H1 : length path_x1
               = 6 * RBTopology.nrigid two_bodies
                 + 3 * RBTopology.number_of_non_rigid_atoms two_bodies)
    by reflexivity.
  assert (H2 : length path_x2
               = 6 * RBTopology.nrigid two_bodies
                 + 3 * RBTopology.number_of_non_rigid_atoms two_bodies)
    by reflexivity.
  split; [exact H1|]. split; [exact H2|].
  refine (proj1 (align_all_site_by_site 3 two_bodies path_x1 path_x2 H1 H2)
            (fun i => match i with
                      | 0 => tie_result
                      | _ => mkVecN3 0 0 0
                      end%float) _).
  intros i Hi. destruct i as [|[|i]].
  - vm_compute. reflexivity.
  - vm_compute. reflexivity.
  - exfalso. vm_compute in Hi. lia.
Defined.

(** ** [align_all_angle_axis_vectors] and [align_path] in exact
    arithmetic *)

Section AlignAllReal.
Local Open Scope R_scope.

(** One amount of fuel that is enough for the first [m] sites. *)
Lemma aligned_rotations_return (top : RBTopology.t R) (x1 x2 : list R) m :
  exists fuel (r : nat -> VecN3 R),
    forall i, (i < m)%nat -> forall fuel', (fuel <= fuel')%nat ->
      aligned_rotation fuel' top x1 x2 i = Some (r i).
Proof.
  induction m as [|m (fuel & r & IH)].
  - exists 0%nat, (fun _ => mkVecN3 0 0 0). intros i Hi. lia.
  - destruct (align_returns (site_rotation top x1 m) (site_rotation top x2 m))
      as (fuel_m & r_m & Hm).
    exists (Nat.max fuel fuel_m), (fun i => if Nat.eqb i m then r_m else r i).
    intros i Hi fuel' Hfuel.
    destruct (Nat.eqb_spec i m) as [->|Hne].
    + apply Hm. lia.
    + apply IH; lia.
Qed.

(** X8.  In exact arithmetic, on two configurations of the topology's
    size the call always returns normally, given enough fuel; it leaves the
    centers and the non-rigid coordinates of [x2] as they were, and no
    site's rotation in [x2] ends farther from the same site's rotation in
    [x1] than it was. *)
Theorem align_all_exact_arithmetic (top : RBTopology.t R) (x1 x2 : list R) :
  length x1 = (6 * RBTopology.nrigid top
               + 3 * RBTopology.number_of_non_rigid_atoms top)%nat ->
  length x2 = (6 * RBTopology.nrigid top
               + 3 * RBTopology.number_of_non_rigid_atoms top)%nat ->
  exists fuel (r : nat -> VecN3 R),
    (forall fuel', (fuel <= fuel')%nat ->
       RBTopology.align_all_angle_axis_vectors fuel' top x1 x2
       = Some (Ok tt,
               firstn (3 * RBTopology.nrigid top) x2
               ++ flat_map (fun i => vec_to_array (r i))
                    (seq 0 (RBTopology.nrigid top))
               ++ skipn (6 * RBTopology.nrigid top) x2)) /\
    forall i, (i < RBTopology.nrigid top)%nat ->
      distance (site_rotation top x1 i) (r i)
      <= distance (site_rotation top x1 i) (site_rotation top x2 i).
Proof.
  intros Hx1 Hx2.
  destruct (aligned_rotations_return top x1 x2 (RBTopology.nrigid top))
    as (fuel & r & Hall).
  exists fuel, r. split.
  - intros fuel' Hfuel. rewrite (align_all_closed fuel' top x1 x2 Hx1 Hx2).
    rewrite (aligned_block_all _ r); [reflexivity|].
    intros i Hi. now apply Hall.
  - intros i Hi. apply (align_not_farther fuel).
    apply (Hall i Hi fuel). lia.
Qed.

End AlignAllReal.

(** [align_all_exact_arithmetic] on one body. *)
Lemma align_all_exact_arithmetic_witness :
  exists fuel (r : nat -> VecN3 R),
    (forall fuel', fuel <= fuel' ->
       RBTopology.align_all_angle_axis_vectors fuel' one_body turn_x1 turn_x2
       = Some (Ok tt,
               firstn (3 * RBTopology.nrigid one_body) turn_x2
               ++ flat_map (fun i => vec_to_array (r i))
                    (seq 0 (RBTopology.nrigid one_body))
               ++ skipn (6 * RBTopology.nrigid one_body) turn_x2)) /\
    forall i, i < RBTopology.nrigid one_body ->
      (distance (site_rotation one_body turn_x1 i) (r i)
       <= distance (site_rotation one_body turn_x1 i)
            (site_rotation one_body turn_x2 i))%R.
Proof.
  exact (align_all_exact_arithmetic one_body turn_x1 turn_x2
           eq_refl eq_refl).
Defined.

(** ** [RBTopology::align_path] *)

Section AlignPath.
Context {F : Type} `{Scalar F} `{!ScalarOrd F}.

(** A loop on an optional state that, once [None], stays [None]. *)
Lemma for_loop_some {S : Type} (P : S -> Prop)
    (body : nat -> option S -> option S) m s s' :
  (forall i x y, body i (Some x) = Some y -> P x -> P y) ->
  (forall i, body i None = None) ->
  for_loop m body (Some s) = Some s' -> P s -> P s'.
Proof.
  intros Hstep Hnone. revert s'. induction m as [|m IH]; intros s'.
  - intros [= <-]. auto.
  - rewrite for_loop_S.
    destruct (for_loop m body (Some s)) as [y|].
    + intros Hy Ps. apply (Hstep m y s' Hy). now apply IH.
    + rewrite Hnone. discriminate.
Qed.

(** Whatever the outcome, the second configuration keeps its size. *)
Lemma align_all_length (fuel : nat) (top : RBTopology.t F) (x1 x2 x2' : list F)
    outcome :
  RBTopology.align_all_angle_axis_vectors fuel top x1 x2
  = Some (outcome, x2') ->
  length x2' = length x2.
Proof.
  unfold RBTopology.align_all_angle_axis_vectors.
  destruct (RBTopology.get_coords_adaptor top x1);
    [|now intros [= _ <-]..].
  destruct (RBTopology.get_coords_adaptor top x2);
    [|now intros [= _ <-]..].
  match goal with
  | |- context [for_loop ?n ?body ?s] =>
      destruct (for_loop n body s) as [y|] eqn:Hloop; [|discriminate]
  end.
  intros [= _ <-].
  apply (for_loop_some (fun x => length x = length x2) _ _ _ _) in Hloop.
  - exact Hloop.
  - intros i x z Hz Hx. cbv beta in Hz.
    destruct (RBTopology.align_angle_axis_vectors _ _ _); [|discriminate].
    injection Hz as <-. now rewrite assign_view_length.
  - reflexivity.
  - reflexivity.
Qed.

Lemma align_path_from_sizes (fuel : nat) (top : RBTopology.t F) rest :
  forall x1 outcome rest',
    RBTopology.align_path_from fuel top x1 rest = Some (outcome, rest') ->
    Forall2 (fun x x' => length x' = length x) rest rest'.
Proof.
  induction rest as [|x2 rest IH]; intros x1 outcome rest'; simpl.
  - intros [= _ <-]. constructor.
  - destruct (RBTopology.align_all_angle_axis_vectors fuel top x1 x2)
      as [[[u|e|a] x2']|] eqn:Hall; [| | |discriminate].
    + destruct (RBTopology.align_path_from fuel top x2' rest)
        as [[o rest'']|] eqn:Hrest; [|discriminate].
      intros [= _ <-]. constructor.
      * exact (align_all_length _ _ _ _ _ _ Hall).
      * exact (IH _ _ _ Hrest).
    + intros [= _ <-]. constructor.
      * exact (align_all_length _ _ _ _ _ _ Hall).
      * clear. induction rest; constructor; auto.
    + intros [= _ <-]. constructor.
      * exact (align_all_length _ _ _ _ _ _ Hall).
      * clear. induction rest; constructor; auto.
Qed.

(** X9.  Whenever [align_path] ends, with or without an exception, the
    path has as many configurations as before, each of the size it had,
    and the first configuration is what it was: the first configuration is
    only ever read. *)
Theorem align_path_frame (fuel : nat) (top : RBTopology.t F)
    (path path' : list (list F)) outcome :
  RBTopology.align_path fuel top path = Some (outcome, path') ->
  length path' = length path /\
  hd_error path' = hd_error path /\
  Forall2 (fun x x' => length x' = length x) path path'.
Proof.
  unfold RBTopology.align_path. destruct path as [|x1 rest].
  - intros [= _ <-]. repeat split. constructor.
  - destruct (RBTopology.align_path_from fuel top x1 rest)
      as [[o rest']|] eqn:Hrest; [|discriminate].
    intros [= _ <-].
    pose proof (align_path_from_sizes fuel top rest x1 o rest' Hrest) as Hs.
    split; [|split].
    + simpl. f_equal. symmetry. exact (Forall2_length Hs).
    + reflexivity.
    + constructor; [reflexivity | exact Hs].
Qed.

End AlignPath.

(** [align_path_frame] on a path of two configurations in binary64. *)
Lemma align_path_frame_witness :
  RBTopology.align_path 3 two_bodies [path_x1; path_x2]
  = Some (Ok tt, [path_x1; path_x2_aligned]) /\
  length [path_x1; path_x2_aligned] = length [path_x1; path_x2] /\
  hd_error [path_x1; path_x2_aligned] = hd_error [path_x1; path_x2] /\
  Forall2 (fun x x' : list float => length x' = length x)
    [path_x1; path_x2] [path_x1; path_x2_aligned].
Proof.
  assert (E : RBTopology.align_path 3 two_bodies [path_x1; path_x2]
              = Some (Ok tt, [path_x1; path_x2_aligned]))
    by (vm_compute; reflexivity).
  split; [exact E|].
  exact (align_path_frame 3 two_bodies [path_x1; path_x2]
           [path_x1; path_x2_aligned] (Ok tt) E).
Defined.

Section AlignPathReal.
Local Open Scope R_scope.

(** The rotation of a site in a configuration whose rotation block is
    given site by site. *)
Lemma site_rotation_of_block (top : RBTopology.t R) (pre tail : list R)
    (r : nat -> VecN3 R) i :
  length pre = (3 * RBTopology.nrigid top)%nat ->
  (i < RBTopology.nrigid top)%nat ->
  site_rotation top
    (pre ++ flat_map (fun i => vec_to_array (r i))
              (seq 0 (RBTopology.nrigid top)) ++ tail) i
  = r i.
Proof.
  intros Lpre Hi. unfold site_rotation, rotation_slot.
  rewrite <- Lpre, <- Nat.add_assoc, view_app_r.
  rewrite view_app_l.
  - rewrite view_block by (reflexivity || assumption). now destruct (r i).
  - rewrite flat_map_length3, length_seq by reflexivity. lia.
Qed.

(** The call on two configurations of the topology's size, in exact
    arithmetic. *)
Lemma align_all_exact (top : RBTopology.t R) (x1 x2 : list R) :
  length x1 = (6 * RBTopology.nrigid top
               + 3 * RBTopology.number_of_non_rigid_atoms top)%nat ->
  length x2 = (6 * RBTopology.nrigid top
               + 3 * RBTopology.number_of_non_rigid_atoms top)%nat ->
  exists fuel x2',
    (forall fuel', (fuel <= fuel')%nat ->
       RBTopology.align_all_angle_axis_vectors fuel' top x1 x2
       = Some (Ok tt, x2')) /\
    aligned_chain top x1 [x2] [x2'].
Proof.
  intros Hx1 Hx2.
  destruct (aligned_rotations_return top x1 x2 (RBTopology.nrigid top))
    as (fuel & r & Hall).
  set (n := RBTopology.nrigid top) in *.
  set (pre := firstn (3 * n) x2).
  set (block := flat_map (fun i => vec_to_array (r i)) (seq 0 n)).
  set (tail := skipn (6 * n) x2).
  assert (Lpre : length pre = (3 * n)%nat).
  { unfold pre. rewrite length_firstn. lia. }
  assert (Lblock : length block = (n * 3)%nat).
  { unfold block. rewrite flat_map_length3, length_seq; reflexivity. }
  exists fuel, (pre ++ block ++ tail). split.
  - intros fuel' Hfuel. rewrite (align_all_closed fuel' top x1 x2 Hx1 Hx2).
    rewrite (aligned_block_all _ r); [reflexivity|].
    intros i Hi. now apply Hall.
  - constructor; [| | | |constructor].
    + rewrite !length_app, Lpre, Lblock. unfold tail.
      rewrite length_skipn. lia.
    + fold n. change (firstn (3 * n) x2) with pre. rewrite <- Lpre.
      rewrite firstn_app, Nat.sub_diag, firstn_all. simpl.
      apply app_nil_r.
    + fold n. change (skipn (6 * n) x2) with tail. rewrite app_assoc.
      replace (6 * n)%nat with (length (pre ++ block))
        by (rewrite length_app; lia).
      rewrite skipn_app, skipn_all, Nat.sub_diag. reflexivity.
    + intros i Hi. unfold block, n.
      rewrite (site_rotation_of_block top pre tail r i Lpre Hi).
      apply (align_not_farther fuel). apply (Hall i Hi fuel). lia.
Qed.

Lemma align_path_from_exact (top : RBTopology.t R) (rest : list (list R)) :
  forall x1,
    length x1 = (6 * RBTopology.nrigid top
                 + 3 * RBTopology.number_of_non_rigid_atoms top)%nat ->
    Forall (fun x => length x
                     = (6 * RBTopology.nrigid top
                        + 3 * RBTopology.number_of_non_rigid_atoms top)%nat)
      rest ->
    exists fuel rest',
      (forall fuel', (fuel <= fuel')%nat ->
         RBTopology.align_path_from fuel' top x1 rest = Some (Ok tt, rest')) /\
      aligned_chain top x1 rest rest'.
Proof.
  induction rest as [|x2 rest IH]; intros x1 Hx1 Hrest.
  - exists 0%nat, []. split; [reflexivity | constructor].
  - inversion Hrest as [|? ? Hx2 Hrest']; subst.
    destruct (align_all_exact top x1 x2 Hx1 Hx2) as (f1 & x2' & Hall & Hchain).
    inversion Hchain as [|? ? ? ? ? Hlen Hpre Htail Hdist _]; subst.
    destruct (IH x2') as (f2 & rest' & Hpath & Hchain').
    { now rewrite Hlen. }
    { exact Hrest'. }
    exists (Nat.max f1 f2), (x2' :: rest'). split.
    + intros fuel' Hfuel. simpl.
      rewrite Hall by lia. rewrite Hpath by lia. reflexivity.
    + now constructor.
Qed.

(** X10.  In exact arithmetic [align_path] returns normally, given enough
    fuel, on every path whose configurations have the topology's size.
    The first configuration is unchanged; every later configuration keeps
    its centers and non-rigid coordinates, and each of its rotations is no
    farther from the same site's rotation in its predecessor, as that
    predecessor was left by the alignment, than it was before. *)
Theorem align_path_exact_arithmetic (top : RBTopology.t R) (x1 : list R)
    (rest : list (list R)) :
  Forall (fun x => length x
                   = (6 * RBTopology.nrigid top
                      + 3 * RBTopology.number_of_non_rigid_atoms top)%nat)
    (x1 :: rest) ->
  exists fuel rest',
    (forall fuel', (fuel <= fuel')%nat ->
       RBTopology.align_path fuel' top (x1 :: rest)
       = Some (Ok tt, x1 :: rest')) /\
    aligned_chain top x1 rest rest'.
Proof.
  intros Hall. inversion Hall as [|? ? Hx1 Hrest]; subst.
  destruct (align_path_from_exact top rest x1 Hx1 Hrest)
    as (fuel & rest' & Hpath & Hchain).
  exists fuel, rest'. split; [|exact Hchain].
  intros fuel' Hfuel. unfold RBTopology.align_path.
  now rewrite Hpath.
Qed.

End AlignPathReal.

(** [align_path_exact_arithmetic] on a path of two configurations of one
    body. *)
Lemma align_path_exact_arithmetic_witness :
  exists fuel rest',
    (forall fuel', fuel <= fuel' ->
       RBTopology.align_path fuel' one_body [turn_x1; turn_x2]
       = Some (Ok tt, turn_x1 :: rest')) /\
    aligned_chain one_body turn_x1 [turn_x2] rest'.
Proof.
  apply (align_path_exact_arithmetic one_body turn_x1 [turn_x2]).
  repeat constructor.
Defined.

(** ** The atomistic layout shared by [to_atomistic] and
    [transform_gradient] *)

Section SharedLayout.
Context {F : Type} `{Scalar F} `{RotationAlgebra F}.

(** The block of site [i] inside the concatenation of the blocks. *)
Lemma view_flat_map_block (blk : nat -> list F) n i :
  i < n ->
  view (flat_map blk (seq 0 n))
    (length (flat_map blk (seq 0 i)))
    (length (flat_map blk (seq 0 i)) + length (blk i))
  = blk i.
Proof.
  intros Hi.
  replace n with (i + S (n - S i)) by lia.
  rewrite seq_app, flat_map_app. simpl seq at 2. simpl flat_map at 2.
  apply view_mid.
Qed.

Lemma site_block_length (top : RBTopology.t F) rbcoords i :
  Forall RigidFragment.ok (RBTopology._sites top) ->
  length (site_to_atomistic top rbcoords i)
  = RigidFragment.natoms (RBTopology.site top i) * 3.
Proof.
  intros Hok. unfold site_to_atomistic.
  rewrite to_atomistic_length by (apply site_ok; assumption).
  exact (site_ok top i Hok).
Qed.

Lemma grad_start_blocks (top : RBTopology.t F) rbcoords i :
  Forall RigidFragment.ok (RBTopology._sites top) ->
  grad_start top i
  = length (flat_map (site_to_atomistic top rbcoords) (seq 0 i)).
Proof.
  intros Hok. induction i as [|i IH]; [reflexivity|].
  unfold grad_start in *. rewrite for_loop_S, IH.
  now rewrite flat_map_seq_S, length_app, site_block_length.
Qed.

(** X11.  [to_atomistic] and [transform_gradient] agree on where the atoms
    of a site are.  For a topology without non-rigid atoms, in the array
    [to_atomistic] returns, the numbers from [istart] to
    [istart + 3 * natoms] that [transform_gradient] reads as the gradient
    block of site [i] are the coordinates of the atoms of site [i]. *)
Theorem gradient_block_is_site_block (top : RBTopology.t F)
    (rbcoords : list F) (i : nat) :
  RBTopology.finalized top ->
  Forall RigidFragment.ok (RBTopology._sites top) ->
  RBTopology.number_of_non_rigid_atoms top = 0 ->
  length rbcoords = 6 * RBTopology.nrigid top ->
  i < RBTopology.nrigid top ->
  exists atomistic,
    snd (RBTopology.to_atomistic top rbcoords) = Ok atomistic /\
    view atomistic (grad_start top i)
      (grad_start top i
       + RigidFragment.natoms (RBTopology.site top i) * 3)
    = site_to_atomistic top rbcoords i.
Proof.
  intros Hfin Hok Hnr Hlen Hi.
  rewrite topology_to_atomistic_ok by assumption.
  rewrite (proj2 (Nat.eqb_eq _ 0) Hnr).
  eexists. split; [reflexivity|].
  rewrite (grad_start_blocks top rbcoords i Hok).
  rewrite <- (site_block_length top rbcoords i Hok).
  exact (view_flat_map_block (site_to_atomistic top rbcoords)
           (RBTopology.nrigid top) i Hi).
Qed.

(** X12.  With the asserts compiled in, a finalized topology that has
    non-rigid atoms stops [to_atomistic] at line 107: the sites fill fewer
    than [3 * natoms_total] entries, and nothing is returned. *)
Theorem to_atomistic_stops_on_non_rigid_atoms (top : RBTopology.t F)
    (rbcoords : list F) :
  RBTopology.finalized top ->
  Forall RigidFragment.ok (RBTopology._sites top) ->
  RBTopology.number_of_non_rigid_atoms top <> 0 ->
  length rbcoords = 6 * RBTopology.nrigid top ->
  RBTopology.to_atomistic top rbcoords
  = (top, Abort "istart == natoms_total() * 3").
Proof.
  intros Hfin Hok Hnr Hlen.
  rewrite topology_to_atomistic_ok by assumption.
  destruct (Nat.eqb_spec (RBTopology.number_of_non_rigid_atoms top) 0)
    as [E|_]; [contradiction|reflexivity].
Qed.

End SharedLayout.

(** [gradient_block_is_site_block] on the second site of [two_sites]. *)
Lemma gradient_block_is_site_block_witness :
  let rbcoords := [10; 20; 30; 40; 50; 60; 0; 0; 1; 1; 0; 0]%Z in
  RBTopology.number_of_non_rigid_atoms two_sites = 0 /\
  grad_start two_sites 1 = 6 /\
  exists atomistic,
    snd (RBTopology.to_atomistic two_sites rbcoords) = Ok atomistic /\
    view atomistic (grad_start two_sites 1)
      (grad_start two_sites 1
       + RigidFragment.natoms (RBTopology.site two_sites 1) * 3)
    = site_to_atomistic two_sites rbcoords 1.
Proof.
  intros rbcoords. split; [reflexivity|]. split; [reflexivity|].
  apply (gradient_block_is_site_block two_sites rbcoords 1).
  - reflexivity.
  - repeat constructor.
  - reflexivity.
  - reflexivity.
  - vm_compute. lia.
Defined.

(** [to_atomistic_stops_on_non_rigid_atoms] on one site and one free
    atom. *)
Lemma to_atomistic_stops_on_non_rigid_atoms_witness :
  let rbcoords := [10; 20; 30; 0; 0; 1]%Z in
  RBTopology.number_of_non_rigid_atoms one_site_one_free_atom = 1 /\
  RBTopology.to_atomistic one_site_one_free_atom rbcoords
  = (one_site_one_free_atom, Abort "istart == natoms_total() * 3").
Proof.
  intros rbcoords. split; [reflexivity|].
  apply (to_atomistic_stops_on_non_rigid_atoms one_site_one_free_atom
           rbcoords).
  - reflexivity.
  - repeat constructor.
  - vm_compute. discriminate.
  - reflexivity.
Defined.
